(** * Resolution core of delorian (pkg/repo/flux, pkg/kustomize)

    A shallow embedding of the code that walks a Flux repository, links
    Flux Kustomizations to the kustomize layering files of their build
    directories, binds them to their Sources, and builds the cluster
    forest.  Strings are Stdlib strings of bytes; the Go standard library
    functions the code calls ([strings], [path/filepath]) are written out
    first, then the repository's own functions under their Go names. *)

From Stdlib Require Import Strings.String Strings.Ascii Lists.List Bool.Bool
  Arith.Arith Arith.PeanoNat Lia Sorting.Permutation Sorting.Sorted
  Relations.Relation_Operators.
Import ListNotations.
Open Scope list_scope.
Open Scope string_scope.

(** ** Go standard library: [strings] *)
Module Go.

Definition sep : ascii := "/"%char.

Fixpoint rev_str (s : string) : string :=
  match s with
  | EmptyString => EmptyString
  | String c s' => rev_str s' ++ String c EmptyString
  end.

(** strings.HasPrefix *)
Definition HasPrefix (s p : string) : bool := String.prefix p s.

(** strings.TrimPrefix *)
Definition TrimPrefix (s p : string) : string :=
  if String.prefix p s
  then substring (String.length p) (String.length s - String.length p) s
  else s.

(** strings.HasSuffix *)
Definition HasSuffix (s suf : string) : bool :=
  String.prefix (rev_str suf) (rev_str s).

(** strings.TrimSuffix *)
Definition TrimSuffix (s suf : string) : string :=
  if HasSuffix s suf
  then substring 0 (String.length s - String.length suf) s
  else s.

(** strings.Contains *)
Fixpoint Contains (s sub : string) : bool :=
  String.prefix sub s ||
  match s with
  | EmptyString => false
  | String _ s' => Contains s' sub
  end.

Fixpoint drop_sep (s : string) : string :=
  match s with
  | String c s' => if Ascii.eqb c sep then drop_sep s' else s
  | EmptyString => EmptyString
  end.

(** strings.TrimRight(s, "/") *)
Definition TrimRightSep (s : string) : string := rev_str (drop_sep (rev_str s)).

(** strings.Split(s, "/") *)
Fixpoint Split (s : string) : list string :=
  match s with
  | EmptyString => [EmptyString]
  | String c s' =>
      if Ascii.eqb c sep then EmptyString :: Split s'
      else match Split s' with
           | [] => [String c EmptyString]
           | w :: ws => String c w :: ws
           end
  end.

(** strings.ReplaceAll for a non-empty [old]: left-to-right,
    non-overlapping; [fuel] bounds the scan by the length of [s]. *)
Fixpoint replace_fuel (fuel : nat) (s old new : string) : string :=
  match fuel with
  | 0 => s
  | S f =>
      match s with
      | EmptyString => EmptyString
      | String c s' =>
          if String.prefix old s
          then new ++ replace_fuel f (substring (String.length old)
                                        (String.length s - String.length old) s) old new
          else String c (replace_fuel f s' old new)
      end
  end.

Definition ReplaceAll (s old new : string) : string :=
  replace_fuel (String.length s) s old new.

Definition is_space (c : ascii) : bool :=
  match Ascii.nat_of_ascii c with
  | 9 | 10 | 11 | 12 | 13 | 32 => true
  | _ => false
  end.

Fixpoint drop_space (s : string) : string :=
  match s with
  | String c s' => if is_space c then drop_space s' else s
  | EmptyString => EmptyString
  end.

(** strings.TrimSpace (ASCII white space) *)
Definition TrimSpace (s : string) : string :=
  rev_str (drop_space (rev_str (drop_space s))).

Definition lower (c : ascii) : ascii :=
  let n := Ascii.nat_of_ascii c in
  if ((65 <=? n) && (n <=? 90))%nat then Ascii.ascii_of_nat (n + 32)%nat else c.

(** strings.ToLower (ASCII) *)
Fixpoint ToLower (s : string) : string :=
  match s with
  | EmptyString => EmptyString
  | String c s' => String (lower c) (ToLower s')
  end.

End Go.

(** ** Go standard library: [path/filepath] (Unix) *)
Module FilePath.
Import Go.

Definition IsAbs (p : string) : bool := String.prefix "/" p.

(** One step of Clean over the stack of kept elements (top first). *)
Definition clean_step (rooted : bool) (stk : list string) (e : string) : list string :=
  if String.eqb e "" then stk
  else if String.eqb e "." then stk
  else if String.eqb e ".." then
    match stk with
    | top :: rest => if String.eqb top ".." then ".." :: stk else rest
    | [] => if rooted then [] else [".."]
    end
  else e :: stk.

(** filepath.Clean *)
Definition Clean (p : string) : string :=
  if String.eqb p "" then "."
  else
    let rooted := IsAbs p in
    let stk := fold_left (clean_step rooted) (Split p) [] in
    let body := String.concat "/" (rev stk) in
    if rooted then "/" ++ body
    else if String.eqb body "" then "." else body.

(** filepath.Join(a, b) *)
Definition Join (a b : string) : string :=
  if String.eqb a "" then (if String.eqb b "" then "" else Clean b)
  else Clean (a ++ "/" ++ b).

(** filepath.Abs, with the working directory [cwd] *)
Definition Abs (cwd p : string) : string :=
  if IsAbs p then Clean p else Join cwd p.

Fixpoint last_elem (l : list string) : string :=
  match l with
  | [] => ""
  | [x] => x
  | _ :: l' => last_elem l'
  end.

(** filepath.Base *)
Definition Base (p : string) : string :=
  if String.eqb p "" then "."
  else let q := TrimRightSep p in
       if String.eqb q "" then "/" else last_elem (Split q).

Fixpoint drop_nonsep (s : string) : string :=
  match s with
  | String c s' => if Ascii.eqb c sep then s else drop_nonsep s'
  | EmptyString => EmptyString
  end.

(** filepath.Dir *)
Definition Dir (p : string) : string := Clean (rev_str (drop_nonsep (rev_str p))).

Fixpoint ext_rev (r acc : string) : string :=
  match r with
  | EmptyString => ""
  | String c r' =>
      if Ascii.eqb c sep then ""
      else if Ascii.eqb c "." then String "." acc
      else ext_rev r' (String c acc)
  end.

(** filepath.Ext *)
Definition Ext (p : string) : string := ext_rev (rev_str p) "".

End FilePath.

Import Go FilePath.

(** ** Data model (pkg/repo/flux/types.go) *)

Module FluxFileType.
Inductive t := Base | Patch | Complete.
Definition eqb (a b : t) : bool :=
  match a, b with
  | Base, Base | Patch, Patch | Complete, Complete => true
  | _, _ => false
  end.
End FluxFileType.

(** shortMeta *)
Record shortMeta := mkMeta { Name : string; Namespace : option string }.

(** shortSource as it appears under spec.sourceRef *)
Record sourceRef := mkRef { ref_Kind : string; ref_Name : string; ref_Namespace : option string }.

(** shortSpec; [PostBuild] holds postBuild.substitute as the list of its
    entries in the order Go's map iteration visits them. *)
Record shortSpec := mkSpec {
  Path : option string;
  Source : option sourceRef;
  PostBuild : option (list (string * string)) }.

(** A YAML document as the decoder hands it over: the fields read by the
    shortApi schema and by kustomize's types.Kustomization (resources and
    the path of each patch). *)
Record ydoc := mkDoc {
  y_apiVersion : string;
  y_kind : string;
  y_metadata : shortMeta;
  y_spec : shortSpec;
  y_resources : list string;
  y_patches : list string }.

(** A YAML stream as successive results of Decoder.Decode: [Some d] a
    decoded document, [None] a document that fails to decode. *)
Definition yfile := list (option ydoc).

(** shortApi (a Flux Kustomization); pointers to other records are
    indices into the model's slices.  The random id is not modelled. *)
Record shortApi := mkApi {
  ApiVersion : string;
  Kind : string;
  Metadata : shortMeta;
  Spec : shortSpec;
  children : list nat;
  filepath : string;
  ftype : FluxFileType.t;
  kustomize : string;
  parent : option nat;
  source : option nat;
  root : string }.

(** shortSource (a Flux Source) *)
Record shortSource := mkSource {
  s_meta : shortMeta;
  s_Kind : string;
  s_children : list nat;
  s_filepath : string;
  s_parent : option nat }.

(** cluster; a child pointer may be nil, hence [option]. *)
#[local] Set Warnings "-register-all".
Inductive cluster := mkCluster {
  c_name : string;
  c_filepath : string;
  c_children : list (option cluster);
  c_selected : bool }.

(** Model (part_001): the fields the resolution passes use. *)
Record Model := mkModel {
  m_root : string;
  kustomizations : list shortApi;
  sources : list shortSource;
  clusters : list cluster }.

(** ** The file system and fastwalk *)

(** A directory, or a file whose content is [None] when it cannot be read. *)
Inductive entry := EDir | EFile (content : option yfile).

(** A directory entry reported by fastwalk; [de_regular] is
    d.Type().IsRegular(). *)
Record dirent := mkDirent { de_path : string; de_name : string; de_regular : bool }.

(** One call of the walk function: an entry, or an error for a path. *)
Inductive walkEvent := WEntry (d : dirent) | WError (path : string).

(** [fs_stat p] is os.Stat (symlinks followed, so directory cycles are
    just infinitely many paths naming directories); [fs_walk r] is the
    sequence of calls fastwalk.Walk makes for the tree at [r], root
    first (one serialisation of its concurrent callbacks). *)
Record FS := mkFS {
  fs_stat : string -> option entry;
  fs_walk : string -> list walkEvent }.

Definition Stat (fs : FS) (p : string) : option entry := fs_stat fs p.

(** os.ReadFile: fails on a missing path and on a directory. *)
Definition ReadFile (fs : FS) (p : string) : option yfile :=
  match fs_stat fs p with
  | Some (EFile (Some c)) => Some c
  | _ => None
  end.

(** ** Helpers for slices updated in place *)

Fixpoint upd {A} (l : list A) (i : nat) (f : A -> A) : list A :=
  match l, i with
  | [], _ => []
  | x :: l', 0 => f x :: l'
  | x :: l', S i' => x :: upd l' i' f
  end.

Definition set_kust (m : Model) (i : nat) (f : shortApi -> shortApi) : Model :=
  mkModel (m_root m) (upd (kustomizations m) i f) (sources m) (clusters m).

Definition set_source (m : Model) (i : nat) (f : shortSource -> shortSource) : Model :=
  mkModel (m_root m) (kustomizations m) (upd (sources m) i f) (clusters m).

Definition with_children (k : shortApi) (c : list nat) : shortApi :=
  mkApi (ApiVersion k) (Kind k) (Metadata k) (Spec k) c (filepath k) (ftype k)
        (kustomize k) (parent k) (source k) (root k).
Definition with_parent (k : shortApi) (p : option nat) : shortApi :=
  mkApi (ApiVersion k) (Kind k) (Metadata k) (Spec k) (children k) (filepath k) (ftype k)
        (kustomize k) p (source k) (root k).
Definition with_source (k : shortApi) (s : option nat) : shortApi :=
  mkApi (ApiVersion k) (Kind k) (Metadata k) (Spec k) (children k) (filepath k) (ftype k)
        (kustomize k) (parent k) s (root k).
Definition with_ftype (k : shortApi) (t : FluxFileType.t) : shortApi :=
  mkApi (ApiVersion k) (Kind k) (Metadata k) (Spec k) (children k) (filepath k) t
        (kustomize k) (parent k) (source k) (root k).
Definition with_kustomize (k : shortApi) (fp : string) : shortApi :=
  mkApi (ApiVersion k) (Kind k) (Metadata k) (Spec k) (children k) (filepath k) (ftype k)
        fp (parent k) (source k) (root k).
Definition with_meta_spec (k : shortApi) (md : shortMeta) (sp : shortSpec) : shortApi :=
  mkApi (ApiVersion k) (Kind k) md sp (children k) (filepath k) (ftype k)
        (kustomize k) (parent k) (source k) (root k).

Definition s_with_children (s : shortSource) (c : list nat) : shortSource :=
  mkSource (s_meta s) (s_Kind s) c (s_filepath s) (s_parent s).
Definition s_with_parent (s : shortSource) (p : option nat) : shortSource :=
  mkSource (s_meta s) (s_Kind s) (s_children s) (s_filepath s) p.

Definition dummy_api : shortApi :=
  mkApi "" "" (mkMeta "" None) (mkSpec None None None) [] "" FluxFileType.Base "" None None "".
Definition dummy_source : shortSource := mkSource (mkMeta "" None) "" [] "" None.

Definition kust_at (m : Model) (i : nat) : shortApi := nth i (kustomizations m) dummy_api.
Definition source_at (m : Model) (i : nat) : shortSource := nth i (sources m) dummy_source.

(** ** Accessors (api.go, types.go) *)

Definition GetName (k : shortApi) : string := TrimSpace (Name (Metadata k)).
Definition GetNamespace (k : shortApi) : string :=
  match Namespace (Metadata k) with None => "" | Some n => TrimSpace n end.
Definition GetSourceName (r : sourceRef) : string := ref_Name r.
Definition GetSourceNamespace (k : shortApi) (r : sourceRef) : string :=
  match ref_Namespace r with None => GetNamespace k | Some n => n end.
Definition s_GetName (s : shortSource) : string := Name (s_meta s).
Definition s_GetNamespace (s : shortSource) : string :=
  match Namespace (s_meta s) with None => "" | Some n => n end.

(** GetAbsoluteSpecPath; the working directory [cwd] is the root the
    program was started in (manager.New passes os.Getwd()). *)
Definition GetAbsoluteSpecPath (cwd : string) (k : shortApi) : string :=
  match Path (Spec k) with
  | None => ""
  | Some p => Abs cwd (Join (root k) p)
  end.

(** ** Substitution engine (traverse.go, ParseSubstitutions)

    [subst] is the map in the order this call's range visits it; Go
    randomises that order, so every permutation of the entries is a
    possible [subst]. *)
Definition ParseSubstitutions (where_ : string) (subst : list (string * string)) : string :=
  fold_left (fun w kv => ReplaceAll w ("${" ++ fst kv ++ "}") (snd kv)) subst where_.

(** ** Decoding (traverse.go, parseYaml and parseYamlFromFile) *)

Definition kustomizationApi : string := "kustomize.toolkit.fluxcd.io".
Definition sourceApi : string := "source.toolkit.fluxcd.io".

(** strings.Split(doc.ApiVersion, "/")[0] *)
Definition api_group (v : string) : string := hd "" (Split v).

Definition kust_of_doc (root_ path : string) (d : ydoc) : shortApi :=
  let sp := y_spec d in
  let src := match Source sp with
             | Some r => Some (match ref_Namespace r with
                               | None => mkRef (ref_Kind r) (ref_Name r) (Namespace (y_metadata d))
                               | Some _ => r
                               end)
             | None => None
             end in
  mkApi (y_apiVersion d) (y_kind d) (y_metadata d)
        (mkSpec (Path sp) src (PostBuild sp))
        [] (TrimPrefix path (root_ ++ "/")) FluxFileType.Base "" None None root_.

Definition source_of_doc (path : string) (d : ydoc) : shortSource :=
  mkSource (mkMeta (Name (y_metadata d)) (Namespace (y_metadata d))) (y_kind d) [] path None.

(** The decode loop: [for dec.Decode(&doc) == nil { ... }], each decoded
    document taken as a fresh record (see GoYaml for the decoder that
    reuses [doc]). *)
Fixpoint parseYaml (input : yfile) (root_ path : string) : list shortApi * list shortSource :=
  match input with
  | Some d :: rest =>
      let '(ks, ss) := parseYaml rest root_ path in
      let api := api_group (y_apiVersion d) in
      if String.eqb api kustomizationApi then (kust_of_doc root_ path d :: ks, ss)
      else if String.eqb api sourceApi then (ks, source_of_doc path d :: ss)
      else (ks, ss)
  | _ => ([], [])
  end.

Definition parseYamlFromFile (fs : FS) (root_ path : string) : list shortApi * list shortSource :=
  match ReadFile fs (Clean path) with
  | None => ([], [])
  | Some f => parseYaml f root_ path
  end.

(** ** Layering file lookup (pkg/kustomize, GetKustomization) *)

Record Kustomization := mkKust { Resources : list string; Patches : list string }.

Definition kustomizationName : string := "kustomization".

(** yaml.v3 Unmarshal: the first document of the stream; an empty
    stream decodes to the zero value. *)
Definition Unmarshal (f : yfile) : option Kustomization :=
  match f with
  | [] => Some (mkKust [] [])
  | Some d :: _ => Some (mkKust (y_resources d) (y_patches d))
  | None :: _ => None
  end.

Definition GetKustomization (fs : FS) (path : string) : string * option Kustomization :=
  let dirname := Dir path in
  let p1 := Join dirname (kustomizationName ++ "." ++ "yaml") in
  let found :=
    match Stat fs p1 with
    | Some _ => Some p1
    | None =>
        let p2 := Join dirname (kustomizationName ++ "." ++ "yml") in
        match Stat fs p2 with Some _ => Some p2 | None => None end
    end in
  match found with
  | None => ("", None)
  | Some sk =>
      match ReadFile fs sk with
      | None => ("", None)
      | Some content =>
          match Unmarshal content with
          | None => ("", None)
          | Some k => (sk, Some k)
          end
      end
  end.

(** ** Layering-link pass (traverse.go) *)

(** The two match loops of followKustomization for a resolved resource
    path [rp]: every Kustomization stored at [rp] becomes a child of
    [index]; every Source stored at [rp] gets [index] as parent and
    becomes [index]'s source. *)
Definition bind_kusts (index : nat) (rp : string) (m : Model) : Model :=
  fold_left (fun m j =>
      if String.eqb (filepath (kust_at m j)) rp
      then let m1 := set_kust m j (fun k => with_parent k (Some index)) in
           set_kust m1 index (fun k => with_children k (children k ++ [j]))
      else m)
    (seq 0 (length (kustomizations m))) m.

Definition bind_sources (index : nat) (rp : string) (m : Model) : Model :=
  fold_left (fun m s =>
      if String.eqb (s_filepath (source_at m s)) rp
      then let m1 := set_source m s (fun v => s_with_parent v (Some index)) in
           set_kust m1 index (fun k => with_source k (Some s))
      else m)
    (seq 0 (length (sources m))) m.

Definition bind_resource (index : nat) (rp : string) (m : Model) : Model :=
  bind_sources index rp (bind_kusts index rp m).

(** The loop over the resources of one decoded layering document; [rec]
    is the recursive call.  The flag is true when a [return] left
    followKustomization early. *)
Fixpoint res_loop (fs : FS) (index : nat) (path : string) (rec : string -> Model -> option Model)
    (rs : list string) (m : Model) : option (Model * bool) :=
  match rs with
  | [] => Some (m, false)
  | r :: rs' =>
      let np := Join path r in
      let rp := Abs (m_root m) np in
      match Stat fs rp with
      | Some EDir =>
          match rec rp m with
          | Some m' => Some (m', true)
          | None => None
          end
      | _ => res_loop fs index path rec rs' (bind_resource index rp m)
      end
  end.

(** The decode loop of followKustomization. *)
Fixpoint docs_loop (fs : FS) (index : nat) (path : string) (rec : string -> Model -> option Model)
    (ds : yfile) (m : Model) : option Model :=
  match ds with
  | Some d :: ds' =>
      match res_loop fs index path rec (y_resources d) m with
      | Some (m', true) => Some m'
      | Some (m', false) => docs_loop fs index path rec ds' m'
      | None => None
      end
  | _ => Some m
  end.

(** followKustomization.  [fuel] bounds the recursion depth; [None] means
    it ran out. *)
Fixpoint followKustomization (fuel : nat) (fs : FS) (index : nat) (path : string)
    (m : Model) : option Model :=
  match fuel with
  | 0 => None
  | S f =>
      match ReadFile fs (Clean path) with
      | None => Some m
      | Some docs => docs_loop fs index path (followKustomization f fs index) docs m
      end
  end.

(** Outcome of a walk function call: an error stops fastwalk.Walk. *)
Inductive step_result := Continue (m : Model) | Stop (err : string) (m : Model) | OutOfFuel.

(** The binding done by pathFn for a regular file matching
    Kustomization [i]. *)
Definition bind_child (index i : nat) (m : Model) : step_result :=
  let m1 := set_kust m index (fun k => with_children k (children k ++ [i])) in
  let m2 := set_kust m1 i (fun k => with_parent k (Some index)) in
  match PostBuild (Spec (kust_at m2 index)) with
  | None => Continue m2
  | Some subst =>
      let c := kust_at m2 i in
      match Path (Spec c) with
      | None => Stop "nil pointer dereference" m2
      | Some p =>
          let md := mkMeta (ParseSubstitutions (Name (Metadata c)) subst) (Namespace (Metadata c)) in
          let sp := mkSpec (Some (ParseSubstitutions (Join (m_root m2) p) subst))
                           (Source (Spec c)) (PostBuild (Spec c)) in
          Continue (set_kust m2 i (fun k => with_meta_spec k md sp))
      end
  end.

Fixpoint first_kust_at (path : string) (ks : list shortApi) (i : nat) : option nat :=
  match ks with
  | [] => None
  | k :: ks' => if String.eqb path (filepath k) then Some i else first_kust_at path ks' (S i)
  end.

Definition set_source_parents (index : nat) (path : string) (m : Model) : Model :=
  fold_left (fun m s =>
      if String.eqb (s_filepath (source_at m s)) path
      then set_source m s (fun v => s_with_parent v (Some index))
      else m)
    (seq 0 (length (sources m))) m.

(** The walk function of followFluxKustomization. *)
Definition pathFn (fuel : nat) (fs : FS) (index : nat) (ev : walkEvent) (m : Model) : step_result :=
  match ev with
  | WError p => Stop p m
  | WEntry d =>
      let filename := substring 0 (String.length (de_name d) - String.length (Ext (de_name d))) (de_name d) in
      if String.eqb filename kustomizationName then
        match followKustomization fuel fs index (de_path d) m with
        | Some m' => Continue m'
        | None => OutOfFuel
        end
      else if de_regular d then
        match first_kust_at (de_path d) (kustomizations m) 0 with
        | Some i => bind_child index i m
        | None => Continue (set_source_parents index (de_path d) m)
        end
      else Continue m
  end.

(** fastwalk.Walk driving a walk function over the events of a tree. *)
Fixpoint run_walk (fn : walkEvent -> Model -> step_result) (evs : list walkEvent) (m : Model)
    : step_result :=
  match evs with
  | [] => Continue m
  | ev :: evs' =>
      match fn ev m with
      | Continue m' => run_walk fn evs' m'
      | r => r
      end
  end.

(** The classification part of followFluxKustomization. *)
Definition classify (cur : FluxFileType.t) (kust : option Kustomization) (own : string)
    : FluxFileType.t :=
  match kust with
  | None => FluxFileType.Complete
  | Some k =>
      if existsb (String.eqb own) (Resources k) then FluxFileType.Complete
      else fold_left (fun t p => if String.eqb p own then FluxFileType.Patch else t)
             (Patches k) cur
  end.

(** The path followFluxKustomization starts from: the Manifest's file
    path, joined to the root when it does not start with it. *)
Definition kust_path (root_ fp : string) : string :=
  if HasPrefix fp root_ then fp else Join root_ fp.

(** followFluxKustomization(index, &m.kustomizations[index]) *)
Definition followFluxKustomization (fuel : nat) (fs : FS) (index : nat) (m : Model)
    : step_result :=
  let k := kust_at m index in
  let path := kust_path (m_root m) (filepath k) in
  let '(fp, kust) := GetKustomization fs path in
  let m1 := set_kust m index (fun k =>
              with_ftype (with_kustomize k fp) (classify (ftype k) kust (FilePath.Base path))) in
  match Path (Spec (kust_at m1 index)) with
  | None => Continue m1
  | Some _ =>
      let kpath := GetAbsoluteSpecPath (m_root m1) (kust_at m1 index) in
      run_walk (pathFn fuel fs index) (fs_walk fs kpath) m1
  end.

(** ** Source binder (traverse.go, setSource)

    The Go loop returns at its first iteration when the Kustomization has
    no sourceRef; since nothing else changes it, the test is hoisted. *)
Definition setSource (index : nat) (m : Model) : Model :=
  match Source (Spec (kust_at m index)) with
  | None => m
  | Some r =>
      fold_left (fun m s =>
          let v := source_at m s in
          if String.eqb (ref_Kind r) (s_Kind v) then
            let kName := GetSourceName r in
            let kNamespace := GetSourceNamespace (kust_at m index) r in
            let sName := s_GetName v in
            let sNamespace := s_GetNamespace v in
            if String.eqb kName sName && String.eqb kNamespace sNamespace then
              (* block duplication *)
              let has := existsb (fun c => String.eqb (GetName (kust_at m c)) kName
                                           && String.eqb (GetNamespace (kust_at m c)) kNamespace)
                                 (s_children v) in
              if has then m
              else let m1 := set_source m s (fun v => s_with_children v (s_children v ++ [index])) in
                   set_kust m1 index (fun k => with_source k (Some s))
            else m
          else m)
        (seq 0 (length (sources m))) m
  end.

(** ** Cluster tree builder (delegates.go) *)

Definition commonNamespaces : list string := ["flux-system"; "default"].

Definition drop (n : nat) (s : string) : string := substring n (String.length s - n) s.

(** The regular expression (?:[^/]*(clusters|hub))/([^/]+) as Go's
    regexp runs it: leftmost-first, i.e. the match a backtracking
    matcher finds.  [star_nonsep k s] is [^/]* followed by the
    continuation [k], trying the longest run first. *)
Fixpoint star_nonsep {A} (k : string -> option A) (s : string) : option A :=
  match s with
  | String c s' =>
      if Ascii.eqb c sep then k s
      else match star_nonsep k s' with
           | Some r => Some r
           | None => k s
           end
  | EmptyString => k s
  end.

(** ([^/]+) at the end of the pattern: the capture and the rest. *)
Definition grp2 (s : string) : option (string * string) :=
  match s with
  | String c s' =>
      if Ascii.eqb c sep then None
      else option_map (fun rest => (substring 0 (String.length s - String.length rest) s, rest))
             (star_nonsep (fun rest => Some rest) s')
  | EmptyString => None
  end.

(** "/" then ([^/]+), after group 1 captured [g]. *)
Definition after_marker (g s : string) : option (string * string * string) :=
  match s with
  | String c s' =>
      if Ascii.eqb c sep then option_map (fun '(n, rest) => (g, n, rest)) (grp2 s') else None
  | EmptyString => None
  end.

(** (clusters|hub), alternatives in order. *)
Definition grp1 (s : string) : option (string * string * string) :=
  match (if String.prefix "clusters" s then after_marker "clusters" (drop 8 s) else None) with
  | Some r => Some r
  | None => if String.prefix "hub" s then after_marker "hub" (drop 3 s) else None
  end.

Definition match_at (s : string) : option (string * string * string) := star_nonsep grp1 s.

(** FindAllStringSubmatch(s, -1), each match as (match[1], match[2]):
    successive non-overlapping leftmost matches. *)
Fixpoint findAll (fuel : nat) (s : string) : list (string * string) :=
  match fuel with
  | 0 => []
  | S f =>
      match s with
      | EmptyString => []
      | String _ s' =>
          match match_at s with
          | Some (g, n, rest) => (g, n) :: findAll f rest
          | None => findAll f s'
          end
      end
  end.

Definition FindAllStringSubmatch (s : string) : list (string * string) :=
  findAll (String.length s) s.

(** The candidate part of checkClusterPath: [None] when the path is
    ignored or matches nothing, else the cluster names and the path
    recorded for them. *)
Definition clusterCandidates (root_ path0 : string) : option (list string * string) :=
  let path := TrimRightSep path0 in
  if Contains path "/." || Contains path "bases/" then None
  else
    let testPath := TrimPrefix path (root_ ++ "/") in
    let '(names, path') :=
      fold_left (fun acc gm =>
          let '(names, p) := acc in
          let '(g, n) := gm in
          if existsb (String.eqb n) commonNamespaces
          then ((names ++ [g])%list, TrimSuffix p n)
          else ((names ++ [n])%list, p))
        (FindAllStringSubmatch testPath) ([], path) in
    match names with
    | [] => None
    | _ => Some (names, path')
    end.

(** cluster.Add (nil children do not occur before reparenting). *)
Fixpoint Add (c : cluster) (entries : list string) (path : string) : cluster :=
  match entries with
  | e0 :: ((e1 :: _) as rest) =>
      if String.eqb e0 (c_name c) then
        let fix go (l : list (option cluster)) : option (list (option cluster)) :=
          match l with
          | [] => None
          | Some ch :: l' =>
              if String.eqb (c_name ch) e1 then Some (Some (Add ch rest path) :: l')
              else option_map (cons (Some ch)) (go l')
          | None :: l' => option_map (cons None) (go l')
          end in
        match go (c_children c) with
        | Some ch' => mkCluster (c_name c) (c_filepath c) ch' (c_selected c)
        | None => mkCluster (c_name c) (c_filepath c)
                    (c_children c ++ [Some (mkCluster e1 path [] false)])%list (c_selected c)
        end
      else c
  | _ => c
  end.

(** checkClusterPath *)
Definition checkClusterPath (path : string) (m : Model) : Model :=
  match clusterCandidates (m_root m) path with
  | None => m
  | Some (names, path') =>
      let first := hd "" names in
      let cs := map (fun c => if String.eqb (c_name c) first then Add c names path' else c)
                    (clusters m) in
      let cs' := if existsb (fun c => String.eqb (c_name c) first) (clusters m) then cs
                 else (cs ++ [mkCluster first path' [] false])%list in
      mkModel (m_root m) (kustomizations m) (sources m) cs'
  end.

(** Stable sort (sort.SliceStable, slices.SortStableFunc) for a strict
    order [lt]: insertion keeps equal elements in input order. *)
Fixpoint insert_by {A} (lt : A -> A -> bool) (x : A) (l : list A) : list A :=
  match l with
  | [] => [x]
  | y :: l' => if lt y x then y :: insert_by lt x l' else x :: l
  end.

Fixpoint sort_by {A} (lt : A -> A -> bool) (l : list A) : list A :=
  match l with
  | [] => []
  | x :: l' => insert_by lt x (sort_by lt l')
  end.

Definition cluster_lt (a b : cluster) : bool := String.ltb (c_name a) (c_name b).

(** One (i, j) iteration of the inner loop of reparentClusters over the
    slots of m.clusters ([None] is a nil slot). *)
Definition reparent_step (fs : FS) (i j : nat) (slots : list (option cluster))
    : list (option cluster) :=
  if Nat.eqb j i then slots
  else
    match nth i slots None, nth j slots None with
    | Some ci, Some cj =>
        let fname := Join (c_filepath ci) (c_name cj) ++ ".yaml" in
        match Stat fs fname with
        | Some _ =>
            let c := mkCluster (c_name cj) (c_filepath cj)
                       (repeat None (length (c_children cj)) ++ c_children cj)%list false in
            let slots1 := upd slots i (fun _ => Some (mkCluster (c_name ci) (c_filepath ci)
                                                  (c_children ci ++ [Some c])%list (c_selected ci))) in
            upd slots1 j (fun _ => None)
        | None => slots
        end
    | _, _ => slots
    end.

Definition reparent_outer (fs : FS) (n : nat) (slots : list (option cluster))
    : list (option cluster) :=
  fold_left (fun slots i =>
      match nth i slots None with
      | None => slots
      | Some _ => fold_left (fun slots j => reparent_step fs i j slots) (seq 0 n) slots
      end)
    (seq 0 n) slots.

Fixpoint filter_some {A} (l : list (option A)) : list A :=
  match l with
  | [] => []
  | Some x :: l' => x :: filter_some l'
  | None :: l' => filter_some l'
  end.

(** reparentClusters on the root list *)
Definition reparentClusters (fs : FS) (cs : list cluster) : list cluster :=
  let slots := reparent_outer fs (length cs) (map Some cs) in
  sort_by cluster_lt (filter_some slots).

(** ** The crawl and the pipeline (traverse.go, walk) *)

(** rootFn *)
Definition rootFn (fs : FS) (ev : walkEvent) (m : Model) : step_result :=
  match ev with
  | WError p => Stop p m
  | WEntry d =>
      match Stat fs (de_path d) with
      | None => Stop (de_path d) (checkClusterPath (de_path d) m)
      | Some EDir => Continue (checkClusterPath (de_path d) m)
      | Some (EFile _) =>
          if existsb (String.eqb (ToLower (Ext (de_name d)))) [".yaml"; ".yml"] then
            let '(k, s) := parseYamlFromFile fs (m_root m) (de_path d) in
            Continue (mkModel (m_root m) (kustomizations m ++ k)%list (sources m ++ s)%list
                              (clusters m))
          else Continue m
      end
  end.

(** The commands walk returns. *)
Inductive walkOutcome :=
  | ModelError (err : string) (m : Model)  (* components.ModelErrorCmd: the walk failed *)
  | ModelFatal (m : Model)                 (* components.ModelFatalCmd: nothing found *)
  | Ready (m : Model) (errs : list string) (ready : bool)  (* errors, then ModelReadyCmd *)
  | WalkOutOfFuel.

(** The loop over m.kustomizations: reset children, follow, bind source. *)
Fixpoint link_loop (fuel : nat) (fs : FS) (is : list nat) (m : Model) (errs : list string)
    (ready : bool) : option (Model * list string * bool) :=
  match is with
  | [] => Some (m, errs, ready)
  | i :: is' =>
      let m0 := set_kust m i (fun k => with_children k []) in
      match followFluxKustomization fuel fs i m0 with
      | Continue m1 => link_loop fuel fs is' (setSource i m1) errs ready
      | Stop e m1 => link_loop fuel fs is' (setSource i m1) (errs ++ [e])%list false
      | OutOfFuel => None
      end
  end.

Definition linkAll (fuel : nat) (fs : FS) (m : Model) : option (Model * list string * bool) :=
  link_loop fuel fs (seq 0 (length (kustomizations m))) m [] true.

(** The comparison of the final slices.SortStableFunc. *)
Definition kust_lt (a b : shortApi) : bool :=
  if Nat.eqb (length (children a)) (length (children b))
  then String.ltb (GetName a) (GetName b)
  else Nat.ltb (length (children b)) (length (children a)).

(** walk; [fuel] bounds the recursion of followKustomization. *)
Definition walk (fuel : nat) (fs : FS) (m : Model) : walkOutcome :=
  match run_walk (rootFn fs) (fs_walk fs (m_root m)) m with
  | Stop e m' => ModelError e m'
  | OutOfFuel => WalkOutOfFuel
  | Continue m' =>
      match kustomizations m' with
      | [] => ModelFatal m'
      | _ :: _ =>
          match linkAll fuel fs m' with
          | None => WalkOutOfFuel
          | Some (m2, errs, ready) =>
              Ready (mkModel (m_root m2) (sort_by kust_lt (kustomizations m2)) (sources m2)
                             (reparentClusters fs (clusters m2)))
                    errs ready
          end
      end
  end.

(** ** Concrete repositories *)

Fixpoint lookup_entry (p : string) (l : list (string * entry)) : option entry :=
  match l with
  | [] => None
  | (q, e) :: l' => if String.eqb p q then Some e else lookup_entry p l'
  end.

Fixpoint lookup_walk (p : string) (l : list (string * list walkEvent)) : list walkEvent :=
  match l with
  | [] => [WError p]
  | (q, e) :: l' => if String.eqb p q then e else lookup_walk p l'
  end.

(** A finite tree: its entries, and the walks of its directories. *)
Definition fs_of (es : list (string * entry)) (ws : list (string * list walkEvent)) : FS :=
  mkFS (fun p => lookup_entry p es) (fun p => lookup_walk p ws).

Definition file (docs : yfile) : entry := EFile (Some docs).

Definition dir_ev (p : string) : walkEvent := WEntry (mkDirent p (FilePath.Base p) false).
Definition file_ev (p : string) : walkEvent := WEntry (mkDirent p (FilePath.Base p) true).

Definition no_spec : shortSpec := mkSpec None None None.

Definition layering (res patches : list string) : ydoc :=
  mkDoc "kustomize.config.k8s.io/v1beta1" "Kustomization" (mkMeta "" None) no_spec res patches.

Definition flux_kust (name : string) (ns : option string) (sp : shortSpec) : ydoc :=
  mkDoc "kustomize.toolkit.fluxcd.io/v1" "Kustomization" (mkMeta name ns) sp [] [].

Definition git_repo (name : string) (ns : option string) : ydoc :=
  mkDoc "source.toolkit.fluxcd.io/v1" "GitRepository" (mkMeta name ns) no_spec [] [].

Definition empty_model (r : string) : Model := mkModel r [] [] [].

(** flux.New (manager's part): the root loses its trailing separators and
    the Model starts with no Manifests, Sources or clusters; the zone id,
    walker configuration, tab and list delegates are not modelled. *)
Definition New (root : string) : Model := empty_model (TrimRightSep root).

(** The end-to-end repository of the specification: apps/base with a
    layering file listing deploy.yaml (Kustomization "app"), an overlay
    whose layering file lists ../base, and clusters/prod/apps.yaml
    (Kustomization "apps" with path apps/overlay). *)
Definition e2e_entries : list (string * entry) :=
  [("/r", EDir); ("/r/apps", EDir); ("/r/apps/base", EDir); ("/r/apps/overlay", EDir);
   ("/r/clusters", EDir); ("/r/clusters/prod", EDir);
   ("/r/apps/base/kustomization.yaml", file [Some (layering ["deploy.yaml"] [])]);
   ("/r/apps/base/deploy.yaml",
      file [Some (flux_kust "app" (Some "default") no_spec)]);
   ("/r/apps/overlay/kustomization.yaml", file [Some (layering ["../base"] [])]);
   ("/r/clusters/prod/apps.yaml",
      file [Some (flux_kust "apps" None (mkSpec (Some "apps/overlay") None
                                           (Some [("ENV", "prod")])))])].

Definition e2e_fs : FS :=
  fs_of e2e_entries
    [("/r", [dir_ev "/r"; dir_ev "/r/apps"; dir_ev "/r/apps/base";
             file_ev "/r/apps/base/deploy.yaml"; file_ev "/r/apps/base/kustomization.yaml";
             dir_ev "/r/apps/overlay"; file_ev "/r/apps/overlay/kustomization.yaml";
             dir_ev "/r/clusters"; dir_ev "/r/clusters/prod";
             file_ev "/r/clusters/prod/apps.yaml"]);
     ("/r/apps/overlay", [dir_ev "/r/apps/overlay";
                          file_ev "/r/apps/overlay/kustomization.yaml"])].

(** ** Readings of the specification compared with the code *)

Fixpoint lookup_str (k : string) (m : list (string * string)) : option string :=
  match m with
  | [] => None
  | (k', v) :: m' => if String.eqb k k' then Some v else lookup_str k m'
  end.

(** The name of a token: the text up to the first "}", and what follows. *)
Fixpoint read_name (s : string) : option (string * string) :=
  match s with
  | EmptyString => None
  | String c s' =>
      if Ascii.eqb c "}" then Some ("", s')
      else option_map (fun '(n, r) => (String c n, r)) (read_name s')
  end.

Fixpoint substitute_fuel (fuel : nat) (m : list (string * string)) (s : string) : string :=
  match fuel with
  | 0 => s
  | S f =>
      match s with
      | EmptyString => EmptyString
      | String c s' =>
          if String.prefix "${" s then
            match read_name (drop 2 s) with
            | Some (n, rest) =>
                match lookup_str n m with
                | Some v => v ++ substitute_fuel f m rest
                | None => String c (substitute_fuel f m s')
                end
            | None => String c (substitute_fuel f m s')
            end
          else String c (substitute_fuel f m s')
      end
  end.

(** The substitution engine as the specification words it (§4.5): one
    left-to-right pass replacing each ${name} of a mapped name by its
    value, without looking at the inserted text again. *)
Definition substitute_spec (s : string) (m : list (string * string)) : string :=
  substitute_fuel (String.length s) m s.

(** The children relation over Manifests. *)
Definition child_edge (m : Model) (a b : nat) : Prop := In b (children (kust_at m a)).

(** Two Kustomizations of the flux-system namespace referencing the
    GitRepository flux-system; the first is itself named flux-system,
    as in the layout the flux bootstrap creates. *)
Definition c3_model : Model :=
  mkModel "/r"
    [kust_of_doc "/r" "/r/clusters/prod/flux-system/gotk-sync.yaml"
       (flux_kust "flux-system" (Some "flux-system")
          (mkSpec (Some "./clusters/prod") (Some (mkRef "GitRepository" "flux-system" None)) None));
     kust_of_doc "/r" "/r/clusters/prod/apps.yaml"
       (flux_kust "apps" (Some "flux-system")
          (mkSpec (Some "./apps") (Some (mkRef "GitRepository" "flux-system" None)) None))]
    [source_of_doc "/r/clusters/prod/flux-system/gotk-sync.yaml"
       (git_repo "flux-system" (Some "flux-system"))]
    [].

(** A layering file next to a Flux Kustomization that fails to decode. *)
Definition c2_fs : FS :=
  fs_of [("/r", EDir); ("/r/apps", EDir);
         ("/r/apps/kustomization.yaml", file [None]);
         ("/r/apps/app.yaml", file [Some (flux_kust "app" None no_spec)])]
        [("/r", [dir_ev "/r"; dir_ev "/r/apps"; file_ev "/r/apps/app.yaml";
                 file_ev "/r/apps/kustomization.yaml"])].

(** A repository with one Kustomization and a dangling symbolic link. *)
Definition c9_fs : FS :=
  fs_of [("/r", EDir); ("/r/a.yaml", file [Some (flux_kust "a" None no_spec)])]
        [("/r", [dir_ev "/r"; file_ev "/r/a.yaml";
                 WEntry (mkDirent "/r/b.yaml" "b.yaml" false)])].

(** No "}" in a string. *)
Fixpoint nobrace (s : string) : bool :=
  match s with
  | EmptyString => true
  | String c s' => negb (Ascii.eqb c "}") && nobrace s'
  end.

(** Name, children and parent of every Manifest of a finished walk. *)
Definition link_view (o : walkOutcome) : option (list (string * list nat * option nat)) :=
  match o with
  | Ready m _ _ => Some (map (fun k => (GetName k, children k, parent k)) (kustomizations m))
  | _ => None
  end.

(** The source bindings of a model: the children of every Source and the
    source of every Manifest. *)
Definition source_view (m : Model) : list (list nat) * list (option nat) :=
  (map s_children (sources m), map source (kustomizations m)).

(** [c3_model] with its GitRepository declared twice. *)
Definition c3_model_twice : Model :=
  mkModel (m_root c3_model) (kustomizations c3_model)
          (sources c3_model ++ sources c3_model) (clusters c3_model).

(** No separator in a string. *)
Fixpoint nosep (s : string) : bool :=
  match s with
  | EmptyString => true
  | String c s' => negb (Ascii.eqb c sep) && nosep s'
  end.

(** A path element Clean keeps as it is. *)
Definition plain_elem (e : string) : bool :=
  nosep e && negb (String.eqb e "") && negb (String.eqb e ".") && negb (String.eqb e "..").

(** The paths followKustomization is called on during one call, in
    order, the call itself first: its control flow with the bindings left
    out (they do not decide which paths are followed, which depends on the
    model only through its root). *)
Fixpoint res_calls (fs : FS) (root_ path : string) (rec : string -> list string)
    (rs : list string) : list string * bool :=
  match rs with
  | [] => ([], false)
  | r :: rs' =>
      let rp := Abs root_ (Join path r) in
      match Stat fs rp with
      | Some EDir => (rec rp, true)
      | _ => res_calls fs root_ path rec rs'
      end
  end.

Fixpoint docs_calls (fs : FS) (root_ path : string) (rec : string -> list string)
    (ds : yfile) : list string :=
  match ds with
  | Some d :: ds' =>
      let '(cs, stop) := res_calls fs root_ path rec (y_resources d) in
      if stop then cs else (cs ++ docs_calls fs root_ path rec ds')%list
  | _ => []
  end.

Fixpoint followKustomization_calls (fuel : nat) (fs : FS) (root_ path : string) : list string :=
  match fuel with
  | 0 => [path]
  | S f =>
      path :: match ReadFile fs (Clean path) with
              | None => []
              | Some docs => docs_calls fs root_ path (followKustomization_calls f fs root_) docs
              end
  end.

(** Two overlays whose layering files both list the directory apps/shared,
    under the build path apps of one Flux Kustomization. *)
Definition c8_fs : FS :=
  fs_of [("/r", EDir); ("/r/apps", EDir); ("/r/apps/a", EDir); ("/r/apps/b", EDir);
         ("/r/apps/shared", EDir);
         ("/r/apps/a/kustomization.yaml", file [Some (layering ["../../shared"] [])]);
         ("/r/apps/b/kustomization.yaml", file [Some (layering ["../../shared"] [])])]
        [("/r/apps", [dir_ev "/r/apps"; dir_ev "/r/apps/a";
                      file_ev "/r/apps/a/kustomization.yaml"; dir_ev "/r/apps/b";
                      file_ev "/r/apps/b/kustomization.yaml"; dir_ev "/r/apps/shared"])].

(** The stack Clean keeps: plain elements on top of a run of "..",
    and no ".." at all for a rooted path. *)
Definition clean_stack (rooted : bool) (stk : list string) : Prop :=
  exists ns ds : list string, stk = (ns ++ ds)%list /\ Forall (fun e => plain_elem e = true) ns
    /\ Forall (fun e => e = "..") ds /\ (rooted = true -> ds = []).

(** A [rec] that leaves the model unchanged on every cleaned directory. *)
Definition dir_noop (fs : FS) (R : string) (rec : string -> Model -> option Model) : Prop :=
  forall p m', m_root m' = R -> Stat fs p = Some EDir -> Clean p = p -> rec p m' = Some m'.

Definition keeps_root (r : step_result) (m : Model) : Prop :=
  match r with
  | Continue m' | Stop _ m' => m_root m' = m_root m
  | OutOfFuel => True
  end.

(** The layering file next to a Manifest: kustomization.yaml in the
    Manifest's directory if it exists, else kustomization.yml. *)
Definition sibling_layering_file (fs : FS) (dir : string) : option string :=
  match Stat fs (Join dir "kustomization.yaml") with
  | Some _ => Some (Join dir "kustomization.yaml")
  | None =>
      match Stat fs (Join dir "kustomization.yml") with
      | Some _ => Some (Join dir "kustomization.yml")
      | None => None
      end
  end.

(** The classification of a Manifest with file [path] and previous
    classification [initial], as the amended specification states it. *)
Definition spec_ftype (fs : FS) (path : string) (initial : FluxFileType.t) : FluxFileType.t :=
  let own := FilePath.Base path in
  match sibling_layering_file fs (Dir path) with
  | None => FluxFileType.Complete
  | Some lf =>
      match ReadFile fs lf with
      | None => FluxFileType.Complete
      | Some docs =>
          match Unmarshal docs with
          | None => FluxFileType.Complete
          | Some k =>
              if existsb (String.eqb own) (Resources k) then FluxFileType.Complete
              else if existsb (String.eqb own) (Patches k) then FluxFileType.Patch
              else initial
          end
      end
  end.

(** The collection phase of walk on its own. *)
Definition crawl (fs : FS) (r : string) : Model :=
  match run_walk (rootFn fs) (fs_walk fs r) (empty_model r) with
  | Continue m | Stop _ m => m
  | OutOfFuel => empty_model r
  end.

(** Name and classification of every Manifest of a finished walk. *)
Definition ftype_view (o : walkOutcome) : option (list (string * FluxFileType.t)) :=
  match o with
  | Ready m _ _ => Some (map (fun k => (GetName k, ftype k)) (kustomizations m))
  | _ => None
  end.

(** [m'] differs from [m] at most in fields other than the root, the
    number of Manifests and their file paths and classifications. *)
Definition kframe (m m' : Model) : Prop :=
  m_root m' = m_root m /\ length (kustomizations m') = length (kustomizations m)
  /\ forall i, ftype (kust_at m' i) = ftype (kust_at m i)
               /\ filepath (kust_at m' i) = filepath (kust_at m i).

Definition step_rel (R : Model -> Model -> Prop) (r : step_result) (m : Model) : Prop :=
  match r with
  | Continue m' | Stop _ m' => R m m'
  | OutOfFuel => True
  end.

(** What one followFluxKustomization step does to the Manifests: the root,
    their number and file paths are kept, only Manifest [index] is
    reclassified, by the amended specification's rule. *)
Definition classified (fs : FS) (index : nat) (m m' : Model) : Prop :=
  m_root m' = m_root m /\ length (kustomizations m') = length (kustomizations m)
  /\ (forall i, filepath (kust_at m' i) = filepath (kust_at m i))
  /\ (forall i, i <> index -> ftype (kust_at m' i) = ftype (kust_at m i))
  /\ ftype (kust_at m' index)
     = spec_ftype fs (kust_path (m_root m) (filepath (kust_at m index))) (ftype (kust_at m index)).

(** Slot lists during reparentClusters: [s'] keeps the length of [s],
    and every live slot of [s'] was live in [s] with the same name and
    path (a nil slot never comes back). *)
Definition same_shape (s s' : list (option cluster)) : Prop :=
  length s' = length s /\
  forall x c', nth x s' None = Some c' ->
    exists c, nth x s None = Some c /\ c_name c' = c_name c /\ c_filepath c' = c_filepath c.

(** The os.Stat check of reparentClusters fails for the pair (ci, cj). *)
Definition no_absorb (fs : FS) (ci cj : cluster) : Prop :=
  Stat fs (Join (c_filepath ci) (c_name cj) ++ ".yaml") = None.

(** The (clusters|hub) group a path segment ends in, if any. *)
Fixpoint marker_of (seg : string) : option string :=
  match seg with
  | EmptyString => None
  | String _ seg' =>
      if String.eqb seg "clusters" then Some "clusters"
      else if String.eqb seg "hub" then Some "hub"
      else marker_of seg'
  end.

(** The (match[1], match[2]) pairs read off the path segments: a segment
    ending in clusters or hub, followed by a non-empty segment n, gives
    (its marker, n) and the scan resumes after n. *)
Fixpoint seg_candidates (segs : list string) : list (string * string) :=
  match segs with
  | s :: ((n :: rest) as tl) =>
      match marker_of s with
      | Some g => if String.eqb n "" then seg_candidates tl else (g, n) :: seg_candidates rest
      | None => seg_candidates tl
      end
  | _ => []
  end.

(** checkClusterPath's candidates with the regular expression replaced
    by the segment scan. *)
Definition clusterCandidates_segments (root_ path0 : string) : option (list string * string) :=
  let path := TrimRightSep path0 in
  if Contains path "/." || Contains path "bases/" then None
  else
    let testPath := TrimPrefix path (root_ ++ "/") in
    let '(names, path') :=
      fold_left (fun acc gm =>
          let '(names, p) := acc in
          let '(g, n) := gm in
          if existsb (String.eqb n) commonNamespaces
          then ((names ++ [g])%list, TrimSuffix p n)
          else ((names ++ [n])%list, p))
        (seg_candidates (Split testPath)) ([], path) in
    match names with
    | [] => None
    | _ => Some (names, path')
    end.

(** What may follow a path segment: nothing, or a separator. *)
Definition seg_end (rest : string) : Prop :=
  match rest with
  | EmptyString => True
  | String c _ => c = sep
  end.

(** ** yq filters (pkg/yaml Filter; pkg/kustomize FilterKustomization and
    FilterGitRepository; traverse.go filterKustomization) *)

(** The double quote character. *)
Definition dq : string := String "034"%char EmptyString.

(** strings.Join *)
Fixpoint StringsJoin (l : list string) (s : string) : string :=
  match l with
  | [] => ""
  | [x] => x
  | x :: l' => x ++ s ++ StringsJoin l' s
  end.

(** The ([]byte, error) a filter returns, or a run-time panic. *)
Inductive filterResult := FOut (out : string) (err : option string) | FPanic.

(** yqlib's StringEvaluator.Evaluate(filter, input): the output and the
    error it returns. *)
Definition evaluator : Type := string -> string -> string * option string.

(** The loop over opts: [pair] is the pending "key ==", [options] the
    pairs built so far; [None] is the panic of v[0] on an empty key. *)
Fixpoint filter_pairs (i : nat) (pair : string) (options : list string) (opts : list string)
    : option (list string) :=
  match opts with
  | [] => Some options
  | v :: opts' =>
      if Nat.even i then
        match v with
        | EmptyString => None
        | String c _ =>
            let v' := if Ascii.eqb c "." then v else "." ++ v in
            filter_pairs (S i) (v' ++ " ==") options opts'
        end
      else
        let pair' := pair ++ " " ++ dq ++ v ++ dq in
        filter_pairs (S i) pair' (options ++ [pair']) opts'
  end.

Module Yaml.

(** yaml.Filter *)
Definition Filter (Evaluate : evaluator) (input : string) (opts : list string) : filterResult :=
  if negb (Nat.eqb (length opts mod 2) 0) then FOut "" (Some "options must be pairs")
  else
    match filter_pairs 0 "" [] opts with
    | None => FPanic
    | Some options =>
        let filter := "select(" ++ StringsJoin options " and " ++ ")" in
        let '(output, err) := Evaluate filter input in
        FOut output err
    end.

End Yaml.

(** kustomize.FilterKustomization *)
Definition FilterKustomization (Evaluate : evaluator) (input : string) (opts : list string)
    : filterResult :=
  Yaml.Filter Evaluate input (".kind" :: "Kustomization" :: opts).

(** kustomize.FilterGitRepository *)
Definition FilterGitRepository (Evaluate : evaluator) (input : string) (opts : list string)
    : filterResult :=
  Yaml.Filter Evaluate input (".kind" :: "GitRepository" :: opts).

(** filterKustomization (traverse.go), the package's own copy. *)
Definition filterKustomization (Evaluate : evaluator) (input : string) (opts : list string)
    : filterResult :=
  if negb (Nat.eqb (length opts mod 2) 0) then FOut "" (Some "options must be pairs")
  else
    match filter_pairs 0 "" [".kind == " ++ dq ++ "Kustomization" ++ dq] opts with
    | None => FPanic
    | Some options =>
        let filter := "select(" ++ StringsJoin options " and " ++ ")" in
        let '(output, err) := Evaluate filter input in
        FOut output err
    end.

(** ** Content of a Manifest (api.go GetContent, GetPath; types.go readFile) *)

(** os.ReadFile, or kustomize.ExecKustomize, as raw bytes: the content,
    or the text of the error. *)
Inductive readResult := ROk (content : string) | RErr (msg : string).

(** readFile (types.go); [None] is a panic. *)
Definition readFile (read : string -> readResult) (Evaluate : evaluator) (filename : string)
    (filterOpts : list string) : option string :=
  match read filename with
  | RErr e => Some e
  | ROk content =>
      match filterOpts with
      | [] => Some content
      | _ :: _ =>
          match FilterKustomization Evaluate content filterOpts with
          | FPanic => None
          | FOut _ (Some e) => Some e
          | FOut nc None => Some nc
          end
      end
  end.

(** shortApi.GetPath, with the working directory [cwd]. *)
Definition GetPath (cwd : string) (k : shortApi) : string := Abs cwd (Join (root k) (filepath k)).

(** shortApi.GetContent; [None] is a panic. *)
Definition GetContent (cwd : string) (read ExecKustomize : string -> readResult)
    (Evaluate : evaluator) (k : shortApi) : option string :=
  let options := (["metadata.name"; GetName k]
                  ++ (if String.eqb (GetNamespace k) "" then []
                      else ["metadata.namespace"; GetNamespace k]))%list in
  match ftype k with
  | FluxFileType.Complete => readFile read Evaluate (GetPath cwd k) options
  | FluxFileType.Base => Some ""
  | FluxFileType.Patch =>
      match ExecKustomize (Dir (kustomize k)) with
      | RErr e => Some e
      | ROk content =>
          match FilterKustomization Evaluate content options with
          | FPanic => None
          | FOut _ (Some e) => Some e
          | FOut out None => Some out
          end
      end
  end.

(** The key of a filter pair as Filter writes it: a leading "." added
    when missing. *)
Definition dot_key (k : string) : string :=
  match k with
  | String "."%char _ => k
  | _ => "." ++ k
  end.

(** The options read two by two. *)
Fixpoint opt_pairs (opts : list string) : list (string * string) :=
  match opts with
  | k :: v :: rest => (k, v) :: opt_pairs rest
  | _ => []
  end.

Definition pair_expr (kv : string * string) : string :=
  dot_key (fst kv) ++ " == " ++ dq ++ snd kv ++ dq.

(** The selection of a Manifest by kind, name and, when not empty,
    namespace. *)
Definition content_selector (name ns : string) : string :=
  "select(.kind == " ++ dq ++ "Kustomization" ++ dq ++ " and .metadata.name == " ++ dq
  ++ name ++ dq
  ++ (if String.eqb ns "" then "" else " and .metadata.namespace == " ++ dq ++ ns ++ dq)
  ++ ")".

(** The text an evaluation gives back: the error's, else the output. *)
Definition eval_text (Evaluate : evaluator) (filter input : string) : string :=
  let '(out, err) := Evaluate filter input in
  match err with Some e => e | None => out end.

(** ** Cluster sizes (delegates.go, cluster.Len) *)

(** cluster.Len; [None] is the nil pointer dereference of a nil child. *)
Fixpoint Len (c : cluster) : option nat :=
  let fix go (l : list (option cluster)) (acc : nat) : option nat :=
    match l with
    | [] => Some acc
    | None :: _ => None
    | Some ch :: l' =>
        match Len ch with
        | Some n => go l' (acc + n)
        | None => None
        end
    end in
  go (c_children c) (length (c_children c)).

(** The loop of Len over a list of children. *)
Definition Len_children (l : list (option cluster)) (acc : nat) : option nat :=
  (fix go (l : list (option cluster)) (acc : nat) : option nat :=
    match l with
    | [] => Some acc
    | None :: _ => None
    | Some ch :: l' =>
        match Len ch with
        | Some n => go l' (acc + n)
        | None => None
        end
    end) l acc.

(** An evaluator that returns the filter it is given. *)
Definition echo_eval : evaluator := fun filter _ => (filter, None).

(** Two root clusters: mgmt, and a with the child b; mgmt's directory
    holds a.yaml. *)
Definition mgmt_cluster : cluster := mkCluster "mgmt" "/r/clusters/mgmt" [] false.
Definition a_cluster : cluster :=
  mkCluster "a" "/r/clusters/a" [Some (mkCluster "b" "/r/clusters/a/b" [] false)] false.
Definition reparent_fs : FS := fs_of [("/r/clusters/mgmt/a.yaml", file [])] [].

(** The Manifest apps of clusters/prod/apps.yaml of the end-to-end
    repository, as parseYaml records it under the root /r. *)
Definition prod_apps : shortApi :=
  mkApi "kustomize.toolkit.fluxcd.io/v1" "Kustomization" (mkMeta "apps" None)
        (mkSpec (Some "apps/overlay") None (Some [("ENV", "prod")])) [] "clusters/prod/apps.yaml"
        FluxFileType.Base "" None None "/r".

(** Two clusters, staging walked before prod, each with one Kustomization. *)
Definition two_clusters_fs : FS :=
  fs_of [("/r", EDir); ("/r/clusters", EDir); ("/r/clusters/staging", EDir);
         ("/r/clusters/prod", EDir);
         ("/r/clusters/staging/apps.yaml", file [Some (flux_kust "apps-staging" None no_spec)]);
         ("/r/clusters/prod/apps.yaml", file [Some (flux_kust "apps-prod" None no_spec)])]
        [("/r", [dir_ev "/r"; dir_ev "/r/clusters"; dir_ev "/r/clusters/staging";
                 file_ev "/r/clusters/staging/apps.yaml"; dir_ev "/r/clusters/prod";
                 file_ev "/r/clusters/prod/apps.yaml"])].

(** ** Invariants of the walk *)

(** A Manifest nothing is linked to: a relative file path, no children,
    no parent. *)
Definition unbound (k : shortApi) : Prop :=
  IsAbs (filepath k) = false /\ children k = [] /\ parent k = None.

Definition unbound_model (r : string) (m : Model) : Prop :=
  m_root m = r /\ Forall unbound (kustomizations m).

(** [P] holds of the model a walk function call leaves. *)
Definition step_holds (P : Model -> Prop) (res : step_result) : Prop :=
  match res with
  | Continue m | Stop _ m => P m
  | OutOfFuel => True
  end.

(** A path fastwalk reports under the root [r]: [r] itself, or a path
    that is relative once "r/" is trimmed off it. *)
Definition rel_under (r p : string) : bool :=
  String.eqb p r || negb (IsAbs (TrimPrefix p (r ++ "/"))).

Definition root_event (r : string) (ev : walkEvent) : Prop :=
  match ev with
  | WEntry d => rel_under r (de_path d) = true
  | WError _ => True
  end.

Definition abs_event (ev : walkEvent) : Prop :=
  match ev with
  | WEntry d => IsAbs (de_path d) = true
  | WError _ => True
  end.

(** ** parseYaml at the level of yaml.v3's Decoder (traverse.go, parseYaml)

    The pipeline above reads a file as the list of its decoded documents,
    each in a fresh record.  The loop of parseYaml in fact decodes every
    document into the same variable [var doc shortApi]: a key a document
    lacks keeps the value the previous document left, and the pointer
    fields (Metadata.Namespace, Spec.Path, Spec.Source, Spec.PostBuild and
    the substitute map) of the records already appended share their
    targets with [doc], so a later decode writes through them.  This module
    models that decoder: documents as YAML node trees, [doc] as a record
    whose pointers are addresses into a heap, and yaml.v3's rules for a
    mapping decoded into a struct, a pointer or a map.  The uuid ids are
    left out. *)
Module GoYaml.

(** A node of a parsed document; [YScalar] is a scalar that does not
    resolve to null (null, ~ and an empty plain scalar are [YNull]);
    mapping keys are scalars. *)
Inductive ynode :=
  | YNull
  | YScalar (s : string)
  | YSeq (items : list ynode)
  | YMap (entries : list (string * ynode)).

(** What the parser hands Decode: a document, or a syntax error (Decode
    then returns the error without touching [doc]).  The end of the list
    is io.EOF. *)
Inductive ydocument :=
  | YDoc (n : ynode)
  | YSyntaxError.

(** shortSource under a *shortSource: its decoded fields (the inline
    shortMeta and Kind); the unexported ones stay zero. *)
Record gsrc := mkGSrc { srName : string; srNamespace : option nat; srKind : string }.

Inductive cell :=
  | CStr (s : string)                       (* the target of a *string *)
  | CSource (src : gsrc)                    (* the target of Spec.Source *)
  | CPostBuild (substitute : option nat)    (* the target of Spec.PostBuild *)
  | CMap (entries : list (string * string)). (* a map[string]string *)

Definition heap := list cell.

Record gmeta := mkGMeta { gName : string; gNamespace : option nat }.
Record gspec := mkGSpec { gPath : option nat; gSource : option nat; gPostBuild : option nat }.

(** The variable doc: the decoded fields of shortApi and the unexported
    ones parseYaml sets. *)
Record gdoc := mkGDoc {
  gApiVersion : string;
  gKind : string;
  gMetadata : gmeta;
  gSpec : gspec;
  groot : string;
  gfilepath : string;
  gftype : FluxFileType.t }.

(** The shortSource parseYaml appends to its sources. *)
Record gsource := mkGSource {
  gsName : string; gsNamespace : option nat; gsKind : string; gsFilepath : string }.

Definition zero_doc : gdoc :=
  mkGDoc "" "" (mkGMeta "" None) (mkGSpec None None None) "" "" FluxFileType.Base.

(** A decode step returns the new value, the heap and whether a type
    error was recorded (decoding goes on after one). *)
Definition dresult (S : Type) : Type := S * heap * bool.

(** d.mapping first reports every repeated key of a mapping as a type
    error and then decodes none of it. *)
Fixpoint dup_keys (es : list (string * ynode)) : bool :=
  match es with
  | [] => false
  | (k, _) :: es' => existsb (fun e => String.eqb (fst e) k) es' || dup_keys es'
  end.

(** A node into a string: a scalar sets its text, null leaves the string
    as it is, a sequence or mapping is a type error. *)
Definition dec_string (n : ynode) (cur : string) : string * bool :=
  match n with
  | YNull => (cur, false)
  | YScalar s => (s, false)
  | YSeq _ | YMap _ => (cur, true)
  end.

(** d.prepare: a nil pointer gets a fresh zero target, a non-nil one is
    followed. *)
Definition deref (cur : option nat) (zero : cell) (h : heap) : nat * heap :=
  match cur with
  | Some p => (p, h)
  | None => (length h, (h ++ [zero])%list)
  end.

Definition get_str (h : heap) (p : nat) : string :=
  match nth p h (CStr "") with CStr s => s | _ => "" end.
Definition get_src (h : heap) (p : nat) : gsrc :=
  match nth p h (CStr "") with CSource s => s | _ => mkGSrc "" None "" end.
Definition get_pb (h : heap) (p : nat) : option nat :=
  match nth p h (CStr "") with CPostBuild m => m | _ => None end.
Definition get_map (h : heap) (p : nat) : list (string * string) :=
  match nth p h (CStr "") with CMap es => es | _ => [] end.

Definition hset (h : heap) (p : nat) (c : cell) : heap := upd h p (fun _ => c).

(** A node into a *string: null sets the pointer to nil; anything else
    is decoded into the (possibly shared) target. *)
Definition dec_strptr (n : ynode) (cur : option nat) (h : heap) : dresult (option nat) :=
  match n with
  | YNull => (None, h, false)
  | _ => let '(p, h1) := deref cur (CStr "") h in
         let '(s, e) := dec_string n (get_str h1 p) in
         (Some p, hset h1 p (CStr s), e)
  end.

(** The keys of a mapping decoded into a struct, in order; [f] decodes
    one key (unknown keys are skipped). *)
Fixpoint dec_fields {S} (f : string -> ynode -> S -> heap -> dresult S)
    (es : list (string * ynode)) (c : S) (h : heap) (e : bool) : dresult S :=
  match es with
  | [] => (c, h, e)
  | (k, v) :: es' => let '(c1, h1, e1) := f k v c h in dec_fields f es' c1 h1 (e || e1)
  end.

(** A node into a struct: null leaves it, a scalar or sequence is a type
    error, a mapping is decoded key by key. *)
Definition dec_struct {S} (f : string -> ynode -> S -> heap -> dresult S)
    (n : ynode) (c : S) (h : heap) : dresult S :=
  match n with
  | YNull => (c, h, false)
  | YScalar _ | YSeq _ => (c, h, true)
  | YMap es => if dup_keys es then (c, h, true) else dec_fields f es c h false
  end.

Fixpoint map_set (k v : string) (es : list (string * string)) : list (string * string) :=
  match es with
  | [] => [(k, v)]
  | (k', v') :: es' => if String.eqb k k' then (k, v) :: es' else (k', v') :: map_set k v es'
  end.

(** The entries of a mapping into a map[string]string: a scalar sets
    the key; null sets "" when the map is new or lacks the key; a
    sequence or mapping is a type error and sets nothing. *)
Fixpoint map_entries (isnew : bool) (es : list (string * ynode)) (m : list (string * string))
    (e : bool) : list (string * string) * bool :=
  match es with
  | [] => (m, e)
  | (k, YScalar s) :: es' => map_entries isnew es' (map_set k s m) e
  | (k, YNull) :: es' =>
      if isnew || negb (existsb (fun kv => String.eqb (fst kv) k) m)
      then map_entries isnew es' (map_set k "" m) e
      else map_entries isnew es' m e
  | (k, _) :: es' => map_entries isnew es' m true
  end.

(** A node into a map[string]string field: null sets it to nil; a
    mapping makes the map when it is nil and adds to it otherwise. *)
Definition dec_map (n : ynode) (cur : option nat) (h : heap) : dresult (option nat) :=
  match n with
  | YNull => (None, h, false)
  | YScalar _ | YSeq _ => (cur, h, true)
  | YMap es =>
      if dup_keys es then (cur, h, true)
      else let isnew := match cur with None => true | Some _ => false end in
           let '(p, h1) := deref cur (CMap []) h in
           let '(m, e) := map_entries isnew es (get_map h1 p) false in
           (Some p, hset h1 p (CMap m), e)
  end.

Definition src_field (k : string) (v : ynode) (s : gsrc) (h : heap) : dresult gsrc :=
  if String.eqb k "name" then
    let '(x, e) := dec_string v (srName s) in (mkGSrc x (srNamespace s) (srKind s), h, e)
  else if String.eqb k "namespace" then
    let '(p, h1, e) := dec_strptr v (srNamespace s) h in (mkGSrc (srName s) p (srKind s), h1, e)
  else if String.eqb k "kind" then
    let '(x, e) := dec_string v (srKind s) in (mkGSrc (srName s) (srNamespace s) x, h, e)
  else (s, h, false).

Definition pb_field (k : string) (v : ynode) (pb : option nat) (h : heap) : dresult (option nat) :=
  if String.eqb k "substitute" then dec_map v pb h else (pb, h, false).

(** A node into Spec.Source (a *shortSource). *)
Definition dec_srcptr (n : ynode) (cur : option nat) (h : heap) : dresult (option nat) :=
  match n with
  | YNull => (None, h, false)
  | _ => let '(p, h1) := deref cur (CSource (mkGSrc "" None "")) h in
         let '(s, h2, e) := dec_struct src_field n (get_src h1 p) h1 in
         (Some p, hset h2 p (CSource s), e)
  end.

(** A node into Spec.PostBuild (a *postBuild). *)
Definition dec_pbptr (n : ynode) (cur : option nat) (h : heap) : dresult (option nat) :=
  match n with
  | YNull => (None, h, false)
  | _ => let '(p, h1) := deref cur (CPostBuild None) h in
         let '(m, h2, e) := dec_struct pb_field n (get_pb h1 p) h1 in
         (Some p, hset h2 p (CPostBuild m), e)
  end.

Definition meta_field (k : string) (v : ynode) (md : gmeta) (h : heap) : dresult gmeta :=
  if String.eqb k "name" then
    let '(x, e) := dec_string v (gName md) in (mkGMeta x (gNamespace md), h, e)
  else if String.eqb k "namespace" then
    let '(p, h1, e) := dec_strptr v (gNamespace md) h in (mkGMeta (gName md) p, h1, e)
  else (md, h, false).

Definition spec_field (k : string) (v : ynode) (sp : gspec) (h : heap) : dresult gspec :=
  if String.eqb k "path" then
    let '(p, h1, e) := dec_strptr v (gPath sp) h in (mkGSpec p (gSource sp) (gPostBuild sp), h1, e)
  else if String.eqb k "sourceRef" then
    let '(p, h1, e) := dec_srcptr v (gSource sp) h in (mkGSpec (gPath sp) p (gPostBuild sp), h1, e)
  else if String.eqb k "postBuild" then
    let '(p, h1, e) := dec_pbptr v (gPostBuild sp) h in (mkGSpec (gPath sp) (gSource sp) p, h1, e)
  else (sp, h, false).

Definition set_meta (d : gdoc) (md : gmeta) : gdoc :=
  mkGDoc (gApiVersion d) (gKind d) md (gSpec d) (groot d) (gfilepath d) (gftype d).
Definition set_spec (d : gdoc) (sp : gspec) : gdoc :=
  mkGDoc (gApiVersion d) (gKind d) (gMetadata d) sp (groot d) (gfilepath d) (gftype d).

Definition doc_field (k : string) (v : ynode) (d : gdoc) (h : heap) : dresult gdoc :=
  if String.eqb k "apiVersion" then
    let '(x, e) := dec_string v (gApiVersion d) in
    (mkGDoc x (gKind d) (gMetadata d) (gSpec d) (groot d) (gfilepath d) (gftype d), h, e)
  else if String.eqb k "kind" then
    let '(x, e) := dec_string v (gKind d) in
    (mkGDoc (gApiVersion d) x (gMetadata d) (gSpec d) (groot d) (gfilepath d) (gftype d), h, e)
  else if String.eqb k "metadata" then
    let '(md, h1, e) := dec_struct meta_field v (gMetadata d) h in (set_meta d md, h1, e)
  else if String.eqb k "spec" then
    let '(sp, h1, e) := dec_struct spec_field v (gSpec d) h in (set_spec d sp, h1, e)
  else (d, h, false).

(** dec.Decode(&doc) on one parsed document. *)
Definition Decode (n : ynode) (d : gdoc) (h : heap) : dresult gdoc := dec_struct doc_field n d h.

(** if doc.Spec.Source != nil && doc.Spec.Source.Namespace == nil
    { doc.Spec.Source.Namespace = doc.Metadata.Namespace } *)
Definition default_source_ns (d : gdoc) (h : heap) : heap :=
  match gSource (gSpec d) with
  | Some sp =>
      let s := get_src h sp in
      match srNamespace s with
      | None => hset h sp (CSource (mkGSrc (srName s) (gNamespace (gMetadata d)) (srKind s)))
      | Some _ => h
      end
  | None => h
  end.

(** The loop [for dec.Decode(&doc) == nil { ... }] with [doc] and the
    heap threaded through; appending copies [doc], pointers included. *)
Fixpoint parse_loop (input : list ydocument) (root_ path : string) (d : gdoc) (h : heap)
    (ks : list gdoc) (ss : list gsource) : list gdoc * list gsource * heap :=
  match input with
  | [] | YSyntaxError :: _ => (ks, ss, h)
  | YDoc n :: rest =>
      let '(d1, h1, e) := Decode n d h in
      if e then (ks, ss, h1)
      else
        let api := api_group (gApiVersion d1) in
        if String.eqb api kustomizationApi then
          let h2 := default_source_ns d1 h1 in
          let d2 := mkGDoc (gApiVersion d1) (gKind d1) (gMetadata d1) (gSpec d1) root_
                           (TrimPrefix path (root_ ++ "/")) FluxFileType.Base in
          parse_loop rest root_ path d2 h2 (ks ++ [d2])%list ss
        else if String.eqb api sourceApi then
          parse_loop rest root_ path d1 h1 ks
            (ss ++ [mkGSource (gName (gMetadata d1)) (gNamespace (gMetadata d1)) (gKind d1) path])%list
        else parse_loop rest root_ path d1 h1 ks ss
  end.

Definition parseYaml (input : list ydocument) (root_ path : string)
    : list gdoc * list gsource * heap :=
  parse_loop input root_ path zero_doc [] [] [].









End GoYaml.



(** * Properties *)

(** ** The decoder-level parseYaml *)

Module GoYamlFacts.
Import GoYaml.







Ltac field_indep :=
  intros c h c' h';
  repeat match goal with |- context [if String.eqb ?a ?b then _ else _] =>
    destruct (String.eqb a b) end;
  try reflexivity.



















End GoYamlFacts.

(** ** C10 *)



(** ** C6 *)

Lemma substring_all (s : string) : substring 0 (String.length s) s = s.
Proof. induction s; simpl; [reflexivity | rewrite IHs; reflexivity]. Qed.

Lemma substring_app (a r : string) :
  substring (String.length a) (String.length (a ++ r) - String.length a) (a ++ r) = r.
Proof.
  induction a as [| c a IH]; simpl.
  - rewrite Nat.sub_0_r. apply substring_all.
  - exact IH.
Qed.

Lemma prefix_app_same (a b t : string) : String.prefix (a ++ b) (a ++ t) = String.prefix b t.
Proof.
  induction a as [| c a IH]; simpl; [reflexivity |].
  destruct (ascii_dec c c) as [_ | n]; [exact IH | contradiction n; reflexivity].
Qed.

Lemma prefix_nil (t : string) : String.prefix "" t = true.
Proof. destruct t; reflexivity. Qed.

Lemma prefix_inv (p t : string) : String.prefix p t = true -> exists r, t = p ++ r.
Proof.
  revert t; induction p as [| c p IH]; intros t H; simpl.
  - exists t; reflexivity.
  - destruct t as [| c' t]; simpl in H; [discriminate |].
    destruct (ascii_dec c c') as [<- | _]; [| discriminate].
    destruct (IH t H) as [r ->]. exists r; reflexivity.
Qed.

Lemma read_name_app (k r : string) :
  nobrace k = true -> read_name (k ++ String "}" r) = Some (k, r).
Proof.
  induction k as [| c k IH]; simpl; intros H.
  - reflexivity.
  - apply andb_true_iff in H as [Hc Hk]. apply negb_true_iff in Hc.
    rewrite Hc, (IH Hk). reflexivity.
Qed.

Lemma read_name_inv (t n r : string) :
  read_name t = Some (n, r) -> t = n ++ String "}" r.
Proof.
  revert n; induction t as [| c t IH]; simpl; intros n H; [discriminate |].
  destruct (Ascii.eqb c "}") eqn:Ec.
  - apply Ascii.eqb_eq in Ec; subst c. injection H as <- <-. reflexivity.
  - destruct (read_name t) as [[n' r'] |] eqn:Er; simpl in H; [| discriminate].
    injection H as <- <-. rewrite (IH n' eq_refl). reflexivity.
Qed.

Lemma drop2 (u : string) : drop 2 (String "$" (String "{" u)) = u.
Proof. unfold drop. simpl. rewrite Nat.sub_0_r. apply substring_all. Qed.

(** With one entry whose name has no "}", the code's replacement is the
    single-pass substitution. *)
Lemma replace_single_pass (k v : string) (Hk : nobrace k = true) :
  forall n s, replace_fuel n s ("${" ++ k ++ "}") v = substitute_fuel n [(k, v)] s.
Proof.
  induction n as [| f IH]; intros s; [reflexivity |].
  destruct s as [| c s']; [reflexivity |].
  cbn [replace_fuel substitute_fuel].
  destruct (String.prefix ("${" ++ k ++ "}") (String c s')) eqn:Hp.
  - destruct (prefix_inv _ _ Hp) as [r Hs].
    assert (Hs' : String c s' = "${" ++ (k ++ "}" ++ r)).
    { rewrite Hs. simpl. f_equal. f_equal. clear. induction k; simpl; congruence. }
    assert (Hsub : substring (String.length ("${" ++ k ++ "}"))
                     (String.length (String c s') - String.length ("${" ++ k ++ "}"))
                     (String c s') = r) by (rewrite Hs; apply substring_app).
    rewrite Hsub, IH.
    assert (Hd : drop 2 (String c s') = k ++ "}" ++ r) by (rewrite Hs'; apply drop2).
    rewrite Hd. change ("}" ++ r) with (String "}" r). rewrite (read_name_app k r Hk). rewrite Hs' at 1. simpl String.prefix.
    cbn [String.prefix lookup_str]. rewrite prefix_nil, String.eqb_refl. reflexivity.
  - rewrite IH.
    destruct (String.prefix "${" (String c s')) eqn:Hd; [| reflexivity].
    destruct (prefix_inv _ _ Hd) as [u Hu]. simpl in Hu.
    assert (Hdr : drop 2 (String c s') = u) by (rewrite Hu; apply drop2).
    rewrite Hdr.
    destruct (read_name u) as [[n0 rest] |] eqn:Hr; [| reflexivity].
    simpl. destruct (String.eqb n0 k) eqn:Ek; [| reflexivity].
    apply String.eqb_eq in Ek; subst n0.
    apply read_name_inv in Hr. exfalso.
    assert (Hm : String.prefix ("${" ++ k ++ "}") ("${" ++ (k ++ "}" ++ rest)) = true).
    { rewrite prefix_app_same, prefix_app_same. simpl. rewrite prefix_nil. reflexivity. }
    rewrite Hu, Hr in Hp. simpl in Hm. simpl in Hp. rewrite Hm in Hp. discriminate.
Qed.

(** C6 (amended). The code applies the map's entries one after the other,
    in the map's iteration order; each entry (k, v) whose name has no "}"
    (Flux variable names are letters, digits and underscores) is one
    left-to-right pass of the single-entry substitution over the current
    text: every ${k} becomes v, other tokens are left as they are, and
    what this entry inserts is not looked at again by it.  A later entry
    can expand what an earlier one inserted, so the result depends on the
    order.  In particular substitute("${a}-${b}", {a:"x"}) is "x-${b}". *)
Theorem ParseSubstitutions_sequential (w : string) (subst : list (string * string))
    (Hk : Forall (fun kv => nobrace (fst kv) = true) subst) :
  ParseSubstitutions w subst = fold_left (fun s kv => substitute_spec s [kv]) subst w
  /\ ParseSubstitutions "${a}-${b}" [("a", "x")] = "x-${b}"
  /\ ParseSubstitutions "${a}" [("a", "${b}"); ("b", "y")] = "y"
  /\ ParseSubstitutions "${a}" [("b", "y"); ("a", "${b}")] = "${b}".
Proof.
  split; [| repeat split; reflexivity].
  unfold ParseSubstitutions. revert w.
  induction subst as [| [k v] subst IH]; intros w; simpl; [reflexivity |].
  inversion Hk as [| ? ? Hkv Hk']; subst. simpl in Hkv.
  rewrite <- (IH Hk'). f_equal.
  unfold ReplaceAll, substitute_spec. apply replace_single_pass; exact Hkv.
Qed.

Lemma ParseSubstitutions_sequential_witness :
  Forall (fun kv => nobrace (fst kv) = true) [("a", "x"); ("b", "${a}")]
  /\ (ParseSubstitutions "${a}-${b}-${c}" [("a", "x"); ("b", "${a}")]
      = fold_left (fun s kv => substitute_spec s [kv]) [("a", "x"); ("b", "${a}")] "${a}-${b}-${c}"
      /\ ParseSubstitutions "${a}-${b}" [("a", "x")] = "x-${b}"
      /\ ParseSubstitutions "${a}" [("a", "${b}"); ("b", "y")] = "y"
      /\ ParseSubstitutions "${a}" [("b", "y"); ("a", "${b}")] = "${b}").
Proof.
  assert (H : Forall (fun kv => nobrace (fst kv) = true) [("a", "x"); ("b", "${a}")])
    by (repeat constructor).
  split; [exact H | exact (ParseSubstitutions_sequential _ _ H)].
Defined.

(** C6 (counterexample). With two entries iterated a then b, the value
    "${b}" inserted for ${a} is expanded again by the entry for b: the code
    yields "y" where a non-recursive substitution yields "${b}". With the
    other iteration order the code yields "${b}". *)
Lemma ParseSubstitutions_nested_expansion :
  ParseSubstitutions "${a}" [("a", "${b}"); ("b", "y")] = "y"
  /\ substitute_spec "${a}" [("a", "${b}"); ("b", "y")] = "${b}"
  /\ ParseSubstitutions "${a}" [("b", "y"); ("a", "${b}")] = "${b}".
Proof. repeat split; reflexivity. Qed.

(** ** C1 *)

(** C1 (code evaluated on the end-to-end repository). The overlay's layering
    file lists "../base"; followKustomization joins it to the path of the
    layering FILE, giving /r/apps/overlay/base instead of /r/apps/base, and
    the Manifest "app" in apps/base/deploy.yaml is never bound: after the
    walk neither Manifest has children or a parent. *)
Theorem walk_e2e_nothing_bound :
  Join "/r/apps/overlay/kustomization.yaml" "../base" = "/r/apps/overlay/base"
  /\ link_view (walk 3 e2e_fs (empty_model "/r"))
     = Some [("app", [], None); ("apps", [], None)].
Proof. split; vm_compute; reflexivity. Qed.

(** ** C3 *)

(** C3 (code evaluated). The duplicate check of setSource compares the name
    and namespace of each existing child with those of the source reference
    (kName, kNamespace), not with the Manifest being bound. Once the
    Manifest "flux-system" is bound to the GitRepository "flux-system",
    binding "apps" is skipped; binding "apps" twice appends it twice; and
    with two matching Sources the Manifest is bound to both. *)
Theorem setSource_duplicate_check :
  source_view (setSource 1 (setSource 0 c3_model)) = ([[0]], [Some 0; None])
  /\ source_view (setSource 1 (setSource 1 c3_model)) = ([[1; 1]], [None; Some 0])
  /\ source_view (setSource 1 c3_model_twice) = ([[1]; [1]], [None; Some 1]).
Proof. repeat split; vm_compute; reflexivity. Qed.

(** ** filepath.Clean is idempotent *)

Lemma Split_nosep (s : string) : nosep s = true -> Split s = [s].
Proof.
  induction s as [| c s IH]; simpl; intros H; [reflexivity |].
  apply andb_true_iff in H as [Hc Hs]. apply negb_true_iff in Hc.
  rewrite Hc, (IH Hs). reflexivity.
Qed.

Lemma Split_app_sep (x r : string) : nosep x = true -> Split (x ++ String sep r) = x :: Split r.
Proof.
  induction x as [| c x IH]; simpl; intros H.
  - reflexivity.
  - apply andb_true_iff in H as [Hc Hx]. apply negb_true_iff in Hc.
    rewrite Hc, (IH Hx). reflexivity.
Qed.

Lemma Split_concat (L : list string) :
  L <> [] -> Forall (fun e => nosep e = true) L -> Split (String.concat "/" L) = L.
Proof.
  induction L as [| x L IH]; intros Hne HL; [contradiction |].
  inversion HL as [| ? ? Hx HL']; subst.
  destruct L as [| y L].
  - simpl. apply Split_nosep; exact Hx.
  - change (String.concat "/" (x :: y :: L)) with (x ++ String sep (String.concat "/" (y :: L))).
    rewrite (Split_app_sep _ _ Hx), IH; [reflexivity | discriminate | exact HL'].
Qed.

Lemma Split_all_nosep (s : string) : Forall (fun e => nosep e = true) (Split s).
Proof.
  induction s as [| c s IH]; simpl.
  - constructor; [reflexivity | constructor].
  - destruct (Ascii.eqb c sep) eqn:Ec.
    + constructor; [reflexivity | exact IH].
    + destruct (Split s) as [| w ws]; constructor.
      * simpl; rewrite Ec; reflexivity.
      * constructor.
      * inversion IH; subst. simpl. rewrite Ec. assumption.
      * inversion IH; subst. assumption.
Qed.


Lemma clean_step_stack (r : bool) (stk : list string) (e : string) :
  nosep e = true -> clean_stack r stk -> clean_stack r (clean_step r stk e).
Proof.
  intros He (ns & ds & -> & Hns & Hds & Hr). unfold clean_step.
  destruct (String.eqb e "") eqn:E0; [exists ns, ds; auto |].
  destruct (String.eqb e ".") eqn:E1; [exists ns, ds; auto |].
  destruct (String.eqb e "..") eqn:E2.
  - destruct ns as [| n ns'].
    + destruct ds as [| d ds'].
      * destruct r; [exists [], []; auto | exists [], [".."]; repeat split; auto].
        intros H; discriminate.
      * inversion Hds as [| ? ? Hd Hds']; subst. simpl.
        exists [], (".." :: ".." :: ds'). repeat split; auto.
        intros H; specialize (Hr H); discriminate.
    + inversion Hns as [| ? ? Hn Hns']; subst. simpl.
      unfold plain_elem in Hn. rewrite !andb_true_iff, !negb_true_iff in Hn.
      destruct Hn as [[[_ _] _] Hn]. rewrite Hn.
      exists ns', ds. auto.
  - exists (e :: ns), ds. repeat split; auto.
    constructor; [| exact Hns].
    unfold plain_elem. rewrite He, E0, E1, E2. reflexivity.
Qed.

Lemma fold_clean_stack (r : bool) (l : list string) (stk : list string) :
  Forall (fun e => nosep e = true) l -> clean_stack r stk ->
  clean_stack r (fold_left (clean_step r) l stk).
Proof.
  revert stk; induction l as [| e l IH]; intros stk Hl Hs; simpl; [exact Hs |].
  inversion Hl; subst. apply IH; [assumption | apply clean_step_stack; assumption].
Qed.

Lemma fold_clean_plain (r : bool) (ns stk : list string) :
  Forall (fun e => plain_elem e = true) ns ->
  fold_left (clean_step r) ns stk = (rev ns ++ stk)%list.
Proof.
  revert stk; induction ns as [| e ns IH]; intros stk H; simpl; [reflexivity |].
  inversion H as [| ? ? He H']; subst.
  unfold plain_elem in He. rewrite !andb_true_iff, !negb_true_iff in He.
  destruct He as [[[_ E0] E1] E2].
  unfold clean_step at 2. rewrite E0, E1, E2.
  rewrite IH by exact H'. rewrite <- app_assoc. reflexivity.
Qed.

Lemma fold_clean_dots (ds stk : list string) :
  Forall (fun e => e = "..") ds -> Forall (fun e => e = "..") stk ->
  fold_left (clean_step false) ds stk = (ds ++ stk)%list.
Proof.
  revert stk; induction ds as [| e ds IH]; intros stk H Hs; simpl; [reflexivity |].
  inversion H as [| ? ? He H']; subst.
  assert (Hstep : clean_step false stk ".." = ".." :: stk).
  { unfold clean_step; simpl.
    destruct stk as [| t stk']; [reflexivity |].
    inversion Hs; subst; reflexivity. }
  rewrite Hstep, IH; [| exact H' | constructor; auto].
  assert (Hd : Forall (fun e => e = "..") ds) by exact H'.
  clear -Hd. induction ds as [| d ds IH]; simpl; [reflexivity |].
  inversion Hd; subst. f_equal. apply IH; assumption.
Qed.

Lemma plain_elem_inv (e : string) : plain_elem e = true -> nosep e = true /\ e <> "".
Proof.
  unfold plain_elem. rewrite !andb_true_iff, !negb_true_iff.
  intros [[[H E0] _] _]. split; [exact H |].
  intros ->. discriminate.
Qed.

Lemma dots_elem (ds : list string) :
  Forall (fun e => e = "..") ds -> Forall (fun e => nosep e = true /\ e <> "") ds.
Proof.
  intros H. induction H; constructor; auto. subst. split; [reflexivity | discriminate].
Qed.

Lemma plain_elems (ns : list string) :
  Forall (fun e => plain_elem e = true) ns -> Forall (fun e => nosep e = true /\ e <> "") ns.
Proof. intros H. induction H; constructor; auto. apply plain_elem_inv; assumption. Qed.

Lemma concat_head (L : list string) :
  L <> [] -> Forall (fun e => nosep e = true /\ e <> "") L ->
  exists c t, String.concat "/" L = String c t /\ Ascii.eqb c sep = false.
Proof.
  intros Hne HL. destruct L as [| x L]; [contradiction |].
  inversion HL as [| ? ? [Hx Hx0] _]; subst.
  destruct x as [| c x]; [contradiction |].
  simpl in Hx. apply andb_true_iff in Hx as [Hc _]. apply negb_true_iff in Hc.
  destruct L as [| y L].
  - exists c, x. split; [reflexivity | exact Hc].
  - exists c, (x ++ String sep (String.concat "/" (y :: L))). split; [reflexivity | exact Hc].
Qed.

Lemma Forall_nosep (L : list string) :
  Forall (fun e => nosep e = true /\ e <> "") L -> Forall (fun e => nosep e = true) L.
Proof. intros H. induction H; constructor; [apply H | assumption]. Qed.

Lemma rev_dots (ds : list string) : Forall (fun e => e = "..") ds -> rev ds = ds.
Proof.
  intros H.
  assert (E : ds = repeat ".." (length ds)).
  { induction H; simpl; [reflexivity | subst; f_equal; assumption]. }
  rewrite E, rev_repeat. reflexivity.
Qed.

Lemma IsAbs_slash (x : string) : IsAbs ("/" ++ x) = true.
Proof. unfold IsAbs. simpl. apply prefix_nil. Qed.

Lemma Clean_idem (p : string) : Clean (Clean p) = Clean p.
Proof.
  unfold Clean at 2 3.
  destruct (String.eqb p "") eqn:Ep; [reflexivity |].
  destruct (fold_clean_stack (IsAbs p) (Split p) [] (Split_all_nosep p))
    as (ns & ds & Hstk & Hns & Hds & Hr).
  { exists [], []. repeat split; auto. }
  set (stk := fold_left (clean_step (IsAbs p)) (Split p) []) in *.
  rewrite Hstk, rev_app_distr.
  destruct (IsAbs p) eqn:Ea.
  - rewrite (Hr eq_refl). change (rev (@nil string)) with (@nil string). rewrite app_nil_l.
    assert (HR : Forall (fun e => plain_elem e = true) (rev ns)) by (apply Forall_rev; exact Hns).
    set (R := rev ns) in *. clearbody R.
    unfold Clean. rewrite IsAbs_slash.
    replace (String.eqb ("/" ++ String.concat "/" R) "") with false by reflexivity.
    change (Split ("/" ++ String.concat "/" R)) with ("" :: Split (String.concat "/" R)).
    destruct R as [| n R'].
    + reflexivity.
    + rewrite Split_concat by (discriminate || apply Forall_nosep, plain_elems; exact HR).
      change (fold_left (clean_step true) ("" :: n :: R') [])
        with (fold_left (clean_step true) (n :: R') []).
      rewrite fold_clean_plain by exact HR. rewrite app_nil_r, rev_involutive. reflexivity.
  - set (L := (rev ds ++ rev ns)%list).
    destruct (String.eqb (String.concat "/" L) "") eqn:Eb; [reflexivity |].
    assert (HL : Forall (fun e => nosep e = true /\ e <> "") L).
    { apply Forall_app. split; apply Forall_rev; [apply dots_elem | apply plain_elems]; assumption. }
    assert (Hne : L <> []).
    { intros H. rewrite H in Eb. discriminate. }
    destruct (concat_head L Hne HL) as (c & t & Ht & Hc).
    unfold Clean. rewrite Eb.
    assert (Ea' : IsAbs (String.concat "/" L) = false).
    { rewrite Ht. unfold IsAbs.
      change (String.prefix "/" (String c t))
        with (if ascii_dec "/" c then String.prefix "" t else false).
      destruct (ascii_dec "/" c) as [<- | _]; [discriminate | reflexivity]. }
    rewrite Ea', Split_concat by (assumption || apply Forall_nosep; assumption).
    unfold L. rewrite fold_left_app.
    rewrite (fold_clean_dots (rev ds) []) by (constructor || (apply Forall_rev; assumption)).
    rewrite app_nil_r.
    rewrite fold_clean_plain by (apply Forall_rev; exact Hns).
    rewrite rev_involutive, rev_app_distr, rev_involutive.
    unfold L in Eb. rewrite (rev_dots ds Hds) in *. rewrite Eb. reflexivity.
Qed.

Lemma Abs_clean (cwd p : string) : cwd <> "" -> Clean (Abs cwd p) = Abs cwd p.
Proof.
  intros Hc. unfold Abs, Join.
  destruct (IsAbs p); [apply Clean_idem |].
  destruct (String.eqb cwd "") eqn:E; [apply String.eqb_eq in E; contradiction | apply Clean_idem].
Qed.

(** ** The root of the model is never changed *)

Lemma fold_left_inv {A B} (P : A -> Prop) (f : A -> B -> A) (l : list B) (a : A) :
  (forall a b, P a -> P (f a b)) -> P a -> P (fold_left f l a).
Proof. revert a; induction l; simpl; auto. Qed.

Lemma bind_resource_root (index : nat) (rp : string) (m : Model) :
  m_root (bind_resource index rp m) = m_root m.
Proof.
  unfold bind_resource, bind_sources, bind_kusts.
  apply (fold_left_inv (fun m' => m_root m' = m_root m)); [| apply fold_left_inv; [| reflexivity]].
  - intros a b Ha. destruct (String.eqb _ _); exact Ha.
  - intros a b Ha. destruct (String.eqb _ _); exact Ha.
Qed.

(** ** The layering-link descent goes at most one directory down *)

Lemma followKustomization_dir (f : nat) (fs : FS) (index : nat) (rp : string) (m : Model) :
  Stat fs rp = Some EDir -> Clean rp = rp -> followKustomization (S f) fs index rp m = Some m.
Proof.
  intros Hs Hc. simpl. unfold ReadFile. rewrite Hc. unfold Stat in Hs. rewrite Hs. reflexivity.
Qed.


Lemma res_loop_ext (fs : FS) (index : nat) (path : string) (rec : string -> Model -> option Model)
    (rs : list string) (m : Model) :
  m_root m <> "" -> dir_noop fs (m_root m) rec ->
  res_loop fs index path rec rs m = res_loop fs index path (fun _ m => Some m) rs m.
Proof.
  revert m; induction rs as [| r rs IH]; intros m Hr Hrec; simpl; [reflexivity |].
  destruct (Stat fs (Abs (m_root m) (Join path r))) as [[| c] |] eqn:Hs.
  - rewrite (Hrec _ m eq_refl Hs (Abs_clean _ _ Hr)). reflexivity.
  - apply IH; rewrite bind_resource_root; assumption.
  - apply IH; rewrite bind_resource_root; assumption.
Qed.

Lemma res_loop_noop_some (fs : FS) (index : nat) (path : string) (rs : list string) (m : Model) :
  res_loop fs index path (fun _ m => Some m) rs m <> None.
Proof.
  revert m; induction rs as [| r rs IH]; intros m; simpl; [discriminate |].
  destruct (Stat fs _) as [[| c] |]; [discriminate | apply IH | apply IH].
Qed.

Lemma res_loop_root (fs : FS) (index : nat) (path : string) (rs : list string) (m m' : Model) (b : bool) :
  res_loop fs index path (fun _ m => Some m) rs m = Some (m', b) -> m_root m' = m_root m.
Proof.
  revert m; induction rs as [| r rs IH]; intros m H; simpl in H.
  - injection H as <- _. reflexivity.
  - destruct (Stat fs _) as [[| c] |].
    + injection H as <- _. reflexivity.
    + rewrite (IH _ H). apply bind_resource_root.
    + rewrite (IH _ H). apply bind_resource_root.
Qed.

Lemma docs_loop_ext (fs : FS) (index : nat) (path : string) (rec : string -> Model -> option Model)
    (ds : yfile) (m : Model) :
  m_root m <> "" -> (forall R, R <> "" -> dir_noop fs R rec) ->
  docs_loop fs index path rec ds m = docs_loop fs index path (fun _ m => Some m) ds m.
Proof.
  revert m; induction ds as [| [d |] ds IH]; intros m Hr Hrec; simpl; try reflexivity.
  rewrite (res_loop_ext fs index path rec (y_resources d) m Hr (Hrec _ Hr)).
  destruct (res_loop fs index path (fun _ m => Some m) (y_resources d) m) as [[m' [|]] |] eqn:E;
    try reflexivity.
  apply IH; [| exact Hrec]. rewrite (res_loop_root _ _ _ _ _ _ _ E). exact Hr.
Qed.

Lemma docs_loop_noop_some (fs : FS) (index : nat) (path : string) (ds : yfile) (m : Model) :
  docs_loop fs index path (fun _ m => Some m) ds m <> None.
Proof.
  revert m; induction ds as [| [d |] ds IH]; intros m; simpl; try discriminate.
  destruct (res_loop fs index path (fun _ m => Some m) (y_resources d) m) as [[m' [|]] |] eqn:E;
    try discriminate.
  - apply IH.
  - exfalso. exact (res_loop_noop_some _ _ _ _ _ E).
Qed.

Lemma followKustomization_noop (f : nat) (fs : FS) (index : nat) :
  forall R, R <> "" -> dir_noop fs R (followKustomization (S f) fs index).
Proof. intros R _ p m' _ Hs Hc. apply followKustomization_dir; assumption. Qed.

Lemma followKustomization_unfold2 (f : nat) (fs : FS) (index : nat) (path : string) (m : Model) :
  m_root m <> "" ->
  followKustomization (S (S f)) fs index path m
  = match ReadFile fs (Clean path) with
    | None => Some m
    | Some docs => docs_loop fs index path (fun _ m => Some m) docs m
    end.
Proof.
  intros Hr. simpl (followKustomization (S (S f)) fs index path m).
  destruct (ReadFile fs (Clean path)) as [docs |]; [| reflexivity].
  apply docs_loop_ext; [exact Hr | apply followKustomization_noop].
Qed.

(** ** C8 *)

(** C8 (amended). followKustomization keeps no visited-path set, yet its
    recursive descent terminates on every file system, directory cycles
    included: from two levels of fuel on, more fuel changes nothing, and
    the descent never runs out of fuel. *)
Theorem followKustomization_terminates (fuel : nat) (fs : FS) (index : nat) (path : string)
    (m : Model) (Hroot : m_root m <> "") (Hfuel : 2 <= fuel) :
  followKustomization fuel fs index path m = followKustomization 2 fs index path m
  /\ followKustomization fuel fs index path m <> None.
Proof.
  destruct fuel as [| [| f]]; [lia | lia |].
  rewrite (followKustomization_unfold2 f) by exact Hroot.
  rewrite (followKustomization_unfold2 0) by exact Hroot.
  split; [reflexivity |].
  destruct (ReadFile fs (Clean path)); [apply docs_loop_noop_some | discriminate].
Qed.

Lemma followKustomization_terminates_witness :
  m_root (empty_model "/r") <> "" /\ 2 <= 5
  /\ (followKustomization 5 e2e_fs 1 "/r/apps/overlay/kustomization.yaml" (empty_model "/r")
      = followKustomization 2 e2e_fs 1 "/r/apps/overlay/kustomization.yaml" (empty_model "/r")
      /\ followKustomization 5 e2e_fs 1 "/r/apps/overlay/kustomization.yaml" (empty_model "/r")
         <> None).
Proof.
  split; [discriminate | split; [lia |]].
  apply followKustomization_terminates; [discriminate | lia].
Defined.

(** C8 (counterexample). No visited-path set is kept: in the walk of the
    build path apps, both layering files are followed and each descent
    enters the same directory /r/apps/shared again. *)
Lemma followKustomization_no_visited_set :
  In (file_ev "/r/apps/a/kustomization.yaml") (fs_walk c8_fs "/r/apps")
  /\ In (file_ev "/r/apps/b/kustomization.yaml") (fs_walk c8_fs "/r/apps")
  /\ followKustomization_calls 5 c8_fs "/r" "/r/apps/a/kustomization.yaml"
     = ["/r/apps/a/kustomization.yaml"; "/r/apps/shared"]
  /\ followKustomization_calls 5 c8_fs "/r" "/r/apps/b/kustomization.yaml"
     = ["/r/apps/b/kustomization.yaml"; "/r/apps/shared"].
Proof. repeat split; vm_compute; auto 10. Qed.

(** ** The linking pass never runs out of fuel *)

Lemma followKustomization_some (fuel : nat) (fs : FS) (index : nat) (path : string) (m : Model) :
  m_root m <> "" -> 2 <= fuel -> followKustomization fuel fs index path m <> None.
Proof.
  intros Hr Hf. destruct fuel as [| [| f]]; [lia | lia |].
  rewrite (followKustomization_unfold2 f) by exact Hr.
  destruct (ReadFile fs (Clean path)); [apply docs_loop_noop_some | discriminate].
Qed.


Lemma run_walk_safe (fn : walkEvent -> Model -> step_result) (R : string)
    (evs : list walkEvent) (m : Model) :
  (forall ev m', m_root m' = R -> fn ev m' <> OutOfFuel /\ keeps_root (fn ev m') m') ->
  m_root m = R -> run_walk fn evs m <> OutOfFuel /\ keeps_root (run_walk fn evs m) m.
Proof.
  intros H. revert m; induction evs as [| ev evs IH]; intros m Hm; simpl.
  - split; [discriminate | reflexivity].
  - destruct (H ev m Hm) as [Hn Hk].
    destruct (fn ev m) as [m0 | e m0 |] eqn:E.
    + simpl in Hk. destruct (IH m0 (eq_trans Hk Hm)) as [Hn' Hk'].
      split; [exact Hn' |].
      destruct (run_walk fn evs m0); simpl in *; congruence.
    + split; [discriminate | exact Hk].
    + contradiction.
Qed.

Lemma res_loop_root_gen (fs : FS) (index : nat) (path : string)
    (rec : string -> Model -> option Model) (rs : list string) (m m' : Model) (b : bool) :
  (forall p a a', rec p a = Some a' -> m_root a' = m_root a) ->
  res_loop fs index path rec rs m = Some (m', b) -> m_root m' = m_root m.
Proof.
  intros Hrec. revert m; induction rs as [| r rs IH]; intros m H; simpl in H.
  - injection H as <- _. reflexivity.
  - destruct (Stat fs _) as [[| c] |].
    + destruct (rec _ m) eqn:E; [| discriminate]. injection H as <- _. exact (Hrec _ _ _ E).
    + rewrite (IH _ H). apply bind_resource_root.
    + rewrite (IH _ H). apply bind_resource_root.
Qed.

Lemma docs_loop_root_gen (fs : FS) (index : nat) (path : string)
    (rec : string -> Model -> option Model) (ds : yfile) (m m' : Model) :
  (forall p a a', rec p a = Some a' -> m_root a' = m_root a) ->
  docs_loop fs index path rec ds m = Some m' -> m_root m' = m_root m.
Proof.
  intros Hrec. revert m; induction ds as [| [d |] ds IH]; intros m H; simpl in H;
    try (injection H as <-; reflexivity).
  destruct (res_loop fs index path rec (y_resources d) m) as [[m1 [|]] |] eqn:E; [| | discriminate].
  - injection H as <-. exact (res_loop_root_gen _ _ _ _ _ _ _ _ Hrec E).
  - rewrite (IH _ H). exact (res_loop_root_gen _ _ _ _ _ _ _ _ Hrec E).
Qed.

Lemma followKustomization_root (fuel : nat) (fs : FS) (index : nat) :
  forall path m m', followKustomization fuel fs index path m = Some m' -> m_root m' = m_root m.
Proof.
  induction fuel as [| f IH]; intros path m m' H; simpl in H; [discriminate |].
  destruct (ReadFile fs (Clean path)).
  - exact (docs_loop_root_gen _ _ _ _ _ _ _ IH H).
  - injection H as <-. reflexivity.
Qed.

Lemma set_source_parents_root (index : nat) (path : string) (m : Model) :
  m_root (set_source_parents index path m) = m_root m.
Proof.
  unfold set_source_parents.
  apply (fold_left_inv (fun m' => m_root m' = m_root m)); [| reflexivity].
  intros a b Ha. destruct (String.eqb _ _); exact Ha.
Qed.

Lemma bind_child_root (index i : nat) (m : Model) : keeps_root (bind_child index i m) m.
Proof.
  unfold bind_child. destruct (PostBuild _); [| reflexivity].
  destruct (Path _); reflexivity.
Qed.

Lemma pathFn_safe (fuel : nat) (fs : FS) (index : nat) (R : string) :
  R <> "" -> 2 <= fuel ->
  forall ev m', m_root m' = R -> pathFn fuel fs index ev m' <> OutOfFuel
                                 /\ keeps_root (pathFn fuel fs index ev m') m'.
Proof.
  intros HR Hf ev m' Hm. destruct ev as [d | p]; simpl; [| split; [discriminate | reflexivity]].
  destruct (String.eqb _ kustomizationName).
  - pose proof (followKustomization_some fuel fs index (de_path d) m') as Hs.
    pose proof (followKustomization_root fuel fs index (de_path d) m') as Hk.
    destruct (followKustomization fuel fs index (de_path d) m') as [m1 |].
    + split; [discriminate | exact (Hk m1 eq_refl)].
    + exfalso. apply Hs; [congruence | exact Hf | reflexivity].
  - destruct (de_regular d); [| split; [discriminate | reflexivity]].
    destruct (first_kust_at _ _ _).
    + split; [| apply bind_child_root].
      unfold bind_child. destruct (PostBuild _); [destruct (Path _) |]; discriminate.
    + split; [discriminate | apply set_source_parents_root].
Qed.

Lemma followFluxKustomization_safe (fuel : nat) (fs : FS) (index : nat) (m : Model) :
  m_root m <> "" -> 2 <= fuel ->
  followFluxKustomization fuel fs index m <> OutOfFuel
  /\ keeps_root (followFluxKustomization fuel fs index m) m.
Proof.
  intros Hr Hf. unfold followFluxKustomization.
  destruct (GetKustomization fs _) as [fp kust].
  match goal with |- context[set_kust m index ?g] => set (m1 := set_kust m index g) end.
  destruct (Path (Spec (kust_at m1 index))); [| split; [discriminate | reflexivity]].
  exact (run_walk_safe _ (m_root m) _ m1 (pathFn_safe fuel fs index (m_root m) Hr Hf) eq_refl).
Qed.

Lemma setSource_root (index : nat) (m : Model) : m_root (setSource index m) = m_root m.
Proof.
  unfold setSource. destruct (Source _) as [r |]; [| reflexivity].
  apply (fold_left_inv (fun m' => m_root m' = m_root m)); [| reflexivity].
  intros a b Ha. cbv zeta.
  repeat match goal with |- context[if ?c then _ else _] => destruct c end; exact Ha.
Qed.

Lemma link_loop_some (fuel : nat) (fs : FS) (is : list nat) :
  2 <= fuel -> forall m errs ready, m_root m <> "" -> link_loop fuel fs is m errs ready <> None.
Proof.
  intros Hf. induction is as [| i is IH]; intros m errs ready Hr; simpl; [discriminate |].
  set (m0 := set_kust m i (fun k => with_children k [])).
  assert (Hr0 : m_root m0 <> "") by exact Hr.
  destruct (followFluxKustomization_safe fuel fs i m0 Hr0 Hf) as [Hn Hk].
  destruct (followFluxKustomization fuel fs i m0) as [m1 | e m1 |]; simpl in Hk.
  - apply IH. rewrite setSource_root, Hk. exact Hr0.
  - apply IH. rewrite setSource_root, Hk. exact Hr0.
  - contradiction.
Qed.

Lemma checkClusterPath_root (path : string) (m : Model) :
  m_root (checkClusterPath path m) = m_root m.
Proof. unfold checkClusterPath. destruct (clusterCandidates _ _) as [[] |]; reflexivity. Qed.

Lemma rootFn_safe (fs : FS) (R : string) :
  forall ev m', m_root m' = R -> rootFn fs ev m' <> OutOfFuel /\ keeps_root (rootFn fs ev m') m'.
Proof.
  intros ev m' _. destruct ev as [d | p]; [| split; [discriminate | reflexivity]].
  unfold rootFn. destruct (Stat fs (de_path d)) as [[| c] |].
  - split; [discriminate | apply checkClusterPath_root].
  - destruct (existsb (String.eqb (ToLower (Ext (de_name d)))) [".yaml"; ".yml"]);
      [| split; [discriminate | reflexivity]].
    destruct (parseYamlFromFile fs (m_root m') (de_path d)).
    split; [discriminate | reflexivity].
  - split; [discriminate | apply checkClusterPath_root].
Qed.

(** ** C9 *)

(** C9 (amended). The crawl is fatal exactly when fastwalk.Walk completes
    without error and no Manifest was collected. Once it completes with at
    least one Manifest, the pipeline proceeds to its ready signal. A walker
    error, or an entry that cannot be stat'ed (a dangling symbolic link),
    aborts the crawl with a non-fatal error and nothing further runs. A
    file that can be stat'ed never stops the crawl, whether or not it can
    be read or decoded. *)
Theorem walk_outcomes (fuel : nat) (fs : FS) (m : Model)
    (Hroot : m_root m <> "") (Hfuel : 2 <= fuel) :
  (forall m', walk fuel fs m = ModelFatal m'
              <-> run_walk (rootFn fs) (fs_walk fs (m_root m)) m = Continue m'
                  /\ kustomizations m' = [])
  /\ (forall m', run_walk (rootFn fs) (fs_walk fs (m_root m)) m = Continue m' ->
                 kustomizations m' <> [] ->
                 exists m2 errs ready, walk fuel fs m = Ready m2 errs ready)
  /\ (forall e m', run_walk (rootFn fs) (fs_walk fs (m_root m)) m = Stop e m' ->
                   walk fuel fs m = ModelError e m')
  /\ (forall d c m0, Stat fs (de_path d) = Some (EFile c) ->
                     exists m1, rootFn fs (WEntry d) m0 = Continue m1)
  /\ (forall d m0, Stat fs (de_path d) = None ->
                   exists m1, rootFn fs (WEntry d) m0 = Stop (de_path d) m1).
Proof.
  split; [| split; [| split; [| split]]].
  - intros m'. unfold walk. split.
    + destruct (run_walk (rootFn fs) (fs_walk fs (m_root m)) m) as [m1 | e m1 |];
        try discriminate.
      destruct (kustomizations m1) eqn:Ek.
      * intros H. injection H as <-. split; [reflexivity | exact Ek].
      * destruct (linkAll fuel fs m1) as [[[m2 errs] ready] |]; discriminate.
    + intros [-> Ek]. rewrite Ek. reflexivity.
  - intros m' Hw Hne. unfold walk. rewrite Hw.
    destruct (kustomizations m') eqn:Ek; [contradiction |].
    pose proof (run_walk_safe (rootFn fs) (m_root m) (fs_walk fs (m_root m)) m
                  (rootFn_safe fs (m_root m)) eq_refl) as [_ Hk].
    rewrite Hw in Hk. simpl in Hk.
    pose proof (link_loop_some fuel fs (seq 0 (length (kustomizations m'))) Hfuel m' [] true)
      as Hl.
    unfold linkAll. destruct (link_loop _ _ _ _ _ _) as [[[m2 errs] ready] |].
    + eexists _, _, _. reflexivity.
    + exfalso. apply Hl; [congruence | reflexivity].
  - intros e m' Hw. unfold walk. rewrite Hw. reflexivity.
  - intros d c m0 Hs. unfold rootFn. rewrite Hs.
    destruct (existsb (String.eqb (ToLower (Ext (de_name d)))) [".yaml"; ".yml"]);
      [destruct (parseYamlFromFile fs (m_root m0) (de_path d)) |]; eexists; reflexivity.
  - intros d m0 Hs. unfold rootFn. rewrite Hs. eexists; reflexivity.
Qed.

Lemma walk_outcomes_witness :
  m_root (empty_model "/r") <> "" /\ 2 <= 3
  /\ ((forall m', walk 3 e2e_fs (empty_model "/r") = ModelFatal m'
                  <-> run_walk (rootFn e2e_fs) (fs_walk e2e_fs "/r") (empty_model "/r")
                      = Continue m' /\ kustomizations m' = [])
      /\ (forall m', run_walk (rootFn e2e_fs) (fs_walk e2e_fs "/r") (empty_model "/r")
                     = Continue m' -> kustomizations m' <> [] ->
                     exists m2 errs ready, walk 3 e2e_fs (empty_model "/r") = Ready m2 errs ready)
      /\ (forall e m', run_walk (rootFn e2e_fs) (fs_walk e2e_fs "/r") (empty_model "/r")
                       = Stop e m' -> walk 3 e2e_fs (empty_model "/r") = ModelError e m')
      /\ (forall d c m0, Stat e2e_fs (de_path d) = Some (EFile c) ->
                         exists m1, rootFn e2e_fs (WEntry d) m0 = Continue m1)
      /\ (forall d m0, Stat e2e_fs (de_path d) = None ->
                       exists m1, rootFn e2e_fs (WEntry d) m0 = Stop (de_path d) m1)).
Proof.
  split; [discriminate | split; [lia |]].
  apply (walk_outcomes 3 e2e_fs (empty_model "/r")); [discriminate | lia].
Defined.

(** C9 (counterexample). /r/a.yaml holds a Kustomization and /r/b.yaml is a
    dangling symbolic link: os.Stat fails on it, rootFn returns the error,
    and walk reports a (non-fatal) model error instead of proceeding,
    although one Manifest was discovered. *)
Lemma walk_dangling_link_aborts :
  exists e m', walk 3 c9_fs (empty_model "/r") = ModelError e m'
               /\ map GetName (kustomizations m') = ["a"].
Proof. eexists _, _. split; vm_compute; reflexivity. Qed.

(** ** Frames of the linking pass *)

Lemma upd_length {A} (l : list A) (i : nat) (f : A -> A) : length (upd l i f) = length l.
Proof. revert i; induction l; intros [| i]; simpl; auto. Qed.

Lemma upd_nth_obs {A B} (g : A -> B) (f : A -> A) (l : list A) (i j : nat) (d : A) :
  (forall x, g (f x) = g x) -> g (nth j (upd l i f) d) = g (nth j l d).
Proof.
  intros Hg. revert i j; induction l as [| x l IH]; intros [| i] [| j]; simpl; auto.
Qed.

Lemma upd_nth_same {A} (f : A -> A) (l : list A) (i : nat) (d : A) :
  i < length l -> nth i (upd l i f) d = f (nth i l d).
Proof.
  revert i; induction l as [| x l IH]; intros [| i] H; simpl in *; try lia; auto.
  apply IH. lia.
Qed.

Lemma upd_nth_other {A} (f : A -> A) (l : list A) (i j : nat) (d : A) :
  i <> j -> nth j (upd l i f) d = nth j l d.
Proof.
  revert i j; induction l as [| x l IH]; intros [| i] [| j] H; simpl; auto; try lia.
Qed.

Lemma kframe_refl (m : Model) : kframe m m.
Proof. repeat split; reflexivity. Qed.

Lemma kframe_trans (a b c : Model) : kframe a b -> kframe b c -> kframe a c.
Proof.
  intros (R1 & L1 & F1) (R2 & L2 & F2). split; [congruence | split; [congruence |]].
  intros i. destruct (F1 i), (F2 i). split; congruence.
Qed.

Lemma kframe_set_kust (m : Model) (i : nat) (f : shortApi -> shortApi) :
  (forall k, ftype (f k) = ftype k) -> (forall k, filepath (f k) = filepath k) ->
  kframe m (set_kust m i f).
Proof.
  intros Ht Hp. split; [reflexivity | split; [apply upd_length |]].
  intros j. unfold kust_at; simpl. split; apply upd_nth_obs; assumption.
Qed.

Lemma kframe_set_source (m : Model) (i : nat) (f : shortSource -> shortSource) :
  kframe m (set_source m i f).
Proof. split; [reflexivity | split; [reflexivity | intros j; split; reflexivity]]. Qed.

Lemma kframe_bind_resource (index : nat) (rp : string) (m : Model) :
  kframe m (bind_resource index rp m).
Proof.
  unfold bind_resource, bind_sources.
  apply (fold_left_inv (fun m' => kframe m m')).
  - intros a b Ha. destruct (String.eqb _ _); [| exact Ha].
    eapply kframe_trans; [exact Ha |].
    eapply kframe_trans; [apply kframe_set_source |].
    apply kframe_set_kust; intros; reflexivity.
  - unfold bind_kusts. apply (fold_left_inv (fun m' => kframe m m')); [| apply kframe_refl].
    intros a b Ha. destruct (String.eqb _ _); [| exact Ha].
    eapply kframe_trans; [exact Ha |].
    eapply kframe_trans; apply kframe_set_kust; intros; reflexivity.
Qed.

Lemma run_walk_rel (R : Model -> Model -> Prop) (fn : walkEvent -> Model -> step_result)
    (evs : list walkEvent) (m : Model) :
  (forall a, R a a) -> (forall a b c, R a b -> R b c -> R a c) ->
  (forall ev a, step_rel R (fn ev a) a) -> step_rel R (run_walk fn evs m) m.
Proof.
  intros Hrefl Htrans Hfn. revert m; induction evs as [| ev evs IH]; intros m; simpl.
  - apply Hrefl.
  - specialize (Hfn ev m). destruct (fn ev m) as [m1 | e m1 |]; simpl in *; auto.
    specialize (IH m1). destruct (run_walk fn evs m1); simpl in *; eauto.
Qed.

Lemma kframe_res_loop (fs : FS) (index : nat) (path : string)
    (rec : string -> Model -> option Model) (rs : list string) (m m' : Model) (b : bool) :
  (forall p a a', rec p a = Some a' -> kframe a a') ->
  res_loop fs index path rec rs m = Some (m', b) -> kframe m m'.
Proof.
  intros Hrec. revert m; induction rs as [| r rs IH]; intros m H; simpl in H.
  - injection H as <- _. apply kframe_refl.
  - destruct (Stat fs _) as [[| c] |].
    + destruct (rec _ m) eqn:E; [| discriminate]. injection H as <- _. exact (Hrec _ _ _ E).
    + exact (kframe_trans _ _ _ (kframe_bind_resource _ _ _) (IH _ H)).
    + exact (kframe_trans _ _ _ (kframe_bind_resource _ _ _) (IH _ H)).
Qed.

Lemma kframe_docs_loop (fs : FS) (index : nat) (path : string)
    (rec : string -> Model -> option Model) (ds : yfile) (m m' : Model) :
  (forall p a a', rec p a = Some a' -> kframe a a') ->
  docs_loop fs index path rec ds m = Some m' -> kframe m m'.
Proof.
  intros Hrec. revert m; induction ds as [| [d |] ds IH]; intros m H; simpl in H;
    try (injection H as <-; apply kframe_refl).
  destruct (res_loop fs index path rec (y_resources d) m) as [[m1 [|]] |] eqn:E; [| | discriminate].
  - injection H as <-. exact (kframe_res_loop _ _ _ _ _ _ _ _ Hrec E).
  - exact (kframe_trans _ _ _ (kframe_res_loop _ _ _ _ _ _ _ _ Hrec E) (IH _ H)).
Qed.

Lemma kframe_followKustomization (fuel : nat) (fs : FS) (index : nat) :
  forall path m m', followKustomization fuel fs index path m = Some m' -> kframe m m'.
Proof.
  induction fuel as [| f IH]; intros path m m' H; simpl in H; [discriminate |].
  destruct (ReadFile fs (Clean path)).
  - exact (kframe_docs_loop _ _ _ _ _ _ _ IH H).
  - injection H as <-. apply kframe_refl.
Qed.

Lemma kframe_bind_child (index i : nat) (m : Model) : step_rel kframe (bind_child index i m) m.
Proof.
  unfold bind_child.
  assert (H2 : kframe m (set_kust (set_kust m index (fun k => with_children k (children k ++ [i])))
                                  i (fun k => with_parent k (Some index)))).
  { eapply kframe_trans; apply kframe_set_kust; intros; reflexivity. }
  destruct (PostBuild _); [| exact H2].
  destruct (Path _); simpl; [| exact H2].
  eapply kframe_trans; [exact H2 | apply kframe_set_kust; intros; reflexivity].
Qed.

Lemma kframe_set_source_parents (index : nat) (path : string) (m : Model) :
  kframe m (set_source_parents index path m).
Proof.
  unfold set_source_parents.
  apply (fold_left_inv (fun m' => kframe m m')); [| apply kframe_refl].
  intros a b Ha. destruct (String.eqb _ _); [| exact Ha].
  exact (kframe_trans _ _ _ Ha (kframe_set_source _ _ _)).
Qed.

Lemma kframe_pathFn (fuel : nat) (fs : FS) (index : nat) (ev : walkEvent) (m : Model) :
  step_rel kframe (pathFn fuel fs index ev m) m.
Proof.
  destruct ev as [d | p]; simpl; [| apply kframe_refl].
  destruct (String.eqb _ kustomizationName).
  - destruct (followKustomization fuel fs index (de_path d) m) eqn:E; simpl; [| exact I].
    exact (kframe_followKustomization _ _ _ _ _ _ E).
  - destruct (de_regular d); [| apply kframe_refl].
    destruct (first_kust_at _ _ _); [apply kframe_bind_child | apply kframe_set_source_parents].
Qed.

Lemma kframe_setSource (index : nat) (m : Model) : kframe m (setSource index m).
Proof.
  unfold setSource. destruct (Source _) as [r |]; [| apply kframe_refl].
  apply (fold_left_inv (fun m' => kframe m m')); [| apply kframe_refl].
  intros a b Ha. cbv zeta.
  repeat match goal with |- context[if ?c then _ else _] => destruct c end; try exact Ha.
  eapply kframe_trans; [exact Ha |].
  eapply kframe_trans; [apply kframe_set_source | apply kframe_set_kust; intros; reflexivity].
Qed.

Lemma classify_patch_fold (own : string) (ps : list string) (cur : FluxFileType.t) :
  fold_left (fun t p => if String.eqb p own then FluxFileType.Patch else t) ps cur
  = if existsb (String.eqb own) ps then FluxFileType.Patch else cur.
Proof.
  revert cur; induction ps as [| p ps IH]; intros cur; simpl; [reflexivity |].
  rewrite IH, String.eqb_sym.
  destruct (String.eqb own p); [destruct (existsb _ ps) |]; reflexivity.
Qed.

Lemma classify_spec (fs : FS) (path : string) (cur : FluxFileType.t) :
  classify cur (snd (GetKustomization fs path)) (FilePath.Base path) = spec_ftype fs path cur.
Proof.
  unfold GetKustomization, spec_ftype, sibling_layering_file.
  change (kustomizationName ++ "." ++ "yaml") with "kustomization.yaml".
  change (kustomizationName ++ "." ++ "yml") with "kustomization.yml".
  destruct (Stat fs (Join (Dir path) "kustomization.yaml"));
    [| destruct (Stat fs (Join (Dir path) "kustomization.yml")); [| reflexivity]];
    (destruct (ReadFile fs _) as [docs |]; [| reflexivity]);
    (destruct (Unmarshal docs) as [k |]; [| reflexivity]);
    simpl; rewrite classify_patch_fold; destruct (existsb _ (Resources k)); reflexivity.
Qed.

Lemma classified_kframe (fs : FS) (index : nat) (a b c : Model) :
  classified fs index a b -> kframe b c -> classified fs index a c.
Proof.
  intros (R1 & L1 & P1 & O1 & S1) (R2 & L2 & F2).
  split; [congruence | split; [congruence | split; [| split]]].
  - intros i. destruct (F2 i) as [_ ->]. apply P1.
  - intros i Hi. destruct (F2 i) as [-> _]. apply O1; exact Hi.
  - destruct (F2 index) as [-> _]. exact S1.
Qed.

Lemma followFluxKustomization_classified (fuel : nat) (fs : FS) (index : nat) (m : Model) :
  index < length (kustomizations m) ->
  step_rel (classified fs index) (followFluxKustomization fuel fs index m) m.
Proof.
  intros Hi. unfold followFluxKustomization.
  destruct (GetKustomization fs (kust_path (m_root m) (filepath (kust_at m index))))
    as [fp kust] eqn:EG.
  match goal with |- context[set_kust m index ?g] => set (g0 := g); set (m1 := set_kust m index g0) end.
  assert (H1 : classified fs index m m1).
  { split; [reflexivity | split; [apply upd_length | split; [| split]]].
    - intros i. unfold m1, kust_at; simpl. apply upd_nth_obs. intros; reflexivity.
    - intros i Hne. unfold m1, kust_at; simpl. rewrite upd_nth_other by congruence. reflexivity.
    - unfold m1, kust_at at 1; simpl. rewrite upd_nth_same by exact Hi.
      unfold g0; simpl. rewrite <- classify_spec, EG. reflexivity. }
  destruct (Path (Spec (kust_at m1 index))); [| exact H1].
  pose proof (run_walk_rel kframe (pathFn fuel fs index)
                (fs_walk fs (GetAbsoluteSpecPath (m_root m1) (kust_at m1 index))) m1
                kframe_refl kframe_trans (kframe_pathFn fuel fs index)) as Hw.
  destruct (run_walk _ _ m1) as [m' | e m' |]; simpl in *; try exact I;
    exact (classified_kframe _ _ _ _ _ H1 Hw).
Qed.

(** The whole linking loop: every Manifest visited once is classified by
    the rule from its state before the loop; the others keep theirs. *)
Lemma link_loop_ftype (fuel : nat) (fs : FS) (is : list nat) :
  NoDup is -> forall m errs ready m2 errs2 ready2,
  Forall (fun i => i < length (kustomizations m)) is ->
  link_loop fuel fs is m errs ready = Some (m2, errs2, ready2) ->
  m_root m2 = m_root m /\ length (kustomizations m2) = length (kustomizations m)
  /\ (forall i, filepath (kust_at m2 i) = filepath (kust_at m i))
  /\ (forall i, ftype (kust_at m2 i)
                = if in_dec Nat.eq_dec i is
                  then spec_ftype fs (kust_path (m_root m) (filepath (kust_at m i)))
                         (ftype (kust_at m i))
                  else ftype (kust_at m i)).
Proof.
  induction is as [| i is IH]; intros Hnd m errs ready m2 errs2 ready2 Hlt H; simpl in H.
  - injection H as <- _ _. repeat split; auto.
  - inversion Hnd as [| ? ? Hni Hnd']; subst.
    inversion Hlt as [| ? ? Hi Hlt']; subst.
    set (m0 := set_kust m i (fun k => with_children k [])) in H.
    assert (F0 : kframe m m0) by (apply kframe_set_kust; intros; reflexivity).
    assert (Hi0 : i < length (kustomizations m0)) by (destruct F0 as (_ & -> & _); exact Hi).
    pose proof (followFluxKustomization_classified fuel fs i m0 Hi0) as Hc.
    destruct F0 as (R0 & L0 & F0).
    assert (Hstep : forall m1 errs' ready',
      classified fs i m0 m1 ->
      link_loop fuel fs is (setSource i m1) errs' ready' = Some (m2, errs2, ready2) ->
      m_root m2 = m_root m /\ length (kustomizations m2) = length (kustomizations m)
      /\ (forall j, filepath (kust_at m2 j) = filepath (kust_at m j))
      /\ (forall j, ftype (kust_at m2 j)
                    = if in_dec Nat.eq_dec j (i :: is)
                      then spec_ftype fs (kust_path (m_root m) (filepath (kust_at m j)))
                             (ftype (kust_at m j))
                      else ftype (kust_at m j))).
    { intros m1 errs' ready' H1 Hl.
      destruct (classified_kframe fs i m0 m1 (setSource i m1) H1 (kframe_setSource i m1))
        as (R1 & L1 & P1 & O1 & S1).
      assert (Hlt1 : Forall (fun j => j < length (kustomizations (setSource i m1))) is).
      { eapply Forall_impl; [| exact Hlt']. intros j Hj. simpl in Hj. lia. }
      destruct (IH Hnd' _ _ _ _ _ _ Hlt1 Hl) as (R2 & L2 & P2 & T2).
      split; [congruence | split; [congruence | split]].
      - intros j. rewrite P2, P1. apply F0.
      - intros j. rewrite T2.
        destruct (Nat.eq_dec j i) as [-> | Hne].
        + destruct (in_dec Nat.eq_dec i is) as [Hin | _]; [contradiction |].
          destruct (in_dec Nat.eq_dec i (i :: is)) as [_ | Hn];
            [| exfalso; apply Hn; left; reflexivity].
          rewrite S1, R0. destruct (F0 i) as [-> ->]. reflexivity.
        + destruct (in_dec Nat.eq_dec j is) as [Hin | Hnin];
            destruct (in_dec Nat.eq_dec j (i :: is)) as [Hin' | Hnin'].
          * rewrite R1, R0, P1, (O1 j Hne). destruct (F0 j) as [-> ->]. reflexivity.
          * exfalso. apply Hnin'. right. exact Hin.
          * exfalso. destruct Hin' as [-> | Hin']; [apply Hne; reflexivity | contradiction].
          * rewrite (O1 j Hne). apply F0. }
    destruct (followFluxKustomization fuel fs i m0) as [m1 | e m1 |]; [| | discriminate];
      exact (Hstep _ _ _ Hc H).
Qed.

Lemma parseYaml_base (f : yfile) (r p : string) :
  Forall (fun k => ftype k = FluxFileType.Base) (fst (parseYaml f r p)).
Proof.
  induction f as [| [d |] f IH]; simpl; try constructor.
  destruct (parseYaml f r p) as [ks ss]. simpl in IH.
  destruct (String.eqb _ kustomizationApi); [constructor; [reflexivity | exact IH] |].
  destruct (String.eqb _ sourceApi); exact IH.
Qed.

(** ** C2 *)

(** C2 (amended). After the linking pass, each Manifest's classification
    is: Complete when there is no layering file next to it
    (kustomization.yaml, else kustomization.yml), when that file cannot be
    read, or when its first document does not decode; otherwise Complete
    when the Manifest's own file name is among its resources, else Patch
    when it is among its patch paths, else the classification it had
    before, which parseYaml sets to Base. *)
Theorem linkAll_classifies (fuel : nat) (fs : FS) (m m2 : Model) (errs : list string)
    (ready : bool) (i : nat)
    (Hl : linkAll fuel fs m = Some (m2, errs, ready)) (Hi : i < length (kustomizations m)) :
  ftype (kust_at m2 i)
  = spec_ftype fs (kust_path (m_root m) (filepath (kust_at m i))) (ftype (kust_at m i))
  /\ (forall f r p, Forall (fun k => ftype k = FluxFileType.Base) (fst (parseYaml f r p))).
Proof.
  split; [| apply parseYaml_base].
  unfold linkAll in Hl.
  assert (Hlt : Forall (fun j => j < length (kustomizations m)) (seq 0 (length (kustomizations m)))).
  { apply Forall_forall. intros j Hj. apply in_seq in Hj. lia. }
  destruct (link_loop_ftype fuel fs _ (seq_NoDup _ _) m [] true m2 errs ready Hlt Hl)
    as (_ & _ & _ & T).
  rewrite T. destruct (in_dec Nat.eq_dec i _) as [_ | Hn]; [reflexivity |].
  exfalso. apply Hn. apply in_seq. lia.
Qed.

Lemma linkAll_classifies_witness :
  exists m2 errs ready,
    linkAll 3 e2e_fs (crawl e2e_fs "/r") = Some (m2, errs, ready)
    /\ 0 < length (kustomizations (crawl e2e_fs "/r"))
    /\ (ftype (kust_at m2 0)
        = spec_ftype e2e_fs (kust_path (m_root (crawl e2e_fs "/r"))
                                       (filepath (kust_at (crawl e2e_fs "/r") 0)))
                     (ftype (kust_at (crawl e2e_fs "/r") 0))
        /\ (forall f r p, Forall (fun k => ftype k = FluxFileType.Base) (fst (parseYaml f r p)))).
Proof.
  destruct (linkAll 3 e2e_fs (crawl e2e_fs "/r")) as [[[m2 errs] ready] |] eqn:E.
  - exists m2, errs, ready. split; [reflexivity | split; [vm_compute; lia |]].
    apply (linkAll_classifies 3 e2e_fs _ m2 errs ready 0 E). vm_compute. lia.
  - vm_compute in E. discriminate.
Defined.

(** C2 (counterexample). apps/kustomization.yaml exists but its only
    document does not decode: the Manifest app in apps/app.yaml is neither
    listed as a resource nor stands without a layering file, yet the code
    classifies it Complete. *)
Lemma walk_undecodable_layering_complete :
  Stat c2_fs "/r/apps/kustomization.yaml" = Some (file [None])
  /\ ftype_view (walk 3 c2_fs (empty_model "/r")) = Some [("app", FluxFileType.Complete)].
Proof. split; vm_compute; reflexivity. Qed.

(** ** C5 *)

Lemma same_shape_refl (s : list (option cluster)) : same_shape s s.
Proof. split; [reflexivity |]. intros x c' H. exists c'. auto. Qed.

Lemma same_shape_trans (s1 s2 s3 : list (option cluster)) :
  same_shape s1 s2 -> same_shape s2 s3 -> same_shape s1 s3.
Proof.
  intros [L12 H12] [L23 H23]. split; [congruence |].
  intros x c3 E3. destruct (H23 x c3 E3) as (c2 & E2 & N2 & F2).
  destruct (H12 x c2 E2) as (c1 & E1 & N1 & F1).
  exists c1. repeat split; congruence.
Qed.

Lemma nth_Some_lt {A} (l : list (option A)) (x : nat) (c : A) :
  nth x l None = Some c -> x < length l.
Proof.
  intros H. destruct (Nat.lt_ge_cases x (length l)) as [| Hge]; auto.
  rewrite nth_overflow in H by exact Hge. discriminate.
Qed.

Lemma reparent_step_shape (fs : FS) (i j : nat) (s : list (option cluster)) :
  same_shape s (reparent_step fs i j s).
Proof.
  unfold reparent_step.
  destruct (Nat.eqb j i) eqn:Eji; [apply same_shape_refl |].
  destruct (nth i s None) as [ci |] eqn:Hi; [| apply same_shape_refl].
  destruct (nth j s None) as [cj |] eqn:Hj; [| apply same_shape_refl].
  destruct (Stat fs _) as [e |]; [| apply same_shape_refl].
  apply Nat.eqb_neq in Eji.
  split; [rewrite !upd_length; reflexivity |].
  intros x c' Ex.
  destruct (Nat.eq_dec x j) as [-> | Hxj].
  - rewrite upd_nth_same in Ex by (rewrite upd_length; eapply nth_Some_lt; eauto).
    discriminate.
  - rewrite upd_nth_other in Ex by congruence.
    destruct (Nat.eq_dec x i) as [-> | Hxi].
    + rewrite upd_nth_same in Ex by (eapply nth_Some_lt; eauto).
      injection Ex as <-. exists ci. auto.
    + rewrite upd_nth_other in Ex by congruence. exists c'. auto.
Qed.

Lemma no_absorb_shape (fs : FS) (a b a' b' : cluster) :
  c_filepath a' = c_filepath a -> c_name b' = c_name b ->
  no_absorb fs a b -> no_absorb fs a' b'.
Proof. unfold no_absorb. intros -> ->. auto. Qed.

(** After the outer iterations i < k, no live pair (a, b) with a < k
    passes the Stat check. *)
Lemma outer_prefix_invariant (fs : FS) (n k : nat) (s : list (option cluster)) :
  length s = n ->
  let s' := fold_left (fun slots i =>
               match nth i slots None with
               | None => slots
               | Some _ => fold_left (fun slots j => reparent_step fs i j slots) (seq 0 n) slots
               end) (seq 0 k) s in
  same_shape s s' /\
  forall a b ca cb, a < k -> a <> b -> nth a s' None = Some ca -> nth b s' None = Some cb ->
    no_absorb fs ca cb.
Proof.
  intros Hlen. induction k as [| k [Hsh IH]]; cbn zeta.
  - split; [apply same_shape_refl | intros; lia].
  - rewrite seq_S, fold_left_app. simpl.
    set (s1 := fold_left _ (seq 0 k) s) in *.
    assert (Hlen1 : length s1 = n) by (destruct Hsh as [L _]; congruence).
    destruct (nth k s1 None) as [ck |] eqn:Hk.
    + (* inner loop over j *)
      assert (Hin : forall jj,
        let s2 := fold_left (fun slots j => reparent_step fs k j slots) (seq 0 jj) s1 in
        same_shape s1 s2 /\
        forall b ck' cb, b < jj -> b <> k -> nth k s2 None = Some ck' ->
          nth b s2 None = Some cb -> no_absorb fs ck' cb).
      { induction jj as [| jj [Hsh2 IH2]]; cbn zeta.
        - split; [apply same_shape_refl | intros; lia].
        - rewrite seq_S, fold_left_app. simpl.
          set (s2 := fold_left _ (seq 0 jj) s1) in *.
          pose proof (reparent_step_shape fs k jj s2) as Hst.
          split; [eapply same_shape_trans; eauto |].
          intros b ck' cb Hb Hbk Ek Eb.
          destruct (Nat.eq_dec b jj) as [-> | Hbj].
          + revert Ek Eb. unfold reparent_step.
            replace (Nat.eqb jj k) with false by (symmetry; apply Nat.eqb_neq; auto).
            destruct (nth k s2 None) as [ck0 |] eqn:Hk0;
              [| intros E1 E2; cbv beta iota in E1, E2; congruence].
            destruct (nth jj s2 None) as [cj0 |] eqn:Hj0;
              [| intros E1 E2; cbv beta iota in E1, E2; congruence].
            destruct (Stat fs _) as [e |] eqn:Est.
            * intros _ Eb.
              rewrite upd_nth_same in Eb
                by (rewrite upd_length; eapply nth_Some_lt; eauto).
              discriminate.
            * intros Ek Eb. rewrite Hk0 in Ek. rewrite Hj0 in Eb.
              injection Ek as <-. injection Eb as <-. exact Est.
          + destruct Hst as [_ Hst].
            destruct (Hst k ck' Ek) as (ck0 & Ek0 & _ & Fk).
            destruct (Hst b cb Eb) as (cb0 & Eb0 & Nb & _).
            eapply no_absorb_shape; eauto. apply (IH2 b ck0 cb0); auto. lia. }
      destruct (Hin n) as [Hsh2 Hpair]. cbn zeta in Hsh2, Hpair.
      set (s2 := fold_left _ (seq 0 n) s1) in *.
      split; [eapply same_shape_trans; eauto |].
      intros a b ca cb Ha Hab Ea Eb.
      destruct (Nat.eq_dec a k) as [-> | Hak].
      * apply (Hpair b ca cb); auto.
        destruct Hsh2 as [L2 _]. rewrite <- Hlen1, <- L2. eapply nth_Some_lt; eauto.
      * destruct Hsh2 as [_ H2].
        destruct (H2 a ca Ea) as (ca0 & Ea0 & _ & Fa).
        destruct (H2 b cb Eb) as (cb0 & Eb0 & Nb & _).
        eapply no_absorb_shape; eauto. apply (IH a b ca0 cb0); auto. lia.
    + split; [exact Hsh |].
      intros a b ca cb Ha Hab Ea Eb.
      destruct (Nat.eq_dec a k) as [-> | Hak]; [congruence |].
      apply (IH a b ca cb); auto. lia.
Qed.

Lemma reparent_outer_no_absorb (fs : FS) (s : list (option cluster)) :
  forall a b ca cb, a <> b ->
    nth a (reparent_outer fs (length s) s) None = Some ca ->
    nth b (reparent_outer fs (length s) s) None = Some cb -> no_absorb fs ca cb.
Proof.
  intros a b ca cb Hab Ea Eb.
  destruct (outer_prefix_invariant fs (length s) (length s) s eq_refl) as [[L _] H].
  apply (H a b ca cb); auto.
  unfold reparent_outer in Ea. rewrite <- L. eapply nth_Some_lt; eauto.
Qed.

Lemma filter_some_pairs (fs : FS) (l : list (option cluster)) :
  (forall a b ca cb, a <> b -> nth a l None = Some ca -> nth b l None = Some cb ->
     no_absorb fs ca cb) ->
  ForallOrdPairs (fun x y => no_absorb fs x y /\ no_absorb fs y x) (filter_some l).
Proof.
  induction l as [| [c |] l IH]; intros H; simpl; [constructor | |].
  - constructor.
    + apply Forall_forall. intros y Hy.
      assert (Hb : exists b, nth b l None = Some y).
      { clear IH H. induction l as [| [c' |] l IHl]; simpl in Hy; [contradiction | |].
        - destruct Hy as [<- | Hy]; [exists 0; reflexivity |].
          destruct (IHl Hy) as [b Hb]. exists (S b). exact Hb.
        - destruct (IHl Hy) as [b Hb]. exists (S b). exact Hb. }
      destruct Hb as [b Hb]. split.
      * apply (H 0 (S b)); auto.
      * apply (H (S b) 0); auto.
    + apply IH. intros a b ca cb Hab. apply (H (S a) (S b)). congruence.
  - apply IH. intros a b ca cb Hab. apply (H (S a) (S b)). congruence.
Qed.

Lemma ForallOrdPairs_perm {A} (R : A -> A -> Prop) (l l' : list A) :
  (forall x y, R x y -> R y x) -> Permutation l l' ->
  ForallOrdPairs R l -> ForallOrdPairs R l'.
Proof.
  intros Hsym HP. induction HP; intros H; auto.
  - inversion H; subst. constructor; auto.
    eapply Permutation_Forall; eauto.
  - inversion H as [| ? ? Hy H1]; subst. inversion H1 as [| ? ? Hx H2]; subst.
    inversion Hy; subst.
    constructor; [constructor; auto |]. constructor; auto.
Qed.

Lemma insert_by_perm {A} (lt : A -> A -> bool) (x : A) (l : list A) :
  Permutation (insert_by lt x l) (x :: l).
Proof.
  induction l as [| y l IH]; simpl; auto.
  destruct (lt y x); auto.
  eapply perm_trans; [apply perm_skip, IH | apply perm_swap].
Qed.

Lemma sort_by_perm {A} (lt : A -> A -> bool) (l : list A) : Permutation (sort_by lt l) l.
Proof.
  induction l as [| x l IH]; simpl; auto.
  eapply perm_trans; [apply insert_by_perm | auto].
Qed.

Section SortBy.
Context {A : Type} (lt : A -> A -> bool).
Hypothesis lt_asym : forall a b, lt a b = true -> lt b a = false.

Let R (a b : A) : Prop := lt b a = false.

Lemma insert_by_sorted (x : A) (l : list A) : Sorted R l -> Sorted R (insert_by lt x l).
Proof.
  induction l as [| y l IH]; intros Hs; simpl; [auto |].
  apply Sorted_inv in Hs as [Hs Hhd].
  destruct (lt y x) eqn:Eyx.
  - constructor; [auto |].
    destruct l as [| z l]; simpl; [constructor; unfold R; auto |].
    inversion Hhd; subst.
    destruct (lt z x); constructor; unfold R; auto.
  - constructor; [constructor; auto | constructor; exact Eyx].
Qed.

Lemma sort_by_sorted (l : list A) : Sorted R (sort_by lt l).
Proof. induction l; simpl; auto using insert_by_sorted. Qed.

Lemma sort_by_id (l : list A) : Sorted R l -> sort_by lt l = l.
Proof.
  induction l as [| x l IH]; intros Hs; simpl; auto.
  apply Sorted_inv in Hs as [Hs Hhd]. rewrite (IH Hs).
  destruct l as [| y l]; simpl; auto.
  inversion Hhd; subst. unfold R in *. rewrite H0. reflexivity.
Qed.

End SortBy.

Lemma cluster_lt_asym (a b : cluster) : cluster_lt a b = true -> cluster_lt b a = false.
Proof.
  unfold cluster_lt, String.ltb. rewrite String.compare_antisym.
  destruct (String.compare (c_name b) (c_name a)); simpl; congruence.
Qed.

Lemma nth_map_Some {A} (l : list A) (i : nat) : nth i (map Some l) None = nth_error l i.
Proof. revert i; induction l; intros [| i]; simpl; auto. Qed.

Lemma ForallOrdPairs_nth {A} (P : A -> A -> Prop) (l : list A) (i j : nat) (x y : A) :
  ForallOrdPairs P l -> i < j -> nth_error l i = Some x -> nth_error l j = Some y -> P x y.
Proof.
  intros H. revert i j. induction H as [| a l Ha H IH]; intros [| i] [| j] Hij Ei Ej;
    simpl in *; try discriminate; try lia.
  - injection Ei as <-. eapply Forall_forall; eauto. eapply nth_error_In; eauto.
  - apply (IH i j); auto. lia.
Qed.

Lemma fold_left_fixed {A B} (f : A -> B -> A) (l : list B) (a : A) :
  (forall b, f a b = a) -> fold_left f l a = a.
Proof. intros H. induction l; simpl; [auto | rewrite H; auto]. Qed.

(** A root list with no live pair passing the Stat check is a fixed
    point of the slot loops. *)
Lemma reparent_outer_fixed (fs : FS) (l : list cluster) :
  ForallOrdPairs (fun x y => no_absorb fs x y /\ no_absorb fs y x) l ->
  reparent_outer fs (length l) (map Some l) = map Some l.
Proof.
  intros Hp.
  assert (Hstep : forall i j, reparent_step fs i j (map Some l) = map Some l).
  { intros i j. unfold reparent_step.
    destruct (Nat.eqb j i) eqn:Eji; [reflexivity |]. apply Nat.eqb_neq in Eji.
    rewrite !nth_map_Some.
    destruct (nth_error l i) as [ci |] eqn:Ei; [| reflexivity].
    destruct (nth_error l j) as [cj |] eqn:Ej; [| reflexivity].
    assert (Hn : no_absorb fs ci cj).
    { destruct (proj1 (Nat.lt_gt_cases i j) (not_eq_sym Eji)) as [Hlt | Hgt].
      - eapply ForallOrdPairs_nth in Hp; [exact (proj1 Hp) | exact Hlt | eauto | eauto].
      - eapply ForallOrdPairs_nth in Hp; [exact (proj2 Hp) | exact Hgt | eauto | eauto]. }
    unfold no_absorb in Hn. rewrite Hn. reflexivity. }
  unfold reparent_outer. apply fold_left_fixed. intros i.
  destruct (nth i (map Some l) None); [| reflexivity].
  apply fold_left_fixed. intros j. apply Hstep.
Qed.

Lemma filter_some_map_Some {A} (l : list A) : filter_some (map Some l) = l.
Proof. induction l; simpl; congruence. Qed.

(** C5. reparentClusters is idempotent: on the forest a first run
    returns (roots absorbed by the Stat check of <root dir>/<name>.yaml
    removed, the rest stably sorted by name), a second run absorbs
    nothing and keeps the order, so both runs give the same roots with
    the same subtrees.  The absorbed copy's children are the original
    children after len(children) nil slots (make with a length, then
    append); that does not affect idempotence. *)
Theorem reparentClusters_idempotent (fs : FS) (cs : list cluster) :
  reparentClusters fs (reparentClusters fs cs) = reparentClusters fs cs.
Proof.
  set (R0 := reparentClusters fs cs).
  assert (Hp : ForallOrdPairs (fun x y => no_absorb fs x y /\ no_absorb fs y x) R0).
  { unfold R0, reparentClusters.
    eapply ForallOrdPairs_perm; [| apply Permutation_sym, sort_by_perm |].
    - intros x y [H1 H2]. split; auto.
    - apply filter_some_pairs. intros a b ca cb Hab Ea Eb.
      rewrite <- (length_map Some cs) in Ea, Eb.
      exact (reparent_outer_no_absorb fs (map Some cs) a b ca cb Hab Ea Eb). }
  unfold reparentClusters at 1.
  rewrite (reparent_outer_fixed fs R0 Hp), filter_some_map_Some.
  apply (sort_by_id cluster_lt).
  unfold R0, reparentClusters. apply (sort_by_sorted cluster_lt cluster_lt_asym).
Qed.

(** ** C4 *)

Lemma str_app_assoc (a b c : string) : (a ++ b) ++ c = a ++ (b ++ c).
Proof. induction a; simpl; congruence. Qed.

Lemma str_app_nil_r (a : string) : a ++ "" = a.
Proof. induction a; simpl; congruence. Qed.

Lemma str_length_app (a b : string) : String.length (a ++ b) = String.length a + String.length b.
Proof. induction a; simpl; auto. Qed.

Lemma nosep_app (a b : string) : nosep (a ++ b) = nosep a && nosep b.
Proof. induction a; simpl; [reflexivity | rewrite IHa, andb_assoc; reflexivity]. Qed.

Lemma prefix_refl (s : string) : String.prefix s s = true.
Proof.
  induction s as [| c s IH]; [reflexivity |]. simpl.
  destruct (ascii_dec c c) as [_ | n]; [exact IH | contradiction n; reflexivity].
Qed.

Lemma substring_front (a r : string) :
  substring 0 (String.length (a ++ r) - String.length r) (a ++ r) = a.
Proof.
  rewrite str_length_app, Nat.add_sub. clear.
  induction a as [| c a IH]; simpl; [destruct r; reflexivity | rewrite IH; reflexivity].
Qed.

(** A separator-free pattern is a prefix of a segment followed by its end
    exactly when it is a prefix of the segment. *)
Lemma prefix_seg (p seg rest : string) :
  nosep p = true -> seg_end rest ->
  String.prefix p (seg ++ rest) = String.prefix p seg.
Proof.
  intros Hp Hr. revert seg; induction p as [| c p IH]; intros seg.
  - rewrite !prefix_nil. reflexivity.
  - simpl in Hp. apply andb_true_iff in Hp as [Hc Hp]. apply negb_true_iff in Hc.
    destruct seg as [| c' seg]; simpl.
    + destruct rest as [| c0 r]; [reflexivity |]. simpl in Hr. subst c0.
      cbn [String.prefix].
      destruct (ascii_dec c sep) as [E | _]; [| reflexivity].
      rewrite E in Hc. discriminate.
    + destruct (ascii_dec c c'); [apply IH; exact Hp | reflexivity].
Qed.

(** One alternative of (clusters|hub) tried at a segment start. *)
Lemma marker_branch (p g seg rest : string) :
  nosep p = true -> nosep seg = true -> seg_end rest ->
  (if String.prefix p (seg ++ rest)
   then after_marker g (drop (String.length p) (seg ++ rest)) else None)
  = if String.eqb seg p then after_marker g rest else None.
Proof.
  intros Hp Hs Hr. rewrite (prefix_seg p seg rest Hp Hr).
  destruct (String.prefix p seg) eqn:E.
  - destruct (prefix_inv _ _ E) as [t ->].
    rewrite str_app_assoc. unfold drop. rewrite substring_app.
    destruct t as [| c t].
    + rewrite str_app_nil_r, String.eqb_refl. reflexivity.
    + rewrite nosep_app in Hs. apply andb_true_iff in Hs as [_ Ht].
      simpl in Ht. apply andb_true_iff in Ht as [Hc _]. apply negb_true_iff in Hc.
      destruct (String.eqb_spec (p ++ String c t) p) as [Eq |].
      * apply (f_equal String.length) in Eq. rewrite str_length_app in Eq. simpl in Eq. lia.
      * simpl. rewrite Hc. reflexivity.
  - destruct (String.eqb_spec seg p) as [-> |]; [rewrite prefix_refl in E; discriminate |].
    reflexivity.
Qed.

Lemma grp1_seg (seg rest : string) :
  nosep seg = true -> seg_end rest ->
  grp1 (seg ++ rest) =
    if String.eqb seg "clusters" then after_marker "clusters" rest
    else if String.eqb seg "hub" then after_marker "hub" rest else None.
Proof.
  intros Hs Hr. unfold grp1.
  change 8 with (String.length "clusters"). change 3 with (String.length "hub").
  rewrite (marker_branch "clusters" "clusters" seg rest eq_refl Hs Hr).
  rewrite (marker_branch "hub" "hub" seg rest eq_refl Hs Hr).
  destruct (String.eqb_spec seg "clusters") as [-> |]; [| reflexivity].
  destruct (after_marker "clusters" rest); reflexivity.
Qed.

(** The regular expression tried at the start of a segment. *)
Lemma match_at_seg (seg rest : string) :
  nosep seg = true -> seg_end rest ->
  match_at (seg ++ rest) =
    match marker_of seg with Some g => after_marker g rest | None => None end.
Proof.
  intros Hs Hr. unfold match_at. induction seg as [| c seg IH].
  - destruct rest as [| c0 r]; [reflexivity |]. simpl in Hr. subst c0. reflexivity.
  - simpl in Hs. apply andb_true_iff in Hs as [Hc Hs]. apply negb_true_iff in Hc.
    change (String c seg ++ rest) with (String c (seg ++ rest)).
    simpl star_nonsep. rewrite Hc, (IH Hs).
    change (String c (seg ++ rest)) with (String c seg ++ rest).
    assert (Hs' : nosep (String c seg) = true) by (simpl; rewrite Hc, Hs; reflexivity).
    rewrite (grp1_seg _ _ Hs' Hr).
    change (marker_of (String c seg)) with
      (if String.eqb (String c seg) "clusters" then Some "clusters"
       else if String.eqb (String c seg) "hub" then Some "hub" else marker_of seg).
    destruct (String.eqb_spec (String c seg) "clusters") as [E |].
    + injection E as -> ->. reflexivity.
    + destruct (String.eqb_spec (String c seg) "hub") as [E |].
      * injection E as -> ->. reflexivity.
      * destruct (marker_of seg); [destruct (after_marker _ _) |]; reflexivity.
Qed.

Lemma star_nonsep_greedy (x rest : string) :
  nosep x = true -> seg_end rest -> star_nonsep (fun r => Some r) (x ++ rest) = Some rest.
Proof.
  intros Hx Hr. induction x as [| c x IH].
  - destruct rest as [| c0 r]; [reflexivity |]. simpl in Hr. subst c0. reflexivity.
  - simpl in Hx. apply andb_true_iff in Hx as [Hc Hx]. apply negb_true_iff in Hc.
    simpl. rewrite Hc, (IH Hx). reflexivity.
Qed.

Lemma after_marker_seg (g n rest : string) :
  nosep n = true -> seg_end rest ->
  after_marker g (String sep (n ++ rest)) = if String.eqb n "" then None else Some (g, n, rest).
Proof.
  intros Hn Hr. unfold after_marker. change (Ascii.eqb sep sep) with true. cbv iota.
  destruct n as [| c n].
  - destruct rest as [| c0 r]; [reflexivity |]. simpl in Hr. subst c0. reflexivity.
  - simpl in Hn. apply andb_true_iff in Hn as [Hc Hn]. apply negb_true_iff in Hc.
    change (String c n ++ rest) with (String c (n ++ rest)). unfold grp2. rewrite Hc.
    rewrite (star_nonsep_greedy n rest Hn Hr). cbn [option_map].
    change (String c (n ++ rest)) with (String c n ++ rest). rewrite substring_front.
    reflexivity.
Qed.

Lemma after_marker_end (g : string) : after_marker g "" = None.
Proof. reflexivity. Qed.

Lemma marker_tail (c : ascii) (seg rest : string) :
  (match marker_of (String c seg) with Some g => after_marker g rest | None => None end) = None ->
  (match marker_of seg with Some g => after_marker g rest | None => None end) = None.
Proof.
  change (marker_of (String c seg)) with
    (if String.eqb (String c seg) "clusters" then Some "clusters"
     else if String.eqb (String c seg) "hub" then Some "hub" else marker_of seg).
  destruct (String.eqb_spec (String c seg) "clusters") as [E |].
  - injection E as -> ->. reflexivity.
  - destruct (String.eqb_spec (String c seg) "hub") as [E |]; [injection E as -> ->|]; auto.
Qed.

Lemma findAll_nil (f : nat) : findAll f "" = [].
Proof. destruct f; reflexivity. Qed.

(** No match starts inside a segment that does not open one. *)
Lemma findAll_skip (seg rest : string) (f : nat) :
  nosep seg = true -> seg_end rest ->
  (match marker_of seg with Some g => after_marker g rest | None => None end) = None ->
  String.length seg <= f ->
  findAll f (seg ++ rest) = findAll (f - String.length seg) rest.
Proof.
  intros Hs Hr. revert f. induction seg as [| c seg IH]; intros f Hm Hf.
  - rewrite Nat.sub_0_r. reflexivity.
  - destruct f as [| f]; [simpl in Hf; lia |].
    assert (Hs' := Hs). simpl in Hs'. apply andb_true_iff in Hs' as [_ Hs'].
    change (String c seg ++ rest) with (String c (seg ++ rest)).
    simpl findAll. change (String c (seg ++ rest)) with (String c seg ++ rest).
    rewrite (match_at_seg _ _ Hs Hr), Hm.
    simpl String.length. rewrite ?Nat.sub_succ.
    apply IH; [exact Hs' | eapply marker_tail; exact Hm | simpl in Hf; lia].
Qed.

Lemma findAll_sep (f : nat) (r : string) : findAll (S f) (String sep r) = findAll f r.
Proof. reflexivity. Qed.

Lemma seg_decompose (s : string) :
  exists seg rest, s = seg ++ rest /\ nosep seg = true /\
                   (rest = "" \/ exists r, rest = String sep r).
Proof.
  induction s as [| c s IH].
  - exists "", "". auto.
  - destruct (Ascii.eqb c sep) eqn:Ec.
    + apply Ascii.eqb_eq in Ec. subst c. exists "", (String sep s). simpl. eauto.
    + destruct IH as (seg & rest & -> & Hs & Hr).
      exists (String c seg), rest. simpl. rewrite Ec, Hs. auto.
Qed.

Lemma seg_candidates_cons2 (s n : string) (rest : list string) :
  seg_candidates (s :: n :: rest) =
    match marker_of s with
    | Some g => if String.eqb n "" then seg_candidates (n :: rest) else (g, n) :: seg_candidates rest
    | None => seg_candidates (n :: rest)
    end.
Proof. reflexivity. Qed.

Lemma findAll_segments (len : nat) :
  forall s f, String.length s < len -> String.length s <= f ->
  findAll f s = seg_candidates (Split s).
Proof.
  induction len as [| len IH]; intros s f Hlen Hf; [lia |].
  destruct (seg_decompose s) as (seg & rest & -> & Hs & [-> | [r ->]]).
  - rewrite str_app_nil_r in *. rewrite (Split_nosep _ Hs).
    rewrite <- (str_app_nil_r seg) at 1.
    rewrite findAll_skip; [apply findAll_nil | exact Hs | exact I | | exact Hf].
    destruct (marker_of seg); reflexivity.
  - rewrite (Split_app_sep _ _ Hs).
    destruct (seg_decompose r) as (n & rest2 & -> & Hn & Hr2).
    assert (Hend2 : seg_end rest2) by (destruct Hr2 as [-> | [r2 ->]]; simpl; auto).
    rewrite str_length_app in Hlen, Hf. simpl in Hlen, Hf. rewrite str_length_app in Hlen, Hf.
    assert (Hsplit : Split (n ++ rest2) =
              n :: match rest2 with EmptyString => [] | String _ r2 => Split r2 end).
    { destruct Hr2 as [-> | [r2 ->]].
      - rewrite str_app_nil_r, (Split_nosep _ Hn). reflexivity.
      - rewrite (Split_app_sep _ _ Hn). reflexivity. }
    assert (Hrec : findAll (f - String.length seg) (String sep (n ++ rest2)) =
                   seg_candidates (Split (n ++ rest2))).
    { destruct (f - String.length seg) as [| f'] eqn:Ef; [lia |].
      rewrite findAll_sep. apply IH; rewrite str_length_app; lia. }
    rewrite Hsplit, seg_candidates_cons2, <- Hsplit.
    destruct (marker_of seg) as [g |] eqn:Em.
    + destruct (String.eqb_spec n "") as [En | En].
      * rewrite findAll_skip; [exact Hrec | exact Hs | reflexivity | | lia].
        rewrite Em. rewrite after_marker_seg by assumption.
        rewrite En. reflexivity.
      * destruct f as [| f]; [lia |].
        destruct seg as [| c seg]; [discriminate Em |].
        change (String c seg ++ String sep (n ++ rest2))
          with (String c (seg ++ String sep (n ++ rest2))).
        simpl findAll.
        change (String c (seg ++ String sep (n ++ rest2)))
          with (String c seg ++ String sep (n ++ rest2)).
        rewrite (match_at_seg _ (String sep (n ++ rest2)) Hs eq_refl), Em, (after_marker_seg g n rest2 Hn Hend2).
        destruct (String.eqb_spec n "") as [E' | _]; [contradiction |].
        f_equal. destruct Hr2 as [-> | [r2 ->]].
        -- apply findAll_nil.
        -- simpl String.length in Hf, Hlen.
           destruct f as [| f]; [lia |]. rewrite findAll_sep. apply IH; lia.
    + rewrite findAll_skip; [exact Hrec | exact Hs | reflexivity | | lia].
      rewrite Em. reflexivity.
Qed.

Lemma FindAllStringSubmatch_segments (s : string) :
  FindAllStringSubmatch s = seg_candidates (Split s).
Proof. apply (findAll_segments (S (String.length s))); lia. Qed.

(** C4. checkClusterPath's regular expression (?:[^/]*(clusters|hub))/([^/]+)
    reads the path segment by segment: after the exclusion of paths
    containing "/." or "bases/", the candidates of the root-relative path
    come from segments that END in clusters or hub (not only segments
    equal to them) followed by a non-empty segment n; the name is n,
    or for flux-system and default the captured group clusters or hub,
    with n trimmed from the end of the recorded path. *)
Theorem clusterCandidates_by_segments (root_ path0 : string) :
  clusterCandidates root_ path0 = clusterCandidates_segments root_ path0.
Proof.
  unfold clusterCandidates, clusterCandidates_segments. cbv zeta.
  rewrite FindAllStringSubmatch_segments. reflexivity.
Qed.

(** C4 (counterexample). github and mgmt-clusters are not segments equal
    to hub or clusters, yet both open a candidate; with a reserved name
    the candidate is the group clusters, not the segment mgmt-clusters. *)
Lemma clusterCandidates_suffix_markers :
  clusterCandidates "/r" "/r/github/foo" = Some (["foo"], "/r/github/foo")
  /\ clusterCandidates "/r" "/r/mgmt-clusters/flux-system" = Some (["clusters"], "/r/mgmt-clusters/").
Proof. split; vm_compute; reflexivity. Qed.

(** ** yq filters and Manifest content *)

Lemma mod2_SS (n : nat) : S (S n) mod 2 = n mod 2.
Proof.
  replace (S (S n)) with (n + 1 * 2) by lia. apply Nat.Div0.mod_add.
Qed.

Lemma mod2_even (n : nat) : Nat.eqb (n mod 2) 0 = Nat.even n.
Proof.
  induction n as [n IH] using (well_founded_induction lt_wf).
  destruct n as [| [| n]]; [reflexivity | reflexivity |].
  rewrite mod2_SS. change (Nat.even (S (S n))) with (Nat.even n). apply IH. lia.
Qed.

Lemma dot_key_cons (c : ascii) (k : string) :
  dot_key (String c k) = if Ascii.eqb c "." then String c k else "." ++ String c k.
Proof. destruct c as [[] [] [] [] [] [] [] []]; reflexivity. Qed.

Lemma even_succ_negb (i : nat) : Nat.even (S i) = negb (Nat.even i).
Proof. rewrite Nat.even_succ, <- Nat.negb_even. reflexivity. Qed.

Lemma filter_pairs_even : forall (opts : list string) (i : nat) (p : string) (acc : list string),
  Nat.even i = true -> Nat.even (length opts) = true ->
  Forall (fun kv => fst kv <> "") (opt_pairs opts) ->
  filter_pairs i p acc opts = Some (acc ++ map pair_expr (opt_pairs opts))%list.
Proof.
  fix IH 1. intros [| k [| v rest]] i p acc Hi Hl Hk.
  - simpl. rewrite app_nil_r. reflexivity.
  - discriminate Hl.
  - simpl in Hk. inversion Hk as [| ? ? Hk0 Hk']; subst.
    destruct k as [| c k']; [contradiction Hk0; reflexivity |].
    cbn [filter_pairs]. rewrite Hi, even_succ_negb, Hi. cbn [negb].
    rewrite (IH rest (S (S i))); [| exact Hi | exact Hl | exact Hk'].
    rewrite <- app_assoc. simpl. f_equal. f_equal. f_equal.
    unfold pair_expr. simpl fst. simpl snd. rewrite dot_key_cons, str_app_assoc. reflexivity.
Qed.

Lemma filter_pairs_panic : forall (pre post : list string) (i : nat) (p : string) (acc : list string),
  Nat.even (i + length pre) = true -> filter_pairs i p acc (pre ++ "" :: post) = None.
Proof.
  induction pre as [| v pre IH]; intros post i p acc H; simpl.
  - rewrite Nat.add_0_r in H. rewrite H. reflexivity.
  - assert (H' : Nat.even (S i + length pre) = true) by (simpl length in H; rewrite <- H; f_equal; lia).
    destruct (Nat.even i); [destruct v |]; auto.
Qed.

Lemma filter_pairs_SS : forall (opts : list string) (i : nat) (p : string) (acc : list string),
  filter_pairs (S (S i)) p acc opts = filter_pairs i p acc opts.
Proof.
  induction opts as [| v opts IH]; intros i p acc; [reflexivity |].
  cbn [filter_pairs]. change (Nat.even (S (S i))) with (Nat.even i).
  destruct (Nat.even i); [destruct v |]; rewrite ?IH; reflexivity.
Qed.

Lemma filter_pairs_pair (opts : list string) (i : nat) (p p' : string) (acc : list string) :
  Nat.even i = true -> filter_pairs i p acc opts = filter_pairs i p' acc opts.
Proof. intros H. destruct opts; simpl; rewrite ?H; reflexivity. Qed.

Lemma Filter_select_gen (Evaluate : evaluator) (input : string) (opts : list string) :
  Nat.even (length opts) = true -> Forall (fun kv => fst kv <> "") (opt_pairs opts) ->
  Yaml.Filter Evaluate input opts
  = let '(out, err) := Evaluate ("select(" ++ StringsJoin (map pair_expr (opt_pairs opts)) " and "
                                 ++ ")") input in
    FOut out err.
Proof.
  intros Heven Hkeys. unfold Yaml.Filter. rewrite mod2_even, Heven. simpl negb. cbv iota.
  rewrite (filter_pairs_even opts 0 "" [] eq_refl Heven Hkeys). reflexivity.
Qed.

(** The expression Filter hands to yq, for an even number of options
    whose keys are not empty: the pairs "key == "value"", keys given a
    leading dot when they lack one, joined by "and" under select. *)
Theorem Filter_select (Evaluate : evaluator) (input : string) (opts : list string)
    (Heven : Nat.even (length opts) = true)
    (Hkeys : Forall (fun kv => fst kv <> "") (opt_pairs opts)) :
  Yaml.Filter Evaluate input opts
  = let '(out, err) := Evaluate ("select(" ++ StringsJoin (map pair_expr (opt_pairs opts)) " and "
                                 ++ ")") input in
    FOut out err.
Proof. exact (Filter_select_gen Evaluate input opts Heven Hkeys). Qed.

Lemma Filter_select_witness :
  Nat.even (length ["metadata.name"; "app"; ".kind"; "Kustomization"]) = true
  /\ Forall (fun kv => fst kv <> "") (opt_pairs ["metadata.name"; "app"; ".kind"; "Kustomization"])
  /\ Yaml.Filter echo_eval "" ["metadata.name"; "app"; ".kind"; "Kustomization"]
     = let '(out, err) := echo_eval ("select(" ++ StringsJoin (map pair_expr
                             (opt_pairs ["metadata.name"; "app"; ".kind"; "Kustomization"]))
                             " and " ++ ")") "" in FOut out err.
Proof.
  assert (H1 : Nat.even (length ["metadata.name"; "app"; ".kind"; "Kustomization"]) = true)
    by reflexivity.
  assert (H2 : Forall (fun kv => fst kv <> "")
                 (opt_pairs ["metadata.name"; "app"; ".kind"; "Kustomization"]))
    by (repeat constructor; discriminate).
  split; [exact H1 | split; [exact H2 |]].
  exact (Filter_select echo_eval "" _ H1 H2).
Defined.

(** An empty key at a key position panics (v[0] out of range) once the
    number of options is even, before yq is called. *)
Theorem Filter_empty_key_panics (Evaluate : evaluator) (input : string) (pre post : list string)
    (Heven : Nat.even (length (pre ++ "" :: post)) = true)
    (Hpos : Nat.even (length pre) = true) :
  Yaml.Filter Evaluate input (pre ++ "" :: post) = FPanic.
Proof.
  unfold Yaml.Filter. rewrite mod2_even, Heven. simpl negb. cbv iota.
  rewrite filter_pairs_panic; [reflexivity | exact Hpos].
Qed.

Lemma Filter_empty_key_panics_witness :
  Nat.even (length (["metadata.name"; "app"] ++ "" :: ["default"])) = true
  /\ Nat.even (length ["metadata.name"; "app"]) = true
  /\ Yaml.Filter echo_eval "" (["metadata.name"; "app"] ++ "" :: ["default"]) = FPanic.
Proof.
  assert (H1 : Nat.even (length (["metadata.name"; "app"] ++ "" :: ["default"])) = true)
    by reflexivity.
  assert (H2 : Nat.even (length ["metadata.name"; "app"]) = true) by reflexivity.
  split; [exact H1 | split; [exact H2 |]].
  exact (Filter_empty_key_panics echo_eval "" _ _ H1 H2).
Defined.

(** pkg/kustomize's FilterKustomization and traverse.go's own
    filterKustomization give the same result on every input and every
    list of options, errors and panics included. *)
Theorem FilterKustomization_copies_agree (Evaluate : evaluator) (input : string)
    (opts : list string) :
  FilterKustomization Evaluate input opts = filterKustomization Evaluate input opts.
Proof.
  unfold FilterKustomization, filterKustomization, Yaml.Filter.
  change (length (".kind" :: "Kustomization" :: opts)) with (S (S (length opts))).
  rewrite mod2_SS. destruct (negb _); [reflexivity |].
  change (filter_pairs 0 "" [] (".kind" :: "Kustomization" :: opts))
    with (filter_pairs 2 (".kind == " ++ dq ++ "Kustomization" ++ dq)
            [".kind == " ++ dq ++ "Kustomization" ++ dq] opts).
  rewrite filter_pairs_SS, (filter_pairs_pair opts 0 _ "" _ eq_refl). reflexivity.
Qed.

Lemma FilterKustomization_name (Evaluate : evaluator) (content name ns : string) :
  FilterKustomization Evaluate content
    (["metadata.name"; name] ++ (if String.eqb ns "" then [] else ["metadata.namespace"; ns]))
  = let '(out, err) := Evaluate (content_selector name ns) content in FOut out err.
Proof.
  unfold FilterKustomization, content_selector.
  destruct (String.eqb ns "");
    (rewrite Filter_select_gen; [| reflexivity | simpl; repeat constructor; discriminate]);
    cbv [map opt_pairs StringsJoin pair_expr dot_key dq fst snd app];
    simpl; rewrite ?str_app_assoc; simpl; rewrite ?str_app_assoc; reflexivity.
Qed.

(** What GetContent shows for a Manifest: nothing for a Base; for a
    Complete one, its file at GetPath filtered by yq down to the
    documents of kind Kustomization with its name and, when it has one,
    its namespace; for a Patch, the kustomize build of its layering
    file's directory filtered the same way.  A read, build or yq error
    shows as the error's text; it never panics. *)
Theorem GetContent_selects (cwd : string) (read ExecKustomize : string -> readResult)
    (Evaluate : evaluator) (k : shortApi) :
  GetContent cwd read ExecKustomize Evaluate k
  = Some (match ftype k with
          | FluxFileType.Base => ""
          | FluxFileType.Complete =>
              match read (GetPath cwd k) with
              | RErr e => e
              | ROk c => eval_text Evaluate (content_selector (GetName k) (GetNamespace k)) c
              end
          | FluxFileType.Patch =>
              match ExecKustomize (Dir (kustomize k)) with
              | RErr e => e
              | ROk c => eval_text Evaluate (content_selector (GetName k) (GetNamespace k)) c
              end
          end).
Proof.
  unfold GetContent, readFile, eval_text.
  destruct (ftype k); [reflexivity | destruct (ExecKustomize _) as [c | e] | destruct (read _) as [c | e]];
    try reflexivity;
    rewrite FilterKustomization_name; destruct (Evaluate _ c) as [o [e |]]; reflexivity.
Qed.

(** ** Absolute paths *)

Lemma IsAbs_cons (a : string) : IsAbs a = true -> exists a', a = "/" ++ a'.
Proof. intros H. exact (prefix_inv "/" a H). Qed.

Lemma IsAbs_app (a b : string) : IsAbs a = true -> IsAbs (a ++ b) = true.
Proof.
  intros H. destruct (IsAbs_cons a H) as [a' ->]. rewrite str_app_assoc. apply IsAbs_slash.
Qed.

Lemma IsAbs_nonempty (a : string) : IsAbs a = true -> a <> "".
Proof. intros H ->. discriminate H. Qed.

Lemma IsAbs_Clean (p : string) : IsAbs p = true -> IsAbs (Clean p) = true.
Proof.
  intros H. unfold Clean.
  destruct (String.eqb p "") eqn:E; [apply String.eqb_eq in E; subst; discriminate H |].
  rewrite H. apply IsAbs_slash.
Qed.

Lemma IsAbs_Abs (cwd p : string) : IsAbs cwd = true -> IsAbs (Abs cwd p) = true.
Proof.
  intros H. unfold Abs, Join.
  destruct (IsAbs p) eqn:Ep; [apply IsAbs_Clean; exact Ep |].
  destruct (String.eqb cwd "") eqn:E; [apply String.eqb_eq in E; subst; discriminate H |].
  apply IsAbs_Clean, IsAbs_app, H.
Qed.

Lemma IsAbs_eqb (a b : string) : IsAbs a = false -> IsAbs b = true -> String.eqb a b = false.
Proof.
  intros Ha Hb. apply String.eqb_neq. intros ->. rewrite Ha in Hb. discriminate.
Qed.

(** With an absolute working directory, as manager.New's os.Getwd()
    gives, the path GetPath reports for a Manifest, and the build path
    GetAbsoluteSpecPath reports for one that has a spec.path, are
    absolute and already clean. *)
Theorem GetPath_absolute_clean (cwd : string) (k : shortApi) (Hcwd : IsAbs cwd = true) :
  IsAbs (GetPath cwd k) = true /\ Clean (GetPath cwd k) = GetPath cwd k
  /\ (forall p, Path (Spec k) = Some p ->
      IsAbs (GetAbsoluteSpecPath cwd k) = true
      /\ Clean (GetAbsoluteSpecPath cwd k) = GetAbsoluteSpecPath cwd k).
Proof.
  pose proof (IsAbs_nonempty cwd Hcwd) as Hne. unfold GetPath, GetAbsoluteSpecPath.
  split; [apply IsAbs_Abs, Hcwd | split; [apply Abs_clean, Hne |]].
  intros p ->. split; [apply IsAbs_Abs, Hcwd | apply Abs_clean, Hne].
Qed.

Lemma GetPath_absolute_clean_witness :
  IsAbs "/r" = true
  /\ GetPath "/r" prod_apps = "/r/clusters/prod/apps.yaml"
  /\ GetAbsoluteSpecPath "/r" prod_apps = "/r/apps/overlay"
  /\ (IsAbs (GetPath "/r" prod_apps) = true
      /\ Clean (GetPath "/r" prod_apps) = GetPath "/r" prod_apps
      /\ (forall p, Path (Spec prod_apps) = Some p ->
          IsAbs (GetAbsoluteSpecPath "/r" prod_apps) = true
          /\ Clean (GetAbsoluteSpecPath "/r" prod_apps) = GetAbsoluteSpecPath "/r" prod_apps)).
Proof.
  assert (H : IsAbs "/r" = true) by reflexivity.
  split; [exact H | split; [vm_compute; reflexivity | split; [vm_compute; reflexivity |]]].
  exact (GetPath_absolute_clean "/r" prod_apps H).
Defined.

(** ** cluster.Len after reparenting *)

Lemma Len_unfold (c : cluster) : Len c = Len_children (c_children c) (length (c_children c)).
Proof. destruct c; reflexivity. Qed.

Lemma Len_children_cons (x : option cluster) (l : list (option cluster)) (acc : nat) :
  Len_children (x :: l) acc
  = match x with
    | None => None
    | Some ch => match Len ch with Some n => Len_children l (acc + n) | None => None end
    end.
Proof. reflexivity. Qed.

Lemma Len_children_nil_child (l1 l2 : list (option cluster)) (acc : nat) :
  Len_children (l1 ++ None :: l2) acc = None.
Proof.
  revert acc; induction l1 as [| x l1 IH]; intros acc; [reflexivity |].
  simpl app. rewrite Len_children_cons. destruct x as [ch |]; [| reflexivity].
  destruct (Len ch); [apply IH | reflexivity].
Qed.

Lemma Len_children_bad_child (l1 l2 : list (option cluster)) (ch : cluster) (acc : nat) :
  Len ch = None -> Len_children (l1 ++ Some ch :: l2) acc = None.
Proof.
  intros H. revert acc; induction l1 as [| x l1 IH]; intros acc.
  - simpl app. rewrite Len_children_cons, H. reflexivity.
  - simpl app. rewrite Len_children_cons. destruct x as [c |]; [| reflexivity].
    destruct (Len c); [apply IH | reflexivity].
Qed.

(** When reparentClusters moves a cluster [cj] that has children under
    [ci], the copy it makes starts with len(cj.children) nil pointers,
    so Len on the receiving cluster (which View sums over the roots)
    dereferences nil and panics; the moved slot is emptied. *)
Theorem reparent_step_Len_panics (fs : FS) (i j : nat) (slots : list (option cluster))
    (ci cj : cluster) (Hij : i <> j) (Hi : nth i slots None = Some ci)
    (Hj : nth j slots None = Some cj)
    (Hstat : Stat fs (Join (c_filepath ci) (c_name cj) ++ ".yaml") <> None)
    (Hch : c_children cj <> []) :
  exists ci', nth i (reparent_step fs i j slots) None = Some ci'
    /\ c_name ci' = c_name ci /\ Len ci' = None
    /\ nth j (reparent_step fs i j slots) None = None.
Proof.
  unfold reparent_step.
  destruct (Nat.eqb j i) eqn:E; [apply Nat.eqb_eq in E; congruence |].
  rewrite Hi, Hj. destruct (Stat fs _) as [e |] eqn:Es; [| contradiction].
  pose proof (nth_Some_lt _ _ _ Hi) as Hli. pose proof (nth_Some_lt _ _ _ Hj) as Hlj.
  eexists. split; [| split; [| split]].
  - rewrite upd_nth_other by congruence. rewrite upd_nth_same by exact Hli. reflexivity.
  - reflexivity.
  - rewrite Len_unfold. simpl c_children.
    apply Len_children_bad_child. rewrite Len_unfold. simpl c_children.
    destruct (c_children cj) as [| x l]; [contradiction |].
    simpl repeat. apply (Len_children_nil_child []).
  - rewrite upd_nth_same by (rewrite upd_length; exact Hlj). reflexivity.
Qed.

Lemma reparent_step_Len_panics_witness :
  0 <> 1 /\ nth 0 [Some mgmt_cluster; Some a_cluster] None = Some mgmt_cluster
  /\ nth 1 [Some mgmt_cluster; Some a_cluster] None = Some a_cluster
  /\ Stat reparent_fs (Join (c_filepath mgmt_cluster) (c_name a_cluster) ++ ".yaml") <> None
  /\ c_children a_cluster <> []
  /\ exists ci', nth 0 (reparent_step reparent_fs 0 1 [Some mgmt_cluster; Some a_cluster]) None
                 = Some ci'
       /\ c_name ci' = c_name mgmt_cluster /\ Len ci' = None
       /\ nth 1 (reparent_step reparent_fs 0 1 [Some mgmt_cluster; Some a_cluster]) None = None.
Proof.
  assert (H1 : 0 <> 1) by discriminate.
  assert (H2 : nth 0 [Some mgmt_cluster; Some a_cluster] None = Some mgmt_cluster)
    by reflexivity.
  assert (H3 : nth 1 [Some mgmt_cluster; Some a_cluster] None = Some a_cluster) by reflexivity.
  assert (H4 : Stat reparent_fs (Join (c_filepath mgmt_cluster) (c_name a_cluster) ++ ".yaml")
               <> None) by (vm_compute; discriminate).
  assert (H5 : c_children a_cluster <> []) by discriminate.
  split; [exact H1 | split; [exact H2 | split; [exact H3 | split; [exact H4 | split; [exact H5 |]]]]].
  exact (reparent_step_Len_panics reparent_fs 0 1 _ _ _ H1 H2 H3 H4 H5).
Defined.

(** ** No Manifest is ever linked *)

Lemma Forall_upd {A} (P : A -> Prop) (f : A -> A) (l : list A) (i : nat) :
  (forall x, P x -> P (f x)) -> Forall P l -> Forall P (upd l i f).
Proof.
  intros Hf. revert i; induction l as [| x l IH]; intros [| i] H; simpl; auto;
    inversion H; subst; constructor; auto.
Qed.

Lemma Forall_nth_d {A} (P : A -> Prop) (l : list A) (d : A) (i : nat) :
  Forall P l -> P d -> P (nth i l d).
Proof.
  intros H Hd. destruct (Nat.lt_ge_cases i (length l)) as [Hlt | Hge].
  - rewrite Forall_forall in H. apply H, nth_In, Hlt.
  - rewrite nth_overflow by exact Hge. exact Hd.
Qed.

Lemma unbound_dummy : unbound dummy_api.
Proof. repeat split. Qed.

Lemma unbound_kust_at (r : string) (m : Model) (i : nat) :
  unbound_model r m -> unbound (kust_at m i).
Proof. intros [_ H]. unfold kust_at. apply Forall_nth_d; [exact H | exact unbound_dummy]. Qed.

Lemma unbound_set_kust (r : string) (m : Model) (i : nat) (f : shortApi -> shortApi) :
  (forall k, unbound k -> unbound (f k)) -> unbound_model r m -> unbound_model r (set_kust m i f).
Proof. intros Hf [Hr H]. split; [exact Hr | apply Forall_upd; assumption]. Qed.

Lemma unbound_set_source (r : string) (m : Model) (i : nat) (f : shortSource -> shortSource) :
  unbound_model r m -> unbound_model r (set_source m i f).
Proof. intros H. exact H. Qed.

Lemma bind_kusts_noop (r : string) (index : nat) (rp : string) (m : Model) :
  unbound_model r m -> IsAbs rp = true -> bind_kusts index rp m = m.
Proof.
  intros Hm Hrp. unfold bind_kusts. apply fold_left_fixed. intros j.
  destruct (unbound_kust_at r m j Hm) as [Hrel _].
  rewrite (IsAbs_eqb _ _ Hrel Hrp). reflexivity.
Qed.

Lemma bind_resource_unbound (r : string) (index : nat) (rp : string) (m : Model) :
  unbound_model r m -> IsAbs rp = true -> unbound_model r (bind_resource index rp m).
Proof.
  intros Hm Hrp. unfold bind_resource. rewrite (bind_kusts_noop r index rp m Hm Hrp).
  unfold bind_sources. apply (fold_left_inv (unbound_model r)); [| exact Hm].
  intros a s Ha. destruct (String.eqb _ _); [| exact Ha].
  apply unbound_set_kust; [intros k Hk; exact Hk | apply unbound_set_source, Ha].
Qed.

Lemma res_loop_unbound (fs : FS) (r : string) (index : nat) (path : string)
    (rec : string -> Model -> option Model) (rs : list string) (m m' : Model) (b : bool) :
  IsAbs r = true ->
  (forall p a a', unbound_model r a -> rec p a = Some a' -> unbound_model r a') ->
  unbound_model r m -> res_loop fs index path rec rs m = Some (m', b) -> unbound_model r m'.
Proof.
  intros Hr Hrec. revert m; induction rs as [| x rs IH]; intros m Hm H; simpl in H.
  - injection H as <- _. exact Hm.
  - assert (Habs : IsAbs (Abs (m_root m) (Join path x)) = true)
      by (destruct Hm as [-> _]; apply IsAbs_Abs, Hr).
    destruct (Stat fs _) as [[| c] |].
    + destruct (rec _ m) eqn:E; [| discriminate]. injection H as <- _. exact (Hrec _ _ _ Hm E).
    + exact (IH _ (bind_resource_unbound r index _ m Hm Habs) H).
    + exact (IH _ (bind_resource_unbound r index _ m Hm Habs) H).
Qed.

Lemma docs_loop_unbound (fs : FS) (r : string) (index : nat) (path : string)
    (rec : string -> Model -> option Model) (ds : yfile) (m m' : Model) :
  IsAbs r = true ->
  (forall p a a', unbound_model r a -> rec p a = Some a' -> unbound_model r a') ->
  unbound_model r m -> docs_loop fs index path rec ds m = Some m' -> unbound_model r m'.
Proof.
  intros Hr Hrec. revert m; induction ds as [| [d |] ds IH]; intros m Hm H; simpl in H;
    try (injection H as <-; exact Hm).
  destruct (res_loop fs index path rec (y_resources d) m) as [[m1 [|]] |] eqn:E; [| | discriminate].
  - injection H as <-. exact (res_loop_unbound _ _ _ _ _ _ _ _ _ Hr Hrec Hm E).
  - exact (IH _ (res_loop_unbound _ _ _ _ _ _ _ _ _ Hr Hrec Hm E) H).
Qed.

Lemma followKustomization_unbound (fs : FS) (r : string) (index : nat) (fuel : nat) :
  IsAbs r = true -> forall path m m', unbound_model r m ->
  followKustomization fuel fs index path m = Some m' -> unbound_model r m'.
Proof.
  intros Hr. induction fuel as [| f IH]; intros path m m' Hm H; simpl in H; [discriminate |].
  destruct (ReadFile fs (Clean path)).
  - exact (docs_loop_unbound _ _ _ _ _ _ _ _ Hr IH Hm H).
  - injection H as <-. exact Hm.
Qed.

Lemma first_kust_at_abs (p : string) (ks : list shortApi) (n : nat) :
  Forall unbound ks -> IsAbs p = true -> first_kust_at p ks n = None.
Proof.
  intros H Hp. revert n; induction H as [| k ks [Hk _] _ IH]; intros n; simpl; [reflexivity |].
  rewrite String.eqb_sym, (IsAbs_eqb _ _ Hk Hp). apply IH.
Qed.

Lemma set_source_parents_unbound (r : string) (index : nat) (path : string) (m : Model) :
  unbound_model r m -> unbound_model r (set_source_parents index path m).
Proof.
  intros Hm. unfold set_source_parents. apply (fold_left_inv (unbound_model r)); [| exact Hm].
  intros a s Ha. destruct (String.eqb _ _); [apply unbound_set_source |]; exact Ha.
Qed.

Lemma pathFn_unbound (fuel : nat) (fs : FS) (r : string) (index : nat) (ev : walkEvent)
    (m : Model) :
  IsAbs r = true -> abs_event ev -> unbound_model r m ->
  step_holds (unbound_model r) (pathFn fuel fs index ev m).
Proof.
  intros Hr Hev Hm. destruct ev as [d | p]; simpl; [| exact Hm].
  simpl in Hev. destruct (String.eqb _ kustomizationName).
  - destruct (followKustomization fuel fs index (de_path d) m) eqn:E; simpl; [| exact I].
    exact (followKustomization_unbound fs r index fuel Hr _ _ _ Hm E).
  - destruct (de_regular d); [| exact Hm].
    rewrite (first_kust_at_abs _ _ 0 (proj2 Hm) Hev). apply set_source_parents_unbound, Hm.
Qed.

Lemma run_walk_holds (P : Model -> Prop) (Q : walkEvent -> Prop)
    (fn : walkEvent -> Model -> step_result) (evs : list walkEvent) (m : Model) :
  Forall Q evs -> (forall ev a, Q ev -> P a -> step_holds P (fn ev a)) -> P m ->
  step_holds P (run_walk fn evs m).
Proof.
  intros HQ Hfn. revert m; induction HQ as [| ev evs Hev _ IH]; intros m Hm; simpl; [exact Hm |].
  specialize (Hfn ev m Hev Hm). destruct (fn ev m); simpl in *; auto.
Qed.

Lemma followFluxKustomization_unbound (fuel : nat) (fs : FS) (r : string) (index : nat)
    (m : Model) :
  IsAbs r = true -> (forall p, IsAbs p = true -> Forall abs_event (fs_walk fs p)) ->
  unbound_model r m -> step_holds (unbound_model r) (followFluxKustomization fuel fs index m).
Proof.
  intros Hr Hsub Hm. unfold followFluxKustomization.
  destruct (GetKustomization fs _) as [fp kust].
  match goal with |- context[set_kust m index ?g] => set (m1 := set_kust m index g) end.
  assert (H1 : unbound_model r m1) by (apply unbound_set_kust; [intros k Hk; exact Hk | exact Hm]).
  destruct (Path (Spec (kust_at m1 index))) as [p |] eqn:Ep; [| exact H1].
  apply (run_walk_holds _ abs_event).
  - apply Hsub. unfold GetAbsoluteSpecPath. rewrite Ep. destruct H1 as [-> _]. apply IsAbs_Abs, Hr.
  - intros ev a Hev Ha. exact (pathFn_unbound fuel fs r index ev a Hr Hev Ha).
  - exact H1.
Qed.

Lemma setSource_unbound (r : string) (index : nat) (m : Model) :
  unbound_model r m -> unbound_model r (setSource index m).
Proof.
  intros Hm. unfold setSource. destruct (Source _) as [rf |]; [| exact Hm].
  apply (fold_left_inv (unbound_model r)); [| exact Hm].
  intros a s Ha. cbv zeta.
  repeat match goal with |- context[if ?c then _ else _] => destruct c end; try exact Ha.
  apply unbound_set_kust; [intros k Hk; exact Hk | apply unbound_set_source, Ha].
Qed.

Lemma link_loop_unbound (fuel : nat) (fs : FS) (r : string) (is : list nat) :
  IsAbs r = true -> (forall p, IsAbs p = true -> Forall abs_event (fs_walk fs p)) ->
  forall m errs ready m2 errs2 ready2, unbound_model r m ->
  link_loop fuel fs is m errs ready = Some (m2, errs2, ready2) -> unbound_model r m2.
Proof.
  intros Hr Hsub. induction is as [| i is IH]; intros m errs ready m2 errs2 ready2 Hm H; simpl in H.
  - injection H as <- _ _. exact Hm.
  - set (m0 := set_kust m i (fun k => with_children k [])) in H.
    assert (H0 : unbound_model r m0).
    { apply unbound_set_kust; [| exact Hm]. intros k (Ha & _ & Hp). repeat split; assumption. }
    pose proof (followFluxKustomization_unbound fuel fs r i m0 Hr Hsub H0) as Hf.
    destruct (followFluxKustomization fuel fs i m0) as [m1 | e m1 |]; [| | discriminate];
      exact (IH _ _ _ _ _ _ (setSource_unbound r i m1 Hf) H).
Qed.

Lemma parseYaml_unbound (f : yfile) (r p : string) :
  IsAbs (TrimPrefix p (r ++ "/")) = false -> Forall unbound (fst (parseYaml f r p)).
Proof.
  intros Hp. induction f as [| [d |] f IH]; simpl; try constructor.
  destruct (parseYaml f r p) as [ks ss]. simpl in IH.
  destruct (String.eqb _ kustomizationApi); [constructor; [| exact IH] |].
  - split; [exact Hp | split; reflexivity].
  - destruct (String.eqb _ sourceApi); exact IH.
Qed.

Lemma checkClusterPath_kusts (path : string) (m : Model) :
  kustomizations (checkClusterPath path m) = kustomizations m.
Proof. unfold checkClusterPath. destruct (clusterCandidates _ _) as [[n p] |]; reflexivity. Qed.

Lemma checkClusterPath_unbound (r path : string) (m : Model) :
  unbound_model r m -> unbound_model r (checkClusterPath path m).
Proof.
  intros [Hr H]. split; [rewrite checkClusterPath_root; exact Hr | rewrite checkClusterPath_kusts; exact H].
Qed.

Lemma rootFn_unbound (fs : FS) (r : string) (ev : walkEvent) (m : Model) :
  Stat fs r = Some EDir -> root_event r ev -> unbound_model r m ->
  step_holds (unbound_model r) (rootFn fs ev m).
Proof.
  intros Hdir Hev Hm. destruct ev as [d | p]; simpl; [| exact Hm].
  simpl in Hev. destruct (Stat fs (de_path d)) as [[| c] |] eqn:Es; simpl;
    try (apply checkClusterPath_unbound, Hm).
  destruct (_ || _); [| exact Hm].
  unfold parseYamlFromFile. destruct Hm as [Hr Hk]. rewrite Hr.
  assert (Hrel : IsAbs (TrimPrefix (de_path d) (r ++ "/")) = false).
  { unfold rel_under in Hev. apply orb_true_iff in Hev. destruct Hev as [E | E].
    - apply String.eqb_eq in E. rewrite E, Hdir in Es. discriminate.
    - apply negb_true_iff, E. }
  destruct (ReadFile fs (Clean (de_path d))) as [f |].
  - pose proof (parseYaml_unbound f r (de_path d) Hrel) as Hp.
    destruct (parseYaml f r (de_path d)) as [ks ss]. split; [reflexivity |].
    apply Forall_app. split; assumption.
  - split; [reflexivity | rewrite app_nil_r; exact Hk].
Qed.

(** walk leaves every Manifest unbound under an absolute root. *)
Lemma walk_unbound (fuel : nat) (fs : FS) (r : string) (m : Model)
    (errs : list string) (ready : bool)
    (Hr : IsAbs r = true) (Hdir : Stat fs r = Some EDir)
    (Hroot : Forall (root_event r) (fs_walk fs r))
    (Hsub : forall p, IsAbs p = true -> Forall abs_event (fs_walk fs p))
    (Hw : walk fuel fs (empty_model r) = Ready m errs ready) :
  Forall (fun k => children k = [] /\ parent k = None) (kustomizations m).
Proof.
  unfold walk in Hw. simpl m_root in Hw.
  pose proof (run_walk_holds (unbound_model r) (root_event r) (rootFn fs) (fs_walk fs r)
                (empty_model r) Hroot (fun ev a Hev Ha => rootFn_unbound fs r ev a Hdir Hev Ha)
                (conj eq_refl (Forall_nil _))) as H1.
  destruct (run_walk (rootFn fs) (fs_walk fs r) (empty_model r)) as [m1 | e m1 |];
    try discriminate.
  simpl in H1. destruct (kustomizations m1); [discriminate |].
  unfold linkAll in Hw.
  destruct (link_loop fuel fs _ m1 [] true) as [[[m2 errs2] ready2] |] eqn:E2; [| discriminate].
  injection Hw as <- _ _. simpl.
  destruct (link_loop_unbound fuel fs r _ Hr Hsub _ _ _ _ _ _ H1 E2) as [_ H2].
  apply (Permutation_Forall (Permutation_sym (sort_by_perm kust_lt _))).
  eapply Forall_impl; [| exact H2]. intros k (_ & Hc & Hp). split; assumption.
Qed.

(** For a repository under an absolute root whose walk reports the root
    and paths below it, and whose walks from absolute directories report
    absolute paths (as fastwalk does), walk links no Manifest at all:
    every Manifest of its result has no children and no parent.  The
    Manifests hold their file paths relative to the root, while every
    path compared with them (a resolved resource, a walked file) is
    absolute. *)
Theorem walk_binds_no_manifest (fuel : nat) (fs : FS) (r : string) (m : Model)
    (errs : list string) (ready : bool)
    (Hr : IsAbs r = true) (Hdir : Stat fs r = Some EDir)
    (Hroot : Forall (root_event r) (fs_walk fs r))
    (Hsub : forall p, IsAbs p = true -> Forall abs_event (fs_walk fs p))
    (Hw : walk fuel fs (empty_model r) = Ready m errs ready) :
  Forall (fun k => children k = [] /\ parent k = None) (kustomizations m).
Proof. exact (walk_unbound fuel fs r m errs ready Hr Hdir Hroot Hsub Hw). Qed.

Lemma walk_binds_no_manifest_witness :
  exists m errs ready,
    IsAbs "/r" = true /\ Stat e2e_fs "/r" = Some EDir
    /\ Forall (root_event "/r") (fs_walk e2e_fs "/r")
    /\ (forall p, IsAbs p = true -> Forall abs_event (fs_walk e2e_fs p))
    /\ walk 3 e2e_fs (empty_model "/r") = Ready m errs ready
    /\ Forall (fun k => children k = [] /\ parent k = None) (kustomizations m).
Proof.
  assert (H1 : IsAbs "/r" = true) by reflexivity.
  assert (H2 : Stat e2e_fs "/r" = Some EDir) by reflexivity.
  assert (H3 : Forall (root_event "/r") (fs_walk e2e_fs "/r")) by (vm_compute; repeat constructor).
  assert (H4 : forall p, IsAbs p = true -> Forall abs_event (fs_walk e2e_fs p)).
  { intros p _. cbn [fs_walk e2e_fs fs_of lookup_walk].
    destruct (String.eqb p "/r"); [vm_compute; repeat constructor |].
    destruct (String.eqb p "/r/apps/overlay"); vm_compute; repeat constructor. }
  destruct (walk 3 e2e_fs (empty_model "/r")) as [| | m errs ready |] eqn:E;
    try (vm_compute in E; discriminate).
  exists m, errs, ready. split; [exact H1 | split; [exact H2 | split; [exact H3 | split; [exact H4 |]]]].
  split; [reflexivity |].
  exact (walk_binds_no_manifest 3 e2e_fs "/r" m errs ready H1 H2 H3 H4 E).
Defined.

(** ** C7 *)

Lemma unbound_no_edge (m : Model) (a b : nat) :
  Forall (fun k => children k = [] /\ parent k = None) (kustomizations m) ->
  ~ child_edge m a b.
Proof.
  intros H. unfold child_edge, kust_at.
  destruct (Nat.lt_ge_cases a (length (kustomizations m))) as [Ha | Ha].
  - rewrite Forall_forall in H. destruct (H _ (nth_In _ dummy_api Ha)) as [-> _]. simpl. tauto.
  - rewrite nth_overflow by exact Ha. simpl. tauto.
Qed.

Lemma clos_trans_first_step {A} (R : A -> A -> Prop) (x y : A) :
  clos_trans A R x y -> exists z, R x z.
Proof. induction 1; eauto. Qed.

(** C7. For the roots the program can walk, those New makes from an
    absolute working directory other than "/" (its TrimRight leaves
    them absolute), the children relation over the Manifests after the
    full linking pass is acyclic: no Manifest is reachable from itself
    by following children edges.  (walk binds no Manifest there at all.)
    As for fastwalk, the walk of the root reports the root and paths
    below it, and walks from absolute directories report absolute paths. *)
Theorem walk_children_acyclic (fuel : nat) (fs : FS) (cwd : string) (m : Model)
    (errs : list string) (ready : bool)
    (Hr : IsAbs (m_root (New cwd)) = true) (Hdir : Stat fs (m_root (New cwd)) = Some EDir)
    (Hroot : Forall (root_event (m_root (New cwd))) (fs_walk fs (m_root (New cwd))))
    (Hsub : forall p, IsAbs p = true -> Forall abs_event (fs_walk fs p))
    (Hw : walk fuel fs (New cwd) = Ready m errs ready) :
  forall i, ~ clos_trans nat (child_edge m) i i.
Proof.
  intros i Hc. destruct (clos_trans_first_step _ _ _ Hc) as [z Hz].
  unfold New in *. simpl m_root in *.
  exact (unbound_no_edge m i z (walk_unbound fuel fs _ m errs ready Hr Hdir Hroot Hsub Hw) Hz).
Qed.

Lemma walk_children_acyclic_witness :
  exists m errs ready,
    IsAbs (m_root (New "/r/")) = true /\ Stat e2e_fs (m_root (New "/r/")) = Some EDir
    /\ Forall (root_event (m_root (New "/r/"))) (fs_walk e2e_fs (m_root (New "/r/")))
    /\ (forall p, IsAbs p = true -> Forall abs_event (fs_walk e2e_fs p))
    /\ walk 3 e2e_fs (New "/r/") = Ready m errs ready
    /\ (forall i, ~ clos_trans nat (child_edge m) i i).
Proof.
  assert (H1 : IsAbs (m_root (New "/r/")) = true) by reflexivity.
  assert (H2 : Stat e2e_fs (m_root (New "/r/")) = Some EDir) by reflexivity.
  assert (H3 : Forall (root_event (m_root (New "/r/"))) (fs_walk e2e_fs (m_root (New "/r/"))))
    by (vm_compute; repeat constructor).
  assert (H4 : forall p, IsAbs p = true -> Forall abs_event (fs_walk e2e_fs p)).
  { intros p _. cbn [fs_walk e2e_fs fs_of lookup_walk].
    destruct (String.eqb p "/r"); [vm_compute; repeat constructor |].
    destruct (String.eqb p "/r/apps/overlay"); vm_compute; repeat constructor. }
  destruct (walk 3 e2e_fs (New "/r/")) as [| | m errs ready |] eqn:E;
    try (vm_compute in E; discriminate).
  exists m, errs, ready. split; [exact H1 | split; [exact H2 | split; [exact H3 | split; [exact H4 |]]]].
  split; [reflexivity |].
  exact (walk_children_acyclic 3 e2e_fs "/r/" m errs ready H1 H2 H3 H4 E).
Defined.

(** ** The root clusters after walk *)

Lemma bind_resource_clusters (index : nat) (rp : string) (m : Model) :
  clusters (bind_resource index rp m) = clusters m.
Proof.
  unfold bind_resource, bind_sources, bind_kusts.
  apply (fold_left_inv (fun a => clusters a = clusters m));
    [| apply (fold_left_inv (fun a => clusters a = clusters m)); [| reflexivity]];
    intros a b Ha; destruct (String.eqb _ _); exact Ha.
Qed.

Lemma res_loop_clusters (fs : FS) (index : nat) (path : string)
    (rec : string -> Model -> option Model) (rs : list string) (m m' : Model) (b : bool) :
  (forall p a a', rec p a = Some a' -> clusters a' = clusters a) ->
  res_loop fs index path rec rs m = Some (m', b) -> clusters m' = clusters m.
Proof.
  intros Hrec. revert m; induction rs as [| x rs IH]; intros m H; simpl in H.
  - injection H as <- _. reflexivity.
  - destruct (Stat fs _) as [[| c] |].
    + destruct (rec _ m) eqn:E; [| discriminate]. injection H as <- _. exact (Hrec _ _ _ E).
    + rewrite (IH _ H). apply bind_resource_clusters.
    + rewrite (IH _ H). apply bind_resource_clusters.
Qed.

Lemma docs_loop_clusters (fs : FS) (index : nat) (path : string)
    (rec : string -> Model -> option Model) (ds : yfile) (m m' : Model) :
  (forall p a a', rec p a = Some a' -> clusters a' = clusters a) ->
  docs_loop fs index path rec ds m = Some m' -> clusters m' = clusters m.
Proof.
  intros Hrec. revert m; induction ds as [| [d |] ds IH]; intros m H; simpl in H;
    try (injection H as <-; reflexivity).
  destruct (res_loop fs index path rec (y_resources d) m) as [[m1 [|]] |] eqn:E; [| | discriminate].
  - injection H as <-. exact (res_loop_clusters _ _ _ _ _ _ _ _ Hrec E).
  - rewrite (IH _ H). exact (res_loop_clusters _ _ _ _ _ _ _ _ Hrec E).
Qed.

Lemma followKustomization_clusters (fuel : nat) (fs : FS) (index : nat) :
  forall path m m', followKustomization fuel fs index path m = Some m' -> clusters m' = clusters m.
Proof.
  induction fuel as [| f IH]; intros path m m' H; simpl in H; [discriminate |].
  destruct (ReadFile fs (Clean path)).
  - exact (docs_loop_clusters _ _ _ _ _ _ _ IH H).
  - injection H as <-. reflexivity.
Qed.

Lemma set_source_parents_clusters (index : nat) (path : string) (m : Model) :
  clusters (set_source_parents index path m) = clusters m.
Proof.
  unfold set_source_parents. apply (fold_left_inv (fun a => clusters a = clusters m)); [| reflexivity].
  intros a s Ha. destruct (String.eqb _ _); exact Ha.
Qed.

Lemma pathFn_clusters (fuel : nat) (fs : FS) (index : nat) (cs : list cluster) (ev : walkEvent)
    (m : Model) :
  clusters m = cs -> step_holds (fun a => clusters a = cs) (pathFn fuel fs index ev m).
Proof.
  intros Hm. destruct ev as [d | p]; simpl; [| exact Hm].
  destruct (String.eqb _ kustomizationName).
  - destruct (followKustomization fuel fs index (de_path d) m) eqn:E; simpl; [| exact I].
    rewrite (followKustomization_clusters _ _ _ _ _ _ E). exact Hm.
  - destruct (de_regular d); [| exact Hm].
    destruct (first_kust_at _ _ _) as [i |].
    + unfold bind_child.
      destruct (PostBuild _); [destruct (Path _) |]; exact Hm.
    + simpl. rewrite set_source_parents_clusters. exact Hm.
Qed.

Lemma followFluxKustomization_clusters (fuel : nat) (fs : FS) (index : nat) (m : Model) :
  step_holds (fun a => clusters a = clusters m) (followFluxKustomization fuel fs index m).
Proof.
  unfold followFluxKustomization. destruct (GetKustomization fs _) as [fp kust].
  destruct (Path _); [| reflexivity].
  apply (run_walk_holds _ (fun _ => True)); [apply Forall_forall; auto | | reflexivity].
  intros ev a _ Ha. exact (pathFn_clusters fuel fs index _ ev a Ha).
Qed.

Lemma setSource_clusters (index : nat) (m : Model) : clusters (setSource index m) = clusters m.
Proof.
  unfold setSource. destruct (Source _) as [rf |]; [| reflexivity].
  apply (fold_left_inv (fun a => clusters a = clusters m)); [| reflexivity].
  intros a s Ha. cbv zeta.
  repeat match goal with |- context[if ?c then _ else _] => destruct c end; exact Ha.
Qed.

Lemma link_loop_clusters (fuel : nat) (fs : FS) (is : list nat) :
  forall m errs ready m2 errs2 ready2,
  link_loop fuel fs is m errs ready = Some (m2, errs2, ready2) -> clusters m2 = clusters m.
Proof.
  induction is as [| i is IH]; intros m errs ready m2 errs2 ready2 H; simpl in H.
  - injection H as <- _ _. reflexivity.
  - pose proof (followFluxKustomization_clusters fuel fs i
                  (set_kust m i (fun k => with_children k []))) as Hf.
    destruct (followFluxKustomization _ _ _ _) as [m1 | e m1 |]; [| | discriminate];
      simpl in Hf; rewrite (IH _ _ _ _ _ _ H), setSource_clusters; exact Hf.
Qed.

Lemma Add_name (c : cluster) (es : list string) (p : string) : c_name (Add c es p) = c_name c.
Proof.
  destruct c as [n f ch s]. destruct es as [| e0 [| e1 es]]; simpl; try reflexivity.
  destruct (String.eqb e0 n); [| reflexivity].
  match goal with |- context[match ?x with Some _ => _ | None => _ end] => destruct x end;
    reflexivity.
Qed.

Lemma NoDup_snoc {A} (l : list A) (x : A) : NoDup l -> ~ In x l -> NoDup (l ++ [x]).
Proof.
  intros H Hx. apply (Permutation_NoDup (Permutation_cons_append l x)). constructor; assumption.
Qed.

Lemma checkClusterPath_nodup (path : string) (m : Model) :
  NoDup (map c_name (clusters m)) -> NoDup (map c_name (clusters (checkClusterPath path m))).
Proof.
  intros H. unfold checkClusterPath.
  destruct (clusterCandidates (m_root m) path) as [[names p'] |]; [| exact H]. simpl.
  set (first := hd "" names).
  assert (Hmap : map c_name (map (fun c => if String.eqb (c_name c) first then Add c names p' else c)
                                 (clusters m)) = map c_name (clusters m)).
  { rewrite map_map. apply map_ext. intros c. destruct (String.eqb _ _); [apply Add_name | reflexivity]. }
  destruct (existsb (fun c => String.eqb (c_name c) first) (clusters m)) eqn:Ex; simpl.
  - rewrite Hmap. exact H.
  - rewrite map_app, Hmap. apply NoDup_snoc; [exact H |].
    intros Hin. apply in_map_iff in Hin as (c & Hc & Hin).
    assert (Ht : existsb (fun c => String.eqb (c_name c) first) (clusters m) = true).
    { apply existsb_exists. exists c. split; [exact Hin | apply String.eqb_eq; exact Hc]. }
    simpl in Ht. congruence.
Qed.

Lemma rootFn_nodup (fs : FS) (ev : walkEvent) (m : Model) :
  NoDup (map c_name (clusters m)) ->
  step_holds (fun a => NoDup (map c_name (clusters a))) (rootFn fs ev m).
Proof.
  intros H. destruct ev as [d | p]; simpl; [| exact H].
  destruct (Stat fs (de_path d)) as [[| c] |]; simpl; try (apply checkClusterPath_nodup, H).
  destruct (_ || _); [| exact H].
  destruct (parseYamlFromFile fs (m_root m) (de_path d)). exact H.
Qed.

(** Root slots whose live clusters have pairwise distinct names. *)
Lemma distinct_slots_map (cs : list cluster) :
  NoDup (map c_name cs) ->
  forall a b ca cb, a <> b -> nth a (map Some cs) None = Some ca ->
  nth b (map Some cs) None = Some cb -> c_name ca <> c_name cb.
Proof.
  intros H a b ca cb Hab Ea Eb. rewrite nth_map_Some in Ea, Eb.
  intros Heq. apply Hab.
  assert (Ha : nth_error (map c_name cs) a = Some (c_name ca)) by (rewrite nth_error_map, Ea; reflexivity).
  assert (Hb : nth_error (map c_name cs) b = Some (c_name cb)) by (rewrite nth_error_map, Eb; reflexivity).
  rewrite Heq in Ha. eapply (proj1 (NoDup_nth_error _)); [exact H | | congruence].
  apply nth_error_Some. congruence.
Qed.

Lemma filter_some_ordpairs {A} (R : A -> A -> Prop) (l : list (option A)) :
  (forall a b ca cb, a <> b -> nth a l None = Some ca -> nth b l None = Some cb -> R ca cb) ->
  ForallOrdPairs (fun x y => R x y /\ R y x) (filter_some l).
Proof.
  induction l as [| [c |] l IH]; intros H; simpl; [constructor | |].
  - constructor.
    + apply Forall_forall. intros y Hy.
      assert (Hb : exists b, nth b l None = Some y).
      { clear IH H. induction l as [| [c' |] l IHl]; simpl in Hy; [contradiction | |].
        - destruct Hy as [<- | Hy]; [exists 0; reflexivity |].
          destruct (IHl Hy) as [b Hb]. exists (S b). exact Hb.
        - destruct (IHl Hy) as [b Hb]. exists (S b). exact Hb. }
      destruct Hb as [b Hb]. split.
      * apply (H 0 (S b)); auto.
      * apply (H (S b) 0); auto.
    + apply IH. intros a b ca cb Hab. apply (H (S a) (S b)). congruence.
  - apply IH. intros a b ca cb Hab. apply (H (S a) (S b)). congruence.
Qed.

Lemma ForallOrdPairs_mono {A} (P Q : A -> A -> Prop) (l : list A) :
  (forall x y, P x y -> Q x y) -> ForallOrdPairs P l -> ForallOrdPairs Q l.
Proof.
  intros HPQ H. induction H as [| a l Ha _ IH]; constructor; [| exact IH].
  eapply Forall_impl; [| exact Ha]. intros y. apply HPQ.
Qed.

Lemma reparentClusters_distinct (fs : FS) (cs : list cluster) :
  NoDup (map c_name cs) ->
  ForallOrdPairs (fun x y => c_name x <> c_name y) (reparentClusters fs cs).
Proof.
  intros H. unfold reparentClusters.
  eapply ForallOrdPairs_perm; [intros x y Hxy; auto | apply Permutation_sym, sort_by_perm |].
  destruct (outer_prefix_invariant fs (length cs) (length cs) (map Some cs) (length_map _ _))
    as [[_ Hsh] _].
  apply (ForallOrdPairs_mono (fun x y => c_name x <> c_name y /\ c_name y <> c_name x));
    [intros x y [Hxy _]; exact Hxy |].
  apply (filter_some_ordpairs (fun x y => c_name x <> c_name y)).
  intros a b ca' cb' Hab Ea Eb.
  destruct (Hsh a ca' Ea) as (ca & Ea0 & Na & _). destruct (Hsh b cb' Eb) as (cb & Eb0 & Nb & _).
  rewrite Na, Nb. exact (distinct_slots_map cs H a b ca cb Hab Ea0 Eb0).
Qed.

Lemma Sorted_ordpairs {A} (R1 R2 : A -> A -> Prop) (l : list A) :
  Sorted R1 l -> ForallOrdPairs R2 l -> Sorted (fun a b => R1 a b /\ R2 a b) l.
Proof.
  intros H. induction H as [| a l Hs IH Hhd]; intros Hp; constructor.
  - inversion Hp; subst. apply IH. assumption.
  - inversion Hp as [| ? ? Hf _]; subst. destruct Hhd as [| b l' Hab]; constructor.
    split; [exact Hab |]. inversion Hf; assumption.
Qed.

Lemma Sorted_mono {A} (P Q : A -> A -> Prop) (l : list A) :
  (forall x y, P x y -> Q x y) -> Sorted P l -> Sorted Q l.
Proof.
  intros HPQ H. induction H as [| a l _ IH Hhd]; constructor; [exact IH |].
  destruct Hhd; constructor. apply HPQ. assumption.
Qed.

Lemma ltb_strict (a b : string) : String.ltb b a = false -> a <> b -> String.ltb a b = true.
Proof.
  unfold String.ltb. rewrite (String.compare_antisym b a).
  destruct (String.compare a b) eqn:E; simpl; try discriminate; auto.
  intros _ Hne. apply String.compare_eq_iff in E. contradiction.
Qed.

Lemma ordpairs_nodup (l : list cluster) :
  ForallOrdPairs (fun x y => c_name x <> c_name y) l -> NoDup (map c_name l).
Proof.
  intros H. induction H as [| a l Ha _ IH]; simpl; constructor; [| exact IH].
  intros Hin. apply in_map_iff in Hin as (y & Hy & Hin).
  rewrite Forall_forall in Ha. exact (Ha y Hin (eq_sym Hy)).
Qed.

(** After walk, the root clusters of the tree view have pairwise
    distinct names and are in strictly ascending order of name:
    checkClusterPath adds a root only under a name no root has yet,
    reparentClusters keeps a subset of the roots under their names, and
    its final sort orders them by name. *)
Theorem walk_root_clusters_sorted (fuel : nat) (fs : FS) (r : string) (m : Model)
    (errs : list string) (ready : bool)
    (Hw : walk fuel fs (empty_model r) = Ready m errs ready) :
  NoDup (map c_name (clusters m))
  /\ Sorted (fun a b => String.ltb (c_name a) (c_name b) = true) (clusters m).
Proof.
  unfold walk in Hw. simpl m_root in Hw.
  pose proof (run_walk_holds (fun a => NoDup (map c_name (clusters a))) (fun _ => True)
                (rootFn fs) (fs_walk fs r) (empty_model r) (proj2 (Forall_forall _ _) (fun _ _ => I))
                (fun ev a _ Ha => rootFn_nodup fs ev a Ha) (NoDup_nil _)) as H1.
  destruct (run_walk (rootFn fs) (fs_walk fs r) (empty_model r)) as [m1 | e m1 |];
    try discriminate.
  simpl in H1. destruct (kustomizations m1); [discriminate |].
  unfold linkAll in Hw.
  destruct (link_loop fuel fs _ m1 [] true) as [[[m2 errs2] ready2] |] eqn:E2; [| discriminate].
  injection Hw as <- _ _. simpl.
  rewrite <- (link_loop_clusters _ _ _ _ _ _ _ _ _ E2) in H1.
  pose proof (reparentClusters_distinct fs _ H1) as Hd.
  split; [apply ordpairs_nodup, Hd |].
  pose proof (Sorted_ordpairs _ _ _ (sort_by_sorted cluster_lt cluster_lt_asym _) Hd) as Hs.
  unfold reparentClusters in *.
  eapply Sorted_mono; [| exact Hs]. intros a b [Hab Hne]. apply ltb_strict; assumption.
Qed.

Lemma walk_root_clusters_sorted_witness :
  exists m errs ready,
    walk 3 two_clusters_fs (empty_model "/r") = Ready m errs ready
    /\ map c_name (clusters m) = ["prod"; "staging"]
    /\ (NoDup (map c_name (clusters m))
        /\ Sorted (fun a b => String.ltb (c_name a) (c_name b) = true) (clusters m)).
Proof.
  destruct (walk 3 two_clusters_fs (empty_model "/r")) as [| | m errs ready |] eqn:E;
    try (vm_compute in E; discriminate).
  exists m, errs, ready. split; [reflexivity |].
  split; [vm_compute in E; injection E as <- _ _; reflexivity |].
  exact (walk_root_clusters_sorted 3 two_clusters_fs "/r" m errs ready E).
Defined.

(** ** The final order of walk's Manifests (traverse.go, walk) *)

Lemma kust_lt_asym (a b : shortApi) : kust_lt a b = true -> kust_lt b a = false.
Proof.
  unfold kust_lt. rewrite (Nat.eqb_sym (length (children b))).
  destruct (Nat.eqb (length (children a)) (length (children b))) eqn:E.
  - unfold String.ltb. rewrite String.compare_antisym.
    destruct (String.compare (GetName b) (GetName a)); simpl; congruence.
  - rewrite !Nat.ltb_lt, Nat.ltb_nlt. lia.
Qed.

Lemma kust_lt_false_order (a b : shortApi) :
  kust_lt b a = false ->
  length (children b) < length (children a)
  \/ (length (children a) = length (children b) /\ String.leb (GetName a) (GetName b) = true).
Proof.
  unfold kust_lt. destruct (Nat.eqb (length (children b)) (length (children a))) eqn:E.
  - intros H. right. apply Nat.eqb_eq in E. split; [congruence |].
    unfold String.ltb in H. unfold String.leb. rewrite String.compare_antisym.
    destruct (String.compare (GetName b) (GetName a)); simpl in *; congruence.
  - intros H. left. apply Nat.eqb_neq in E. apply Nat.ltb_nlt in H. lia.
Qed.

Lemma map_filepath_kframe (m m' : Model) :
  length (kustomizations m') = length (kustomizations m) ->
  (forall i, filepath (kust_at m' i) = filepath (kust_at m i)) ->
  map filepath (kustomizations m') = map filepath (kustomizations m).
Proof.
  intros L F. apply (nth_ext _ _ (filepath dummy_api) (filepath dummy_api)).
  - rewrite !length_map. exact L.
  - intros n _. rewrite !map_nth. apply F.
Qed.

(** After walk, the Manifests are exactly those the crawl collected (the
    same file paths, each as often, in another order), ordered by the
    number of children, most first, and among equal numbers by name in
    ascending order. *)
Theorem walk_orders_manifests (fuel : nat) (fs : FS) (r : string) (m : Model)
    (errs : list string) (ready : bool)
    (Hw : walk fuel fs (empty_model r) = Ready m errs ready) :
  Permutation (map filepath (kustomizations m)) (map filepath (kustomizations (crawl fs r)))
  /\ Sorted (fun a b => length (children b) < length (children a)
                        \/ (length (children a) = length (children b)
                            /\ String.leb (GetName a) (GetName b) = true))
            (kustomizations m).
Proof.
  unfold walk in Hw. unfold crawl. simpl m_root in Hw.
  destruct (run_walk (rootFn fs) (fs_walk fs r) (empty_model r)) as [m1 | e m1 |];
    try discriminate.
  destruct (kustomizations m1) as [| k0 ks] eqn:Ek; [discriminate |].
  destruct (linkAll fuel fs m1) as [[[m2 errs2] ready2] |] eqn:El; [| discriminate].
  injection Hw as <- _ _. simpl. split.
  - unfold linkAll in El.
    assert (Hlt : Forall (fun j => j < length (kustomizations m1))
                         (seq 0 (length (kustomizations m1)))).
    { apply Forall_forall. intros j Hj. apply in_seq in Hj. lia. }
    destruct (link_loop_ftype fuel fs _ (seq_NoDup _ _) m1 [] true m2 errs2 ready2 Hlt El)
      as (_ & L & P & _).
    change (filepath k0 :: map filepath ks) with (map filepath (k0 :: ks)).
    rewrite <- Ek, <- (map_filepath_kframe m1 m2 L P).
    apply Permutation_map, sort_by_perm.
  - eapply Sorted_mono; [| exact (sort_by_sorted kust_lt kust_lt_asym _)].
    intros a b H. apply kust_lt_false_order, H.
Qed.

Lemma walk_orders_manifests_witness :
  exists m errs ready, walk 3 e2e_fs (empty_model "/r") = Ready m errs ready
  /\ (Permutation (map filepath (kustomizations m))
                  (map filepath (kustomizations (crawl e2e_fs "/r")))
      /\ Sorted (fun a b => length (children b) < length (children a)
                            \/ (length (children a) = length (children b)
                                /\ String.leb (GetName a) (GetName b) = true))
                (kustomizations m)).
Proof.
  destruct (walk 3 e2e_fs (empty_model "/r")) as [| | m errs ready |] eqn:E;
    try (vm_compute in E; discriminate).
  exists m, errs, ready. split; [reflexivity |].
  exact (walk_orders_manifests 3 e2e_fs "/r" m errs ready E).
Defined.

(** ** Substitution of text without a token (traverse.go, ParseSubstitutions) *)

Lemma prefix_app_l (a b t : string) : String.prefix (a ++ b) t = true -> String.prefix a t = true.
Proof.
  revert t; induction a as [| c a IH]; intros t H; simpl; [destruct t; reflexivity |].
  destruct t as [| c' t]; simpl in H |- *; [discriminate |].
  destruct (Ascii.ascii_dec c c'); [apply IH, H | discriminate].
Qed.

Lemma Contains_prefix_false (s a b : string) :
  (forall t, String.prefix b t = true -> String.prefix a t = true) ->
  Contains s a = false -> Contains s b = false.
Proof.
  intros Hab. induction s as [| c s IH]; intros H; cbn [Contains] in H |- *;
    apply Bool.orb_false_iff in H as [H1 H2]; apply Bool.orb_false_iff; split;
    try (destruct (String.prefix b _) eqn:Eb; [rewrite (Hab _ Eb) in H1; discriminate |]);
    auto.
Qed.

Lemma replace_fuel_absent (n : nat) (s old new : string) :
  Contains s old = false -> replace_fuel n s old new = s.
Proof.
  revert s; induction n as [| n IH]; intros s H; cbn [replace_fuel]; [reflexivity |].
  destruct s as [| c s]; [reflexivity |].
  cbn [Contains] in H. apply Bool.orb_false_iff in H as [H1 H2].
  rewrite H1, (IH s H2). reflexivity.
Qed.

(** A text with no "${" in it comes out of ParseSubstitutions unchanged,
    whatever the substitutions and their order. *)
Theorem ParseSubstitutions_no_token (where_ : string) (subst : list (string * string))
    (Hw : Contains where_ "${" = false) :
  ParseSubstitutions where_ subst = where_.
Proof.
  unfold ParseSubstitutions. induction subst as [| [k v] subst IH]; simpl; [reflexivity |].
  unfold ReplaceAll. rewrite replace_fuel_absent; [exact IH |].
  apply (Contains_prefix_false _ "${"); [| exact Hw].
  intros t Ht. exact (prefix_app_l "${" (k ++ "}") t Ht).
Qed.

Lemma ParseSubstitutions_no_token_witness :
  Contains "apps-$x" "${" = false
  /\ ParseSubstitutions "apps-$x" [("x", "prod"); ("cluster", "a")] = "apps-$x".
Proof.
  assert (H : Contains "apps-$x" "${" = false) by reflexivity.
  split; [exact H | exact (ParseSubstitutions_no_token _ _ H)].
Defined.

(** ** The root New keeps (part_001, New) *)

Lemma rev_str_app (a b : string) : rev_str (a ++ b) = (rev_str b ++ rev_str a)%string.
Proof.
  induction a as [| c a IH]; simpl.
  - rewrite str_app_nil_r. reflexivity.
  - rewrite IH, str_app_assoc. reflexivity.
Qed.

Lemma rev_str_involutive (s : string) : rev_str (rev_str s) = s.
Proof.
  induction s as [| c s IH]; simpl; [reflexivity |].
  rewrite rev_str_app, IH. reflexivity.
Qed.

Lemma rev_str_empty (s : string) : rev_str s = "" <-> s = "".
Proof.
  split; [| intros ->; reflexivity].
  destruct s as [| c s]; simpl; [auto |].
  destruct (rev_str s); discriminate.
Qed.

Lemma list_ascii_of_string_append (a b : string) :
  list_ascii_of_string (a ++ b) = (list_ascii_of_string a ++ list_ascii_of_string b)%list.
Proof. induction a as [| c a IH]; simpl; [reflexivity | rewrite IH; reflexivity]. Qed.

Lemma list_ascii_of_rev_str (s : string) :
  list_ascii_of_string (rev_str s) = rev (list_ascii_of_string s).
Proof.
  induction s as [| c s IH]; simpl; [reflexivity |].
  rewrite list_ascii_of_string_append, IH. reflexivity.
Qed.

Lemma drop_sep_empty (s : string) :
  drop_sep s = "" <-> Forall (fun c => c = "/"%char) (list_ascii_of_string s).
Proof.
  induction s as [| c s IH]; simpl; [split; auto |].
  destruct (Ascii.eqb c sep) eqn:E.
  - apply Ascii.eqb_eq in E. rewrite IH. split; [intros H; constructor; auto |].
    intros H. inversion H; auto.
  - apply Ascii.eqb_neq in E. split; [discriminate |].
    intros H. inversion H; subst. contradiction.
Qed.

Lemma drop_sep_no_lead (s : string) : String.prefix "/" (drop_sep s) = false.
Proof.
  induction s as [| c s IH]; cbn [drop_sep]; [reflexivity |].
  destruct (Ascii.eqb c sep) eqn:E; [exact IH |].
  apply Ascii.eqb_neq in E.
  change (String.prefix "/" (String c s))
    with (if Ascii.ascii_dec "/"%char c then String.prefix "" s else false).
  destruct (Ascii.ascii_dec "/"%char c) as [<- | _]; [contradiction | reflexivity].
Qed.

(** The root New stores never ends in a separator, and it is empty
    exactly when the given root consists of separators only (the empty
    string or "/", "//", ...). *)
Theorem New_root (root : string) :
  HasSuffix (m_root (New root)) "/" = false
  /\ (m_root (New root) = "" <-> Forall (fun c => c = "/"%char) (list_ascii_of_string root)).
Proof.
  unfold New, empty_model, TrimRightSep. simpl m_root. split.
  - unfold HasSuffix. rewrite rev_str_involutive. apply drop_sep_no_lead.
  - rewrite rev_str_empty, drop_sep_empty, list_ascii_of_rev_str.
    split; [intros H; rewrite <- (rev_involutive (list_ascii_of_string root)) | intros H];
      apply Forall_rev; exact H.
Qed.
